(** * Key-Value-Store: the open-addressing table and its binary codec

    A shallow embedding of [src/hash_table.c] and [src/persistence.c], and
    of [trim_whitespaces] of [src/main.c].

    - [size_t] and [uint32_t] values are integers in [Z] with the wrap-around
      written out; an [int] key is an integer in the 32-bit signed range.
    - A [char*] is modelled by what it points to: [NULL], a NUL-terminated
      string given by its bytes, or a pointer whose block has been freed.
    - The table is passed explicitly ([hash_table_t* table] is updated in
      place in the source); the global last-error cell of [error.c] and the
      outcomes of the allocator are threaded through a [world].
    - [ht_set] has no [return] statement on the path that stores the entry:
      its outcome there is [NoReturn], and what a caller reads from it is the
      parameter [fall] of the development. *)

From Stdlib Require Import ZArith List Bool Lia Strings.Byte Strings.String.
From stdpp Require Import base list gmap.

Open Scope Z_scope.

(** ** Machine integers *)

Definition SIZE_MAX : Z := 2 ^ 64 - 1.
Definition size_t (z : Z) : Z := z mod 2 ^ 64.
Definition uint32_t (z : Z) : Z := z mod 2 ^ 32.
Definition int32_t (z : Z) : Z := (z + 2 ^ 31) mod 2 ^ 32 - 2 ^ 31.

(** hash_table.h: [#define DELETED_KEY (-2147483648)] *)
Definition DELETED_KEY : Z := -2147483648.

(** hash_table.c: the three constants at the top of the file.  The load
    factor threshold 0.75 is the fraction 3/4, see [load_factor_reached]. *)
Definition DEFAULT_CAPACITY : Z := 16.
Definition GROWTH_FACTOR : Z := 2.

(** ** error.h / error.c *)

Inductive kvs_error_t :=
| KVS_SUCCESS
| KVS_ERROR_MEMORY
| KVS_ERROR_KEY_NOT_FOUND
| KVS_ERROR_INVALID_PARAM
| KVS_ERROR_FILE_IO
| KVS_ERROR_CORRUPTION
| KVS_ERROR_UNKNOWN.

(** [global_error] is the static cell of error.c.  [heap] lists the outcomes
    of the coming calls of [malloc] and [calloc], oldest first ([true]: the
    block is obtained); once the list is used up every allocation succeeds. *)
Record world := { global_error : kvs_error_t; heap : list bool }.

Definition kvs_set_error (error : kvs_error_t) (w : world) : world :=
  {| global_error := error; heap := heap w |}.

Definition kvs_get_error (w : world) : kvs_error_t := global_error w.

Definition kvs_clear_error (w : world) : world := kvs_set_error KVS_SUCCESS w.

Definition malloc (w : world) : bool * world :=
  match heap w with
  | [] => (true, w)
  | ok :: rest => (ok, {| global_error := global_error w; heap := rest |})
  end.

(** ** hash_table.h: entries and the table *)

Inductive char_ptr :=
| NULL
| Str (s : list byte)
| Freed.

Record ht_entry_t := { key : Z; value : char_ptr; occupied : bool }.

Record hash_table_t :=
  { entries : list ht_entry_t; capacity : Z; size : Z; tombstones : Z }.

(** What [calloc] hands out: every field zero. *)
Definition zero_entry : ht_entry_t :=
  {| key := 0; value := NULL; occupied := false |}.

(** [entries[index]].  Inside the array this is the slot; the array has
    [capacity] slots in every table the source builds ([wf_table] below), and
    a read outside it, which C leaves undefined, yields a zeroed slot here. *)
Definition entry_at (es : list ht_entry_t) (index : Z) : ht_entry_t :=
  default zero_entry (es !! Z.to_nat index).

(** What a function declared [bool] hands back: the value of a [return]
    statement, the end of the body reached with no [return], or no result at
    all (the nesting bound of the model is used up, or the source reads or
    frees a block that was freed before). *)
Inductive ret :=
| Return (b : bool)
| NoReturn
| Stuck.

(** The bytes of a C string stop at the first NUL: what [strlen] measures and
    [strcpy] copies. *)
Fixpoint c_string (s : list byte) : list byte :=
  match s with
  | [] => []
  | b :: s' => if Byte.eqb b x00 then [] else b :: c_string s'
  end.

(** ** hash_table.c *)

(** [hash_key]: FNV-1a over the four bytes of the key, lowest byte first
    (the object representation of [int] on a little-endian host), in
    [uint32_t] arithmetic. *)
Definition key_byte (k : Z) (i : Z) : Z :=
  Z.land (Z.shiftr (uint32_t k) (8 * i)) 255.

Definition hash_key (k : Z) : Z :=
  fold_left (fun hash i => uint32_t (Z.lxor hash (key_byte k i) * 16777619))
            [0; 1; 2; 3] 2166136261.

(** The [do ... while (index != original_index)] loop of [find_slot].  Each
    unfolding is one pass through the body; [None] means the passes allowed
    were used up before the loop ended ([find_slot_loop_terminates] shows
    that [capacity] passes always suffice). *)
Fixpoint find_slot_loop (fuel : nat) (es : list ht_entry_t) (cap k : Z)
    (for_insertion : bool) (original_index index first_tombstone : Z)
    : option Z :=
  match fuel with
  | O => None
  | S fuel' =>
    let entry := entry_at es index in
    if negb (occupied entry) then
      (* Empty slot *)
      if for_insertion && negb (first_tombstone =? SIZE_MAX)
      then Some first_tombstone
      else Some index
    else
      let continue first_tombstone :=
        let index := (index + 1) mod cap in
        if negb (index =? original_index)
        then find_slot_loop fuel' es cap k for_insertion
                            original_index index first_tombstone
        else if for_insertion && negb (first_tombstone =? SIZE_MAX)
             then Some first_tombstone
             else Some SIZE_MAX in
      if key entry =? DELETED_KEY then
        (* Tombstone found *)
        if for_insertion && (first_tombstone =? SIZE_MAX)
        then continue index
        else continue first_tombstone
      else if key entry =? k then
        (* Key found *)
        Some index
      else continue first_tombstone
  end.

Definition find_slot (table : hash_table_t) (k : Z) (for_insertion : bool)
    : Z :=
  if capacity table =? 0 then SIZE_MAX
  else
    let index := size_t (hash_key k) mod capacity table in
    match find_slot_loop (Z.to_nat (capacity table)) (entries table)
                         (capacity table) k for_insertion
                         index index SIZE_MAX with
    | Some found => found
    | None => SIZE_MAX
    end.

(** [ht_create]: one block for the table, one zeroed block for the slots. *)
Definition ht_create (initial_capacity : Z) (w : world)
    : option hash_table_t * world :=
  let initial_capacity :=
    if initial_capacity =? 0 then DEFAULT_CAPACITY else initial_capacity in
  let (got_table, w) := malloc w in
  if negb got_table then (None, kvs_set_error KVS_ERROR_MEMORY w)
  else
    let (got_entries, w) := malloc w in
    if negb got_entries then (None, kvs_set_error KVS_ERROR_MEMORY w)
    else
      (Some {| entries := replicate (Z.to_nat initial_capacity) zero_entry;
               capacity := initial_capacity;
               size := 0;
               tombstones := 0 |},
       kvs_clear_error w).

(** The test of [ht_set],
    [(double)(size + tombstones) / capacity >= LOAD_FACTOR_THRESHOLD].
    The sum is a [size_t]; the quotient is compared with 3/4 exactly.  For a
    capacity below 2^52 (more slots than that cannot be allocated) rounding
    to [double] does not change the outcome of the comparison: 0.75 is a
    double, rounding is monotone, and a quotient below 3/4 is below it by at
    least 1/(4 * capacity) > 2^-54.  With [capacity = 0] the quotient is an
    infinity, or a NaN (which compares false) when the sum is zero too. *)
Definition load_factor_reached (table : hash_table_t) : bool :=
  let load := size_t (size table + tombstones table) in
  if capacity table =? 0 then 0 <? load
  else 3 * capacity table <=? 4 * load.

(** [ht_set] from [find_slot] to the closing brace (lines 191 to 217). *)
Definition ht_set_place (table : hash_table_t) (k : Z) (v : char_ptr)
    (w : world) : ret * hash_table_t * world :=
  let index := find_slot table k true in
  if index =? SIZE_MAX then (Return false, table, kvs_set_error KVS_ERROR_MEMORY w)
  else
    let entry := entry_at (entries table) index in
    match v with
    | Str s =>
      let (got_copy, w) := malloc w in
      if negb got_copy
      then (Return false, table, kvs_set_error KVS_ERROR_MEMORY w)
      else
        let value_copy := Str (c_string s) in
        let tombstones' :=
          if occupied entry && (key entry =? k)
             && negb (key entry =? DELETED_KEY)
          then size_t (tombstones table - 1)
          else tombstones table in
        (NoReturn,
         {| entries :=
              <[Z.to_nat index :=
                  {| key := k; value := value_copy; occupied := true |}]>
                (entries table);
            capacity := capacity table;
            size := size_t (size table + 1);
            tombstones := tombstones' |},
         w)
    | _ => (Stuck, table, w)
    end.

(** [free(old_entries[i].value)] under [if (old_entries[i].value)]. *)
Definition free_value (e : ht_entry_t) : ht_entry_t :=
  match value e with
  | NULL => e
  | _ => {| key := key e; value := Freed; occupied := occupied e |}
  end.

Section FallThrough.

(** What a caller reads from [ht_set] when the body ends without a [return]
    statement.  The source does not fix it.  One value stands for every
    such read of a run; a run in which the reads differ from call to call
    is not described. *)
Variable fall : bool.

Definition truth (r : ret) : option bool :=
  match r with
  | Return b => Some b
  | NoReturn => Some fall
  | Stuck => None
  end.

(** The [for] loop of [resize_table], at index [i] with [n] slots of the old
    array still to visit.  [set] is [ht_set] on the table being rebuilt. *)
Fixpoint resize_loop
    (set : hash_table_t -> Z -> char_ptr -> world -> ret * hash_table_t * world)
    (n : nat) (i : Z) (old_entries : list ht_entry_t) (old_capacity : Z)
    (table : hash_table_t) (w : world) : ret * hash_table_t * world :=
  match n with
  | O => (Return true, table, w)
  | S n' =>
    let old := entry_at old_entries i in
    let next table w :=
      resize_loop set n' (i + 1)
                  (<[Z.to_nat i := free_value old]> old_entries)
                  old_capacity table w in
    if occupied old && negb (key old =? DELETED_KEY) then
      let '(r, table, w) := set table (key old) (value old) w in
      match truth r with
      | Some true => next table w
      | Some false =>
        (* Insertion failed *)
        (Return false,
         {| entries := old_entries;
            capacity := old_capacity;
            size := size table;
            tombstones := tombstones table |},
         w)
      | None => (Stuck, table, w)
      end
    else next table w
  end.

Definition resize_table_with
    (set : hash_table_t -> Z -> char_ptr -> world -> ret * hash_table_t * world)
    (table : hash_table_t) (new_capacity : Z) (w : world)
    : ret * hash_table_t * world :=
  if new_capacity <=? capacity table then (Return false, table, w)
  else
    let (got_entries, w) := malloc w in
    if negb got_entries
    then (Return false, table, kvs_set_error KVS_ERROR_MEMORY w)
    else
      resize_loop set (Z.to_nat (capacity table)) 0
                  (entries table) (capacity table)
                  {| entries := replicate (Z.to_nat new_capacity) zero_entry;
                     capacity := new_capacity;
                     size := 0;
                     tombstones := 0 |}
                  w.

(** [ht_set].  It calls [resize_table], which calls [ht_set] again on the
    enlarged table; [depth] bounds that nesting. *)
Fixpoint ht_set (depth : nat) (table : hash_table_t) (k : Z) (v : char_ptr)
    (w : world) : ret * hash_table_t * world :=
  match v with
  | NULL => (Return false, table, kvs_set_error KVS_ERROR_INVALID_PARAM w)
  | _ =>
    if k =? DELETED_KEY
    then (Return false, table, kvs_set_error KVS_ERROR_INVALID_PARAM w)
    else if load_factor_reached table then
      match depth with
      | O => (Stuck, table, w)
      | S depth' =>
        let '(r, table, w) :=
          resize_table_with (ht_set depth') table
                            (size_t (capacity table * GROWTH_FACTOR)) w in
        match r with
        | Return true => ht_set_place table k v w
        | Return false => (Return false, table, w)
        | _ => (Stuck, table, w)
        end
      end
    else ht_set_place table k v w
  end.

Definition resize_table (depth : nat) :=
  resize_table_with (ht_set depth).

(** A nesting bound no run reaches: each nested [resize_table] runs on twice
    the capacity, and a capacity is below 2^64. *)
Definition max_depth : nat := 64.

End FallThrough.

Definition ht_get (table : hash_table_t) (k : Z) (w : world)
    : char_ptr * world :=
  if k =? DELETED_KEY then (NULL, kvs_set_error KVS_ERROR_INVALID_PARAM w)
  else
    let index := find_slot table k false in
    if index =? SIZE_MAX then (NULL, kvs_set_error KVS_ERROR_KEY_NOT_FOUND w)
    else
      let entry := entry_at (entries table) index in
      if negb (occupied entry) || negb (key entry =? k)
         || (key entry =? DELETED_KEY)
      then (NULL, kvs_set_error KVS_ERROR_KEY_NOT_FOUND w)
      else (value entry, kvs_clear_error w).

Definition ht_delete (table : hash_table_t) (k : Z) (w : world)
    : ret * hash_table_t * world :=
  if k =? DELETED_KEY
  then (Return false, table, kvs_set_error KVS_ERROR_INVALID_PARAM w)
  else
    let index := find_slot table k false in
    if index =? SIZE_MAX
    then (Return false, table, kvs_set_error KVS_ERROR_KEY_NOT_FOUND w)
    else
      let entry := entry_at (entries table) index in
      if negb (occupied entry) || negb (key entry =? k)
         || (key entry =? DELETED_KEY)
      then (Return false, table, kvs_set_error KVS_ERROR_KEY_NOT_FOUND w)
      else
        match value entry with
        | Freed => (Stuck, table, w)
        | _ =>
          (Return true,
           {| entries :=
                <[Z.to_nat index :=
                    {| key := DELETED_KEY; value := NULL; occupied := true |}]>
                  (entries table);
              capacity := capacity table;
              size := size_t (size table - 1);
              tombstones := size_t (tombstones table + 1) |},
           kvs_clear_error w)
        end.

Definition ht_size (table : hash_table_t) : Z := size table.

Definition ht_capacity (table : hash_table_t) : Z := capacity table.

(** The iterator.  [iter_table] is the field [table] of the source (a pointer
    to the table being traversed), [index] the position in its array. *)
Record ht_iterator_t := { iter_table : hash_table_t; index : Z }.

Definition ht_iterator_init (table : hash_table_t) : ht_iterator_t :=
  {| iter_table := table; index := 0 |}.

(** The [while (iter->index < iter->table->capacity)] loop of
    [ht_iterator_next]; every pass advances the index, so the passes are
    counted by the slots left. *)
Fixpoint iterator_scan (n : nat) (table : hash_table_t) (i : Z)
    : option (Z * char_ptr) * Z :=
  match n with
  | O => (None, i)
  | S n' =>
    if i <? capacity table then
      let entry := entry_at (entries table) i in
      if occupied entry && negb (key entry =? DELETED_KEY)
      then (Some (key entry, value entry), i + 1)
      else iterator_scan n' table (i + 1)
    else (None, i)
  end.

(** [ht_iterator_next]: the pair written through [key] and [value] when the
    result is [true], and the iterator as the call leaves it. *)
Definition ht_iterator_next (iter : ht_iterator_t)
    : option (Z * char_ptr) * ht_iterator_t :=
  let (found, i) :=
    iterator_scan (Z.to_nat (capacity (iter_table iter) - index iter))
                  (iter_table iter) (index iter) in
  (found, {| iter_table := iter_table iter; index := i |}).

(** ** persistence.h / persistence.c *)

Definition KVS_MAGIC_NUMBER : Z := 0x4B565301.
Definition KVS_FILE_VERSION : Z := 1.

(** The bound of [if (value_len > 100000)] in [kvs_load_from_file]. *)
Definition MAX_VALUE_LEN : Z := 100000.

Record kvs_file_header_t :=
  { magic : Z; version : Z; entry_count : Z; reserved : Z }.

(** Object representations, lowest byte first. *)
Definition byte_of_Z (z : Z) : byte :=
  default x00 (Byte.of_N (Z.to_N (z mod 256))).

Definition Z_of_byte (b : byte) : Z := Z.of_N (Byte.to_N b).

Definition uint32_bytes (z : Z) : list byte :=
  map (fun i => byte_of_Z (Z.shiftr (uint32_t z) (8 * i))) [0; 1; 2; 3].

Definition uint32_of_bytes (bs : list byte) : Z :=
  fold_right (fun b acc => Z_of_byte b + 256 * acc) 0 bs.

Definition header_bytes (h : kvs_file_header_t) : list byte :=
  uint32_bytes (magic h) ++ uint32_bytes (version h)
  ++ uint32_bytes (entry_count h) ++ uint32_bytes (reserved h).

Definition header_of_bytes (bs : list byte) : kvs_file_header_t :=
  {| magic := uint32_of_bytes (take 4 bs);
     version := uint32_of_bytes (take 4 (drop 4 bs));
     entry_count := uint32_of_bytes (take 4 (drop 8 bs));
     reserved := uint32_of_bytes (take 4 (drop 12 bs)) |}.

(** A file open for reading is the bytes not read yet.  [fread n] is a read
    of [n] bytes that the caller compares with the count asked for: the
    bytes when all of them are there, nothing when the file ends first. *)
Definition fread (n : Z) (file : list byte) : option (list byte) * list byte :=
  if n <=? Z.of_nat (length file)
  then (Some (take (Z.to_nat n) file), drop (Z.to_nat n) file)
  else (None, []).

(** The [while (ht_iterator_next(&iter, &key, &value))] loop of
    [kvs_save_to_file].  The file is open for writing and every [fwrite]
    writes all it is given; [file] is what has been written so far.  [None]:
    the passes allowed are used up, or [strlen] meets a pointer that is no
    string. *)
Fixpoint save_loop (n : nat) (iter : ht_iterator_t) (file : list byte)
    : option (list byte) :=
  match n with
  | O => None
  | S n' =>
    match ht_iterator_next iter with
    | (None, _) => Some file
    | (Some (k, Str s), iter) =>
      let value_len := uint32_t (Z.of_nat (length (c_string s))) in
      save_loop n' iter
                (file ++ uint32_bytes k ++ uint32_bytes value_len
                      ++ take (Z.to_nat value_len) (c_string s))
    | (Some _, _) => None
    end
  end.

(** [kvs_save_to_file], on a file that opens for writing: the result and the
    bytes of the file afterwards. *)
Definition kvs_save_to_file (table : hash_table_t) (w : world)
    : ret * list byte * world :=
  let header :=
    {| magic := KVS_MAGIC_NUMBER;
       version := KVS_FILE_VERSION;
       entry_count := uint32_t (ht_size table);
       reserved := 0 |} in
  match save_loop (S (Z.to_nat (capacity table))) (ht_iterator_init table)
                  (header_bytes header) with
  | Some file => (Return true, file, kvs_clear_error w)
  | None => (Stuck, header_bytes header, w)
  end.

Section Codec.

Variable fall : bool.

(** The [for (uint32_t i = 0; i < header.entry_count; i++)] loop of
    [kvs_load_from_file], with [n] records still to read. *)
Fixpoint load_loop (n : nat) (table : hash_table_t) (file : list byte)
    (w : world) : ret * hash_table_t * world :=
  match n with
  | O => (Return true, table, kvs_clear_error w)
  | S n' =>
    match fread 4 file with
    | (None, _) => (Return false, table, kvs_set_error KVS_ERROR_FILE_IO w)
    | (Some key_bytes, file) =>
      let k := int32_t (uint32_of_bytes key_bytes) in
      match fread 4 file with
      | (None, _) => (Return false, table, kvs_set_error KVS_ERROR_FILE_IO w)
      | (Some len_bytes, file) =>
        let value_len := uint32_of_bytes len_bytes in
        if value_len >? MAX_VALUE_LEN
        then (Return false, table, kvs_set_error KVS_ERROR_CORRUPTION w)
        else
          let (got_value, w) := malloc w in
          if negb got_value
          then (Return false, table, kvs_set_error KVS_ERROR_MEMORY w)
          else
            match fread value_len file with
            | (None, _) =>
              (Return false, table, kvs_set_error KVS_ERROR_FILE_IO w)
            | (Some value_bytes, file) =>
              (* value[value_len] = 0: the string ends there at the latest *)
              let '(r, table, w) :=
                ht_set fall max_depth table k (Str value_bytes) w in
              match truth fall r with
              | Some true => load_loop n' table file w
              | Some false => (Return false, table, w)
              | None => (Stuck, table, w)
              end
            end
      end
    end
  end.

(** [kvs_load_from_file]; [file] is the content of the file named, [None]
    when it cannot be opened. *)
Definition kvs_load_from_file (table : hash_table_t)
    (file : option (list byte)) (w : world) : ret * hash_table_t * world :=
  match file with
  | None => (Return false, table, kvs_set_error KVS_ERROR_FILE_IO w)
  | Some file =>
    match fread 16 file with
    | (None, _) => (Return false, table, kvs_set_error KVS_ERROR_FILE_IO w)
    | (Some bs, file) =>
      let header := header_of_bytes bs in
      if negb (magic header =? KVS_MAGIC_NUMBER)
      then (Return false, table, kvs_set_error KVS_ERROR_CORRUPTION w)
      else if negb (version header =? KVS_FILE_VERSION)
      then (Return false, table, kvs_set_error KVS_ERROR_CORRUPTION w)
      else load_loop (Z.to_nat (entry_count header)) table file w
    end
  end.

End Codec.

(** ** Properties of tables *)

Definition is_live (e : ht_entry_t) : bool :=
  occupied e && negb (key e =? DELETED_KEY).

Definition is_tombstone (e : ht_entry_t) : bool :=
  occupied e && (key e =? DELETED_KEY).

Definition holds (k : Z) (e : ht_entry_t) : bool :=
  is_live e && (key e =? k).

Fixpoint count_slots (p : ht_entry_t -> bool) (es : list ht_entry_t) : Z :=
  match es with
  | [] => 0
  | e :: es' => (if p e then 1 else 0) + count_slots p es'
  end.

(** The number of Occupied slots and of Tombstone slots of the array. *)
Definition live_slots (t : hash_table_t) : Z := count_slots is_live (entries t).
Definition tombstone_slots (t : hash_table_t) : Z :=
  count_slots is_tombstone (entries t).

(** The sum that [ht_set] divides by the capacity. *)
Definition load (t : hash_table_t) : Z := size_t (size t + tombstones t).

Definition slot (t : hash_table_t) (i : Z) : ht_entry_t :=
  entry_at (entries t) i.

(** The table is a C object: the array has [capacity] slots, there is at
    least one, and the three counters are [size_t] values. *)
Definition wf_table (t : hash_table_t) : Prop :=
  0 < capacity t < 2 ^ 64
  /\ Z.of_nat (length (entries t)) = capacity t
  /\ 0 <= size t < 2 ^ 64
  /\ 0 <= tombstones t < 2 ^ 64.

(** The probe sequence of a key: slot [probe t k d] is visited after [d]
    steps from [hash_key k % capacity]. *)
Definition home (t : hash_table_t) (k : Z) : Z :=
  size_t (hash_key k) mod capacity t.

Definition probe (t : hash_table_t) (k d : Z) : Z :=
  (home t k + d) mod capacity t.

(** Every stored key sits on its own probe sequence with no Empty slot
    before it. *)
Definition reachable_keys (t : hash_table_t) : Prop :=
  forall s, 0 <= s < capacity t -> is_live (slot t s) = true ->
    exists d, 0 <= d < capacity t
      /\ probe t (key (slot t s)) d = s
      /\ forall i, 0 <= i < d ->
           occupied (slot t (probe t (key (slot t s)) i)) = true.

(** No key is stored in two slots. *)
Definition unique_keys (t : hash_table_t) : Prop :=
  forall s s', 0 <= s < capacity t -> 0 <= s' < capacity t ->
    is_live (slot t s) = true -> is_live (slot t s') = true ->
    key (slot t s) = key (slot t s') -> s = s'.

Definition table_inv (t : hash_table_t) : Prop :=
  wf_table t /\ reachable_keys t /\ unique_keys t.

(** What [find_slot] answers, in terms of the probe sequence of [k]: the
    scan passes [e] slots that are occupied and do not hold [k], and then
    meets [k], an Empty slot, or the end of the cycle. *)
Definition find_slot_post (t : hash_table_t) (k : Z) (for_insertion : bool)
    (r : Z) : Prop :=
  exists e, 0 <= e <= capacity t
    /\ (forall i, 0 <= i < e ->
          occupied (slot t (probe t k i)) = true
          /\ holds k (slot t (probe t k i)) = false)
    /\ ((e < capacity t /\ holds k (slot t (probe t k e)) = true
         /\ r = probe t k e)
        \/ ((e = capacity t
             \/ (e < capacity t /\ occupied (slot t (probe t k e)) = false))
            /\ ((for_insertion = true
                 /\ exists j, 0 <= j < e
                      /\ is_tombstone (slot t (probe t k j)) = true
                      /\ r = probe t k j)
                \/ ((for_insertion = true -> forall i, 0 <= i < e ->
                       is_tombstone (slot t (probe t k i)) = false)
                    /\ r = if e <? capacity t then probe t k e
                           else SIZE_MAX)))).

(** The first [e] slots of the probe sequence of [k] are occupied and none
    holds [k]. *)
Definition passed (t : hash_table_t) (k e : Z) : Prop :=
  forall i, 0 <= i < e ->
    occupied (slot t (probe t k i)) = true
    /\ holds k (slot t (probe t k i)) = false.

(** The variable [first_tombstone] after [d] passes of the loop. *)
Definition first_tombstone_ok (t : hash_table_t) (k : Z) (for_insertion : bool)
    (d first_tombstone : Z) : Prop :=
  (first_tombstone = SIZE_MAX
   /\ (for_insertion = true -> forall i, 0 <= i < d ->
         is_tombstone (slot t (probe t k i)) = false))
  \/ (for_insertion = true
      /\ exists j, 0 <= j < d
           /\ is_tombstone (slot t (probe t k j)) = true
           /\ first_tombstone = probe t k j).

(** ** Runs used in the examples *)

(** A world with no error recorded in which every allocation succeeds. *)
Definition world0 : world := {| global_error := KVS_SUCCESS; heap := [] |}.

(** The table [ht_create] builds for a capacity that is not zero. *)
Definition new_table (c : Z) : hash_table_t :=
  {| entries := replicate (Z.to_nat c) zero_entry;
     capacity := c; size := 0; tombstones := 0 |}.

Definition str (s : string) : char_ptr := Str (list_byte_of_string s).

Definition table_of (x : ret * hash_table_t * world) : hash_table_t :=
  snd (fst x).

Definition world_of (x : ret * hash_table_t * world) : world := snd x.

(** ** Byte streams by their structure *)

(** A header with the magic number and the version [kvs_load_from_file]
    expects. *)
Definition valid_header (count : Z) : kvs_file_header_t :=
  {| magic := KVS_MAGIC_NUMBER; version := KVS_FILE_VERSION;
     entry_count := count; reserved := 0 |}.

(** A record that declares the length its value has. *)
Definition record_bytes (r : Z * list byte) : list byte :=
  uint32_bytes (fst r) ++ uint32_bytes (Z.of_nat (length (snd r))) ++ snd r.

Fixpoint records_bytes (rs : list (Z * list byte)) : list byte :=
  match rs with
  | [] => []
  | r :: rs' => record_bytes r ++ records_bytes rs'
  end.

Arguments str s%_string.

(** The table after a run of [ht_set] calls, each in [world0]. *)
Definition set_all (fall : bool) (kvs : list (Z * string)) (t : hash_table_t)
    : hash_table_t :=
  fold_left (fun t kv => table_of (ht_set fall max_depth t (fst kv)
                                          (str (snd kv)) world0))
            kvs t.

(** Keys 100 and 4 share the home slot 1 of a table of 16 slots; deleting
    100 leaves a tombstone in front of 4. *)
Definition tombstone_table : hash_table_t :=
  table_of (ht_delete (set_all true [(100, "one hundred"%string);
                                     (4, "four"%string)] (new_table 16))
                      100 world0).

(** A table of 4 slots, 3 of them taken. *)
Definition three_of_four (fall : bool) : hash_table_t :=
  set_all fall [(1, "a"%string); (2, "b"%string); (3, "c"%string)]
          (new_table 4).

(** ** The contents of a table *)

(** Key [k] is stored, with value [v]. *)
Definition stored (t : hash_table_t) (k : Z) (v : char_ptr) : Prop :=
  exists s, 0 <= s < capacity t
    /\ holds k (slot t s) = true /\ value (slot t s) = v.

(** Key [k] is stored in no slot. *)
Definition absent (t : hash_table_t) (k : Z) : Prop :=
  forall s, 0 <= s < capacity t -> holds k (slot t s) = false.

(** Every stored value is a string that ends at its first NUL: what
    [ht_set] stores. *)
Definition string_values (t : hash_table_t) : Prop :=
  forall s, 0 <= s < capacity t -> is_live (slot t s) = true ->
    exists b, value (slot t s) = Str b /\ c_string b = b.

(** The slots that are not Empty. *)
Definition occupied_slots (t : hash_table_t) : Z :=
  count_slots occupied (entries t).

(** [size + tombstones] has counted every slot that is not Empty. *)
Definition load_covers_slots (t : hash_table_t) : Prop :=
  occupied_slots t <= load t.

(** The contract of one [ht_set] that the loop of [resize_table] relies on. *)
Definition keeps_contents (fall : bool)
    (set : hash_table_t -> Z -> char_ptr -> world -> ret * hash_table_t * world)
    : Prop :=
  forall T k v w r T' w',
    table_inv T -> string_values T ->
    set T k v w = (r, T', w') -> truth fall r = Some true ->
    table_inv T' /\ string_values T'
    /\ (forall k' v', k' <> k -> stored T' k' v' <-> stored T k' v')
    /\ exists b, v = Str b /\ stored T' k (Str (c_string b)).


(** A table as the operations keep it. *)
Definition consistent (t : hash_table_t) : Prop :=
  table_inv t /\ string_values t /\ load_covers_slots t.

(** ** Iteration *)

(** The pairs of the stored entries of an array, in slot order. *)
Fixpoint live_pairs (es : list ht_entry_t) : list (Z * char_ptr) :=
  match es with
  | [] => []
  | e :: es' =>
    if is_live e then (key e, value e) :: live_pairs es' else live_pairs es'
  end.

(** The pairs handed out by [n] calls of [ht_iterator_next], up to the first
    call that returns [false]: the loop
    [while (ht_iterator_next(&iter, &key, &value))] of the callers. *)
Fixpoint iterate (n : nat) (iter : ht_iterator_t) : list (Z * char_ptr) :=
  match n with
  | O => []
  | S n' =>
    match ht_iterator_next iter with
    | (Some p, iter) => p :: iterate n' iter
    | (None, _) => []
    end
  end.

(** The record of the file for a stored pair. *)
Definition pair_record (p : Z * char_ptr) : Z * list byte :=
  (fst p, match snd p with Str b => b | _ => [] end).

(** The values [kvs_save_to_file] can write: strings, each shorter than
    [2 ^ 32] bytes, the range of the [uint32_t] length field. *)
Definition writable (p : Z * char_ptr) : Prop :=
  exists b, snd p = Str b /\ c_string b = b
            /\ Z.of_nat (length b) < 2 ^ 32.

(** ** The [size] counter *)

(** [size], what [ht_size] returns, is the number of keys stored. *)
Definition size_counts (t : hash_table_t) : Prop := size t = live_slots t.

(** ** Tables and records that a file can carry *)

(** Every key stored is an [int]. *)
Definition int_keys (t : hash_table_t) : Prop :=
  forall s, 0 <= s < capacity t -> is_live (slot t s) = true ->
    - 2 ^ 31 <= key (slot t s) < 2 ^ 31.

(** No value is longer than the bound of [kvs_load_from_file]. *)
Definition bounded_values (t : hash_table_t) : Prop :=
  forall s b, 0 <= s < capacity t -> value (slot t s) = Str b ->
    Z.of_nat (length b) <= MAX_VALUE_LEN.

(** A record that [kvs_load_from_file] hands to [ht_set], and [ht_set]
    accepts. *)
Definition loadable (r : Z * list byte) : Prop :=
  - 2 ^ 31 <= fst r < 2 ^ 31 /\ fst r <> DELETED_KEY
  /\ Z.of_nat (length (snd r)) <= MAX_VALUE_LEN.

(** A table in which key 42 has been stored twice. *)
Definition overwritten_table : hash_table_t :=
  set_all true [(42, "hello world"%string); (42, "goodbye world"%string)]
          (new_table 16).

(** The contract of one [ht_set] of a key that is not stored, as the loop of
    [resize_table] relies on it for the counters. *)
Definition counts_new_keys (fall : bool)
    (set : hash_table_t -> Z -> char_ptr -> world -> ret * hash_table_t * world)
    : Prop :=
  forall T k v w r T' w',
    table_inv T -> string_values T -> size_counts T -> absent T k ->
    set T k v w = (r, T', w') -> truth fall r = Some true ->
    size T' = size T + 1 /\ live_slots T' = live_slots T + 1
    /\ 0 <= tombstones T' <= tombstones T
    /\ tombstone_slots T' <= tombstone_slots T.

(** Keys 4, 20 and 36 share the home slot 1 of a table of 16 slots; deleting
    4 and 20 leaves two tombstones in front of 36. *)
Definition two_tombstones_table : hash_table_t :=
  table_of
    (ht_delete
       (table_of
          (ht_delete (set_all true [(4, "a"%string); (20, "b"%string);
                                    (36, "c"%string)] (new_table 16))
                     4 world0))
       20 world0).

(** ** The table as a finite map *)

(** The map from the keys stored to their values. *)
Definition contents (t : hash_table_t) : gmap Z (list byte) :=
  list_to_map (map pair_record (live_pairs (entries t))).

(** ** main.c *)

(** [isspace((unsigned char)c)] in the "C" locale, the one the program runs
    in: space, and the five characters from ['\t'] to ['\r']. *)
Definition isspace (b : byte) : bool :=
  let c := Z_of_byte b in (c =? 32) || ((9 <=? c) && (c <=? 13)).

(** The loop [while (isspace((unsigned char)*str)) str++]: the string from
    the pointer it ends with.  The NUL that ends the string is no space. *)
Fixpoint skip_spaces (s : list byte) : list byte :=
  match s with
  | [] => []
  | b :: s' => if isspace b then skip_spaces s' else s
  end.

(** The loop [while (end > str && isspace((unsigned char)*end)) end--], with
    [end] as an index from [str]. *)
Fixpoint trailing_spaces (str : list byte) (e : nat) : nat :=
  match e with
  | O => O
  | S e' => if isspace (nth e str x00) then trailing_spaces str e' else e
  end.

(** [trim_whitespaces]: the string at the pointer returned, after the NUL
    has been written behind [end]. *)
Definition trim_whitespaces (s : list byte) : list byte :=
  let str := skip_spaces (c_string s) in
  match str with
  | [] => str
  | _ =>
    let e := trailing_spaces str (length str - 1) in
    take (S e) str
  end.

(** * Proofs *)

(** ** Index arithmetic *)

Lemma mod_once (a c : Z) :
  0 <= a < 2 * c -> a mod c = if a <? c then a else a - c.
Proof.
  intros Ha. destruct (a <? c) eqn:E.
  - apply Z.ltb_lt in E. apply Z.mod_small. lia.
  - apply Z.ltb_ge in E. symmetry. apply (Z.mod_unique a c 1); lia.
Qed.

Lemma probe_next (h d c : Z) :
  0 < c -> ((h + d) mod c + 1) mod c = (h + (d + 1)) mod c.
Proof.
  intros Hc. rewrite Z.add_mod_idemp_l by lia. f_equal. lia.
Qed.

Lemma probe_bounds (h d c : Z) : 0 < c -> 0 <= (h + d) mod c < c.
Proof. intros Hc. apply Z.mod_pos_bound. lia. Qed.

Lemma probe_mod (h d c : Z) :
  0 <= h < c -> 0 <= d <= c ->
  (h + d) mod c = if h + d <? c then h + d else h + d - c.
Proof. intros Hh Hd. apply mod_once. lia. Qed.

Lemma probe_wraps (h d c : Z) :
  0 <= h < c -> 0 <= d < c ->
  ((h + (d + 1)) mod c =? h) = (d + 1 =? c).
Proof.
  intros Hh Hd. rewrite probe_mod by lia.
  destruct (h + (d + 1) <? c) eqn:E; [apply Z.ltb_lt in E | apply Z.ltb_ge in E];
    destruct (d + 1 =? c) eqn:E'; [apply Z.eqb_eq in E' | apply Z.eqb_neq in E'
                                  | apply Z.eqb_eq in E' | apply Z.eqb_neq in E'];
    try (apply Z.eqb_eq; lia); try (apply Z.eqb_neq; lia).
Qed.

Lemma probe_inj (h d d' c : Z) :
  0 <= h < c -> 0 <= d < c -> 0 <= d' < c ->
  (h + d) mod c = (h + d') mod c -> d = d'.
Proof.
  intros Hh Hd Hd'. rewrite !probe_mod by lia.
  destruct (h + d <? c) eqn:E; destruct (h + d' <? c) eqn:E';
    try apply Z.ltb_lt in E; try apply Z.ltb_ge in E;
    try apply Z.ltb_lt in E'; try apply Z.ltb_ge in E'; lia.
Qed.

(** Every slot is on the probe sequence of every key. *)
Lemma probe_onto (h s c : Z) :
  0 <= h < c -> 0 <= s < c ->
  exists d, 0 <= d < c /\ (h + d) mod c = s.
Proof.
  intros Hh Hs. exists ((s - h) mod c). split.
  - apply Z.mod_pos_bound. lia.
  - rewrite Z.add_mod_idemp_r by lia.
    replace (h + (s - h)) with s by lia. apply Z.mod_small. lia.
Qed.

(** ** Slots *)

Lemma holds_live k e : holds k e = true -> is_live e = true.
Proof. unfold holds. intros H. apply andb_true_iff in H. tauto. Qed.

Lemma holds_key k e : holds k e = true -> key e = k.
Proof.
  unfold holds. intros H. apply andb_true_iff in H. destruct H as [_ H].
  apply Z.eqb_eq in H. exact H.
Qed.

Lemma holds_intro e : is_live e = true -> holds (key e) e = true.
Proof. unfold holds. intros ->. simpl. apply Z.eqb_refl. Qed.

Lemma live_occupied e : is_live e = true -> occupied e = true.
Proof. unfold is_live. intros H. apply andb_true_iff in H. tauto. Qed.

Lemma live_not_deleted e : is_live e = true -> key e <> DELETED_KEY.
Proof.
  unfold is_live. intros H. apply andb_true_iff in H. destruct H as [_ H].
  apply negb_true_iff, Z.eqb_neq in H. exact H.
Qed.

Lemma tombstone_not_live e : is_tombstone e = true -> is_live e = false.
Proof.
  unfold is_tombstone, is_live. intros H. apply andb_true_iff in H.
  destruct H as [-> ->]. reflexivity.
Qed.

Lemma entry_at_zero_outside es i :
  Z.of_nat (length es) <= i -> entry_at es i = zero_entry.
Proof.
  intros H. unfold entry_at. rewrite (proj2 (lookup_ge_None es (Z.to_nat i))).
  - reflexivity.
  - lia.
Qed.

Lemma entry_at_insert_eq es i e :
  0 <= i < Z.of_nat (length es) ->
  entry_at (<[Z.to_nat i := e]> es) i = e.
Proof.
  intros H. unfold entry_at. rewrite list_lookup_insert_eq by lia. reflexivity.
Qed.

Lemma entry_at_insert_ne es i j e :
  0 <= i -> 0 <= j -> i <> j ->
  entry_at (<[Z.to_nat i := e]> es) j = entry_at es j.
Proof.
  intros Hi Hj Hne. unfold entry_at.
  rewrite list_lookup_insert_ne by lia. reflexivity.
Qed.

Lemma entry_at_replicate n i : entry_at (replicate n zero_entry) i = zero_entry.
Proof.
  unfold entry_at. destruct (replicate n zero_entry !! Z.to_nat i) eqn:E.
  - apply lookup_replicate in E. destruct E as [-> _]. reflexivity.
  - reflexivity.
Qed.

Lemma probe_range t k d : wf_table t -> 0 <= probe t k d < capacity t.
Proof. intros (Hc & _). apply probe_bounds. lia. Qed.

Lemma home_range t k : wf_table t -> 0 <= home t k < capacity t.
Proof. intros (Hc & _). apply Z.mod_pos_bound. lia. Qed.

Lemma probe_not_max t k d : wf_table t -> (probe t k d =? SIZE_MAX) = false.
Proof.
  intros Hwf. pose proof (probe_range t k d Hwf) as Hr.
  destruct Hwf as (Hc & _). apply Z.eqb_neq. unfold SIZE_MAX. lia.
Qed.

Lemma probe_injective t k d d' :
  wf_table t -> 0 <= d < capacity t -> 0 <= d' < capacity t ->
  probe t k d = probe t k d' -> d = d'.
Proof.
  intros Hwf Hd Hd'. pose proof (home_range t k Hwf) as Hh. unfold probe.
  apply probe_inj; assumption.
Qed.

Lemma probe_0 t k : wf_table t -> probe t k 0 = home t k.
Proof.
  intros Hwf. unfold probe. rewrite Z.add_0_r.
  apply Z.mod_small. apply home_range, Hwf.
Qed.

Lemma passed_extend t k d :
  passed t k d ->
  occupied (slot t (probe t k d)) = true ->
  holds k (slot t (probe t k d)) = false ->
  passed t k (d + 1).
Proof.
  intros Hp Ho Hh i Hi. destruct (Z.eq_dec i d) as [-> | Hne].
  - split; assumption.
  - apply Hp. lia.
Qed.

Lemma find_slot_loop_spec t k ins :
  wf_table t ->
  forall fuel d ft,
    0 <= d < capacity t ->
    capacity t - d <= Z.of_nat fuel ->
    passed t k d ->
    first_tombstone_ok t k ins d ft ->
    exists r,
      find_slot_loop fuel (entries t) (capacity t) k ins
                     (home t k) (probe t k d) ft = Some r
      /\ find_slot_post t k ins r.
Proof.
  intros Hwf. pose proof Hwf as (Hc & Hlen & _).
  pose proof (home_range t k Hwf) as Hh.
  induction fuel as [| fuel IH]; intros d ft Hd Hfuel Hpass Hft; [lia |].
  cbn [find_slot_loop]. fold (slot t (probe t k d)).
  assert (Hnext : (probe t k d + 1) mod capacity t = probe t k (d + 1))
    by (apply probe_next; lia).
  rewrite Hnext.
  assert (Hwrap : (probe t k (d + 1) =? home t k) = (d + 1 =? capacity t))
    by (apply probe_wraps; lia).
  rewrite Hwrap.
  destruct (occupied (slot t (probe t k d))) eqn:Hocc; cbn [negb].
  2:{ (* Empty slot *)
    destruct Hft as [[-> Hnone] | [-> (j & Hj & Htomb & ->)]].
    - rewrite Z.eqb_refl, andb_false_r. eexists; split; [reflexivity |].
      exists d. split; [lia |]. split; [exact Hpass |]. right.
      split; [right; split; [lia | exact Hocc] |]. right.
      split; [exact Hnone |].
      destruct (d <? capacity t) eqn:E; [reflexivity | apply Z.ltb_ge in E; lia].
    - rewrite probe_not_max by exact Hwf. cbn.
      eexists; split; [reflexivity |].
      exists d. split; [lia |]. split; [exact Hpass |]. right.
      split; [right; split; [lia | exact Hocc] |]. left.
      split; [reflexivity |]. exists j. auto. }
  (* the loop either goes on at [d + 1] or ends after the full cycle *)
  assert (Hgo : forall ft',
    holds k (slot t (probe t k d)) = false ->
    first_tombstone_ok t k ins (d + 1) ft' ->
    exists r,
      (if negb (d + 1 =? capacity t)
       then find_slot_loop fuel (entries t) (capacity t) k ins
                           (home t k) (probe t k (d + 1)) ft'
       else if ins && negb (ft' =? SIZE_MAX) then Some ft' else Some SIZE_MAX)
      = Some r /\ find_slot_post t k ins r).
  { intros ft' Hnk Hft'.
    pose proof (passed_extend t k d Hpass Hocc Hnk) as Hpass'.
    destruct (d + 1 =? capacity t) eqn:E; cbn [negb].
    - apply Z.eqb_eq in E.
      destruct Hft' as [[-> Hnone] | [-> (j & Hj & Htomb & ->)]].
      + rewrite Z.eqb_refl, andb_false_r. eexists; split; [reflexivity |].
        exists (capacity t). split; [lia |].
        split; [intros i Hi; apply Hpass'; lia |].
        right. split; [left; reflexivity |]. right.
        split; [intros Hi i Hr; apply Hnone; [exact Hi | lia] |].
        rewrite Z.ltb_irrefl. reflexivity.
      + rewrite probe_not_max by exact Hwf. cbn.
        eexists; split; [reflexivity |].
        exists (capacity t). split; [lia |].
        split; [intros i Hi; apply Hpass'; lia |].
        right. split; [left; reflexivity |]. left.
        split; [reflexivity |]. exists j. split; [lia |]. auto.
    - apply Z.eqb_neq in E. apply IH; [lia | lia | exact Hpass' | exact Hft']. }
  destruct (key (slot t (probe t k d)) =? DELETED_KEY) eqn:Hdel.
  - (* Tombstone found *)
    assert (Htomb : is_tombstone (slot t (probe t k d)) = true)
      by (unfold is_tombstone; rewrite Hocc, Hdel; reflexivity).
    assert (Hnk : holds k (slot t (probe t k d)) = false)
      by (unfold holds; rewrite (tombstone_not_live _ Htomb); reflexivity).
    destruct Hft as [[-> Hnone] | [-> (j & Hj & Htj & ->)]].
    + rewrite Z.eqb_refl, andb_true_r. destruct ins.
      * apply Hgo; [exact Hnk |]. right. split; [reflexivity |].
        exists d. split; [lia |]. auto.
      * apply Hgo; [exact Hnk |]. left. split; [reflexivity |]. discriminate.
    + assert (G : first_tombstone_ok t k true (d + 1) (probe t k j)).
      { right. split; [reflexivity |]. exists j. split; [lia |]. auto. }
      apply (Hgo _ Hnk) in G.
      rewrite (probe_not_max t k j Hwf) in G |- *. exact G.
  - assert (Hlive : is_live (slot t (probe t k d)) = true)
      by (unfold is_live; rewrite Hocc, Hdel; reflexivity).
    assert (Hnt : is_tombstone (slot t (probe t k d)) = false)
      by (unfold is_tombstone; rewrite Hocc, Hdel; reflexivity).
    destruct (key (slot t (probe t k d)) =? k) eqn:Hk.
    + (* Key found *)
      eexists; split; [reflexivity |].
      exists d. split; [lia |]. split; [exact Hpass |]. left.
      split; [lia |]. split; [| reflexivity].
      unfold holds. rewrite Hlive, Hk. reflexivity.
    + apply Hgo.
      * unfold holds. rewrite Hk. apply andb_false_r.
      * destruct Hft as [[-> Hnone] | [-> (j & Hj & Htj & ->)]].
        -- left. split; [reflexivity |]. intros Hi i Hr.
           destruct (Z.eq_dec i d) as [-> | Hne]; [exact Hnt |].
           apply Hnone; [exact Hi | lia].
        -- right. split; [reflexivity |]. exists j. split; [lia |]. auto.
Qed.

Lemma passed_nothing t k : passed t k 0.
Proof. intros i Hi. lia. Qed.

Lemma first_tombstone_initially t k ins : first_tombstone_ok t k ins 0 SIZE_MAX.
Proof. left. split; [reflexivity |]. intros _ i Hi. lia. Qed.

(** The loop of [find_slot] ends within [capacity] passes. *)
Lemma find_slot_loop_terminates t k ins :
  wf_table t ->
  exists r,
    find_slot_loop (Z.to_nat (capacity t)) (entries t) (capacity t) k ins
                   (home t k) (home t k) SIZE_MAX = Some r.
Proof.
  intros Hwf. pose proof Hwf as (Hc & _).
  destruct (find_slot_loop_spec t k ins Hwf (Z.to_nat (capacity t)) 0 SIZE_MAX)
    as (r & Hr & _).
  - lia.
  - lia.
  - apply passed_nothing.
  - apply first_tombstone_initially.
  - exists r. rewrite probe_0 in Hr by exact Hwf. exact Hr.
Qed.

Lemma find_slot_spec t k ins :
  wf_table t -> find_slot_post t k ins (find_slot t k ins).
Proof.
  intros Hwf. pose proof Hwf as (Hc & _).
  destruct (find_slot_loop_spec t k ins Hwf (Z.to_nat (capacity t)) 0 SIZE_MAX)
    as (r & Hr & Hpost).
  - lia.
  - lia.
  - apply passed_nothing.
  - apply first_tombstone_initially.
  - rewrite probe_0 in Hr by exact Hwf. unfold find_slot.
    destruct (capacity t =? 0) eqn:E; [apply Z.eqb_eq in E; lia |].
    fold (home t k). rewrite Hr. exact Hpost.
Qed.

(** The answer of [find_slot] is a slot of the array or [SIZE_MAX]. *)
Lemma find_slot_range t k ins :
  wf_table t ->
  find_slot t k ins = SIZE_MAX \/ 0 <= find_slot t k ins < capacity t.
Proof.
  intros Hwf. destruct (find_slot_spec t k ins Hwf) as (e & He & _ & Hcase).
  destruct Hcase as [(_ & _ & ->) | (_ & [(_ & j & _ & _ & ->) | (_ & ->)])].
  - right. apply probe_range, Hwf.
  - right. apply probe_range, Hwf.
  - destruct (e <? capacity t); [right; apply probe_range, Hwf | left; reflexivity].
Qed.

(** A key whose slot is reached from its home through occupied slots that do
    not hold it is found there, whatever the search is for. *)
Lemma find_slot_found t k ins d :
  wf_table t -> 0 <= d < capacity t ->
  passed t k d -> holds k (slot t (probe t k d)) = true ->
  find_slot t k ins = probe t k d.
Proof.
  intros Hwf Hd Hpass Hk.
  destruct (find_slot_spec t k ins Hwf) as (e & He & Hpe & Hcase).
  assert (Hocc : occupied (slot t (probe t k d)) = true)
    by (apply live_occupied, (holds_live k), Hk).
  assert (e = d) as ->.
  { destruct (Z.lt_trichotomy e d) as [Hlt | [Heq | Hgt]]; [| exact Heq |].
    - destruct (Hpass e) as [Ho Hn]; [lia |].
      destruct Hcase as [(_ & Hh & _) | ([-> | (_ & Hemp)] & _)];
        [congruence | lia | congruence].
    - destruct (Hpe d) as [_ Hn]; [lia | congruence]. }
  destruct Hcase as [(_ & _ & ->) | ([-> | (_ & Hemp)] & _)];
    [reflexivity | lia | congruence].
Qed.

(** Under the reachability invariant a scan that ends at an Empty slot or
    after the full cycle has seen every slot that could hold the key. *)
Lemma key_absent t k e :
  wf_table t -> reachable_keys t ->
  0 <= e <= capacity t -> passed t k e ->
  e = capacity t \/ (e < capacity t /\ occupied (slot t (probe t k e)) = false) ->
  forall s, 0 <= s < capacity t -> holds k (slot t s) = false.
Proof.
  intros Hwf Hreach He Hpass Hend s Hs.
  destruct (holds k (slot t s)) eqn:Hk; [exfalso | reflexivity].
  destruct (Hreach s Hs (holds_live _ _ Hk)) as (d & Hd & Hps & Hocc).
  rewrite (holds_key _ _ Hk) in Hps, Hocc.
  destruct (Z.lt_trichotomy d e) as [Hlt | [Heq | Hgt]].
  - destruct (Hpass d) as [_ Hn]; [lia |]. rewrite Hps in Hn. congruence.
  - subst d. destruct Hend as [-> | (_ & Hemp)]; [lia |].
    rewrite Hps in Hemp.
    pose proof (live_occupied _ (holds_live _ _ Hk)). congruence.
  - destruct Hend as [-> | (_ & Hemp)]; [lia |].
    rewrite (Hocc e) in Hemp; [discriminate | lia].
Qed.

(** Where an insertion lands: on the slot holding the key, or, when the key
    is stored nowhere on its probe sequence, on a slot that is free. *)
Lemma find_slot_insertion t k :
  wf_table t ->
  find_slot t k true = SIZE_MAX
  \/ exists j, 0 <= j < capacity t
       /\ find_slot t k true = probe t k j
       /\ passed t k j
       /\ (holds k (slot t (probe t k j)) = true
           \/ (is_live (slot t (probe t k j)) = false
               /\ exists e, j <= e <= capacity t /\ passed t k e
                    /\ (e = capacity t
                        \/ (e < capacity t
                            /\ occupied (slot t (probe t k e)) = false)))).
Proof.
  intros Hwf. destruct (find_slot_spec t k true Hwf) as (e & He & Hpe & Hcase).
  destruct Hcase as [(Hlt & Hk & ->) | (Hend & [(_ & j & Hj & Htomb & ->) | (_ & ->)])].
  - right. exists e. split; [lia |]. split; [reflexivity |]. split; [exact Hpe |].
    left. exact Hk.
  - right. exists j. split; [lia |]. split; [reflexivity |].
    split; [intros i Hi; apply Hpe; lia |]. right.
    split; [apply tombstone_not_live, Htomb |].
    exists e. split; [lia |]. split; [exact Hpe | exact Hend].
  - destruct Hend as [-> | (Hlt & Hemp)].
    + rewrite Z.ltb_irrefl. left. reflexivity.
    + right. exists e. rewrite (proj2 (Z.ltb_lt _ _) Hlt).
      split; [lia |]. split; [reflexivity |]. split; [exact Hpe |]. right.
      split; [unfold is_live; rewrite Hemp; reflexivity |].
      exists e. split; [lia |]. split; [exact Hpe |]. right. auto.
Qed.

Lemma probe_capacity t t' k d :
  capacity t' = capacity t -> probe t' k d = probe t k d.
Proof. intros H. unfold probe, home. rewrite H. reflexivity. Qed.

Lemma size_t_range z : 0 <= size_t z < 2 ^ 64.
Proof. apply Z.mod_pos_bound. lia. Qed.

Lemma malloc_error w : global_error (snd (malloc w)) = global_error w.
Proof. unfold malloc. destruct (heap w); reflexivity. Qed.

(** What [ht_set_place] has done when it reaches the closing brace. *)
Lemma ht_set_place_stored t k v w t' w' :
  ht_set_place t k v w = (NoReturn, t', w') ->
  exists s,
    v = Str s
    /\ find_slot t k true <> SIZE_MAX
    /\ malloc w = (true, w')
    /\ entries t' =
         <[Z.to_nat (find_slot t k true) :=
             {| key := k; value := Str (c_string s); occupied := true |}]>
           (entries t)
    /\ capacity t' = capacity t
    /\ size t' = size_t (size t + 1)
    /\ tombstones t' =
         if holds k (slot t (find_slot t k true))
         then size_t (tombstones t - 1) else tombstones t.
Proof.
  unfold ht_set_place.
  destruct (find_slot t k true =? SIZE_MAX) eqn:E; [discriminate |].
  apply Z.eqb_neq in E. destruct v as [| s |]; try discriminate.
  destruct (malloc w) as [got w1] eqn:Hm. destruct got; cbn [negb]; [| discriminate].
  intros H. injection H as <- <-. exists s. cbn.
  repeat split; try assumption.
  unfold holds, is_live, slot.
  destruct (occupied (entry_at (entries t) (find_slot t k true)));
    destruct (key (entry_at (entries t) (find_slot t k true)) =? k);
    destruct (key (entry_at (entries t) (find_slot t k true)) =? DELETED_KEY);
    reflexivity.
Qed.

(** [ht_set_place] never executes [return true]. *)
Lemma ht_set_place_not_true t k v w t' w' :
  ht_set_place t k v w <> (Return true, t', w').
Proof.
  unfold ht_set_place.
  destruct (find_slot t k true =? SIZE_MAX); [discriminate |].
  destruct v; try discriminate.
  destruct (malloc w) as [[] ?]; discriminate.
Qed.

(** One slot of the array is overwritten. *)
Lemma slot_placed t t' r e :
  wf_table t -> 0 <= r < capacity t ->
  entries t' = <[Z.to_nat r := e]> (entries t) ->
  slot t' r = e.
Proof.
  intros (_ & Hlen & _) Hr Hent. unfold slot. rewrite Hent.
  apply entry_at_insert_eq. lia.
Qed.

Lemma slot_kept t t' r e i :
  0 <= r ->
  entries t' = <[Z.to_nat r := e]> (entries t) ->
  0 <= i -> i <> r -> slot t' i = slot t i.
Proof.
  intros Hr Hent Hi Hne. unfold slot. rewrite Hent.
  apply entry_at_insert_ne; lia.
Qed.

(** Changing one slot into an occupied one keeps occupied slots occupied. *)
Lemma occupied_kept t t' r e i :
  wf_table t -> 0 <= r < capacity t ->
  entries t' = <[Z.to_nat r := e]> (entries t) ->
  0 <= i -> occupied e = true ->
  occupied (slot t i) = true -> occupied (slot t' i) = true.
Proof.
  intros Hwf Hr Hent Hi He Ho. destruct (Z.eq_dec i r) as [-> | Hne].
  - rewrite (slot_placed t t' r e) by assumption. exact He.
  - rewrite (slot_kept t t' r e) by (assumption || lia). exact Ho.
Qed.

(** Writing an occupied entry over slot [r] keeps every other stored key
    reachable. *)
Lemma reachable_elsewhere t t' r e :
  wf_table t -> 0 <= r < capacity t ->
  entries t' = <[Z.to_nat r := e]> (entries t) ->
  capacity t' = capacity t ->
  occupied e = true ->
  reachable_keys t ->
  forall s, 0 <= s < capacity t' -> s <> r -> is_live (slot t' s) = true ->
    exists d, 0 <= d < capacity t'
      /\ probe t' (key (slot t' s)) d = s
      /\ forall i, 0 <= i < d ->
           occupied (slot t' (probe t' (key (slot t' s)) i)) = true.
Proof.
  intros Hwf Hr Hent Hcap He Hreach s Hs Hne Hlive.
  rewrite (slot_kept t t' r e s) in * by (assumption || lia).
  rewrite Hcap in *.
  destruct (Hreach s Hs Hlive) as (d & Hd & Hps & Hocc).
  exists d. split; [exact Hd |]. rewrite (probe_capacity t t') by exact Hcap.
  split; [exact Hps |]. intros i Hi.
  rewrite (probe_capacity t t') by exact Hcap.
  apply (occupied_kept t t' r e); [assumption .. | | exact He | apply Hocc, Hi].
  apply probe_range, Hwf.
Qed.

(** [ht_set] on a table that satisfies the invariant: the slot written is on
    the probe sequence of the key, behind occupied slots, and the key is
    stored nowhere else. *)
Lemma table_inv_put t t' k j v :
  table_inv t ->
  k <> DELETED_KEY ->
  0 <= j < capacity t ->
  passed t k j ->
  holds k (slot t (probe t k j)) = true
  \/ (forall s, 0 <= s < capacity t -> holds k (slot t s) = false) ->
  entries t' =
    <[Z.to_nat (probe t k j) := {| key := k; value := v; occupied := true |}]>
      (entries t) ->
  capacity t' = capacity t ->
  0 <= size t' < 2 ^ 64 -> 0 <= tombstones t' < 2 ^ 64 ->
  table_inv t'.
Proof.
  intros (Hwf & Hreach & Huniq) Hk Hj Hpass Hold Hent Hcap Hsz Htb.
  pose proof (probe_range t k j Hwf) as Hr.
  set (r := probe t k j) in *.
  set (e := {| key := k; value := v; occupied := true |}) in *.
  assert (Hslot : slot t' r = e) by (apply (slot_placed t t' r e); assumption).
  assert (Hkept : forall i, 0 <= i -> i <> r -> slot t' i = slot t i)
    by (intros; apply (slot_kept t t' r e); assumption || lia).
  assert (Hwf' : wf_table t').
  { destruct Hwf as (Hc & Hlen & _). repeat split; try lia.
    rewrite Hent, length_insert. lia. }
  assert (Hlive_e : is_live e = true).
  { unfold is_live, e. cbn. apply negb_true_iff, Z.eqb_neq, Hk. }
  split; [exact Hwf' |]. split.
  - intros s Hs Hlive. destruct (Z.eq_dec s r) as [-> | Hne].
    + rewrite Hslot. cbn [key e]. exists j. rewrite Hcap.
      split; [exact Hj |]. rewrite (probe_capacity t t') by exact Hcap.
      split; [reflexivity |]. intros i Hi.
      rewrite (probe_capacity t t') by exact Hcap.
      apply (occupied_kept t t' r e); [assumption .. | | reflexivity |].
      * apply probe_range, Hwf.
      * apply Hpass, Hi.
    + apply (reachable_elsewhere t t' r e); try assumption. reflexivity.
  - assert (Hother : forall s, 0 <= s < capacity t -> s <> r ->
              is_live (slot t s) = true -> key (slot t s) = k -> False).
    { intros s Hs Hne Hlive Hkey.
      assert (Hh : holds k (slot t s) = true)
        by (unfold holds; rewrite Hlive, Hkey, Z.eqb_refl; reflexivity).
      destruct Hold as [Hthere | Habs].
      - apply Hne. apply Huniq; try assumption.
        + apply (holds_live k), Hthere.
        + rewrite Hkey. symmetry. apply holds_key, Hthere.
      - rewrite Habs in Hh by exact Hs. discriminate. }
    intros s s' Hs Hs' Hl Hl' Hkeys. rewrite Hcap in Hs, Hs'.
    destruct (Z.eq_dec s r) as [-> | Hne]; destruct (Z.eq_dec s' r) as [-> | Hne'].
    + reflexivity.
    + exfalso. rewrite Hslot in Hkeys. rewrite Hkept in Hl', Hkeys by lia.
      apply (Hother s'); auto.
    + exfalso. rewrite Hslot in Hkeys. rewrite Hkept in Hl, Hkeys by lia.
      apply (Hother s); auto.
    + rewrite Hkept in Hl by lia. rewrite Hkept in Hl' by lia.
      rewrite !Hkept in Hkeys by lia. apply Huniq; assumption.
Qed.

(** [ht_delete]: a stored key gives way to a tombstone. *)
Lemma table_inv_tombstone t t' r :
  table_inv t ->
  0 <= r < capacity t ->
  occupied (slot t r) = true ->
  entries t' =
    <[Z.to_nat r := {| key := DELETED_KEY; value := NULL; occupied := true |}]>
      (entries t) ->
  capacity t' = capacity t ->
  0 <= size t' < 2 ^ 64 -> 0 <= tombstones t' < 2 ^ 64 ->
  table_inv t'
  /\ forall s, 0 <= s < capacity t' ->
       is_live (slot t' s) = true -> s <> r /\ slot t' s = slot t s.
Proof.
  intros (Hwf & Hreach & Huniq) Hr Hocc Hent Hcap Hsz Htb.
  set (e := {| key := DELETED_KEY; value := NULL; occupied := true |}) in *.
  assert (Hslot : slot t' r = e) by (apply (slot_placed t t' r e); assumption).
  assert (Hkept : forall i, 0 <= i -> i <> r -> slot t' i = slot t i)
    by (intros; apply (slot_kept t t' r e); assumption || lia).
  assert (Hwf' : wf_table t').
  { destruct Hwf as (Hc & Hlen & _). repeat split; try lia.
    rewrite Hent, length_insert. lia. }
  assert (Hnot : forall s, 0 <= s < capacity t' ->
            is_live (slot t' s) = true -> s <> r /\ slot t' s = slot t s).
  { intros s Hs Hl. destruct (Z.eq_dec s r) as [-> | Hne].
    - rewrite Hslot in Hl. discriminate.
    - split; [exact Hne | apply Hkept; lia]. }
  split; [| exact Hnot]. split; [exact Hwf' |]. split.
  - intros s Hs Hlive. destruct (Hnot s Hs Hlive) as [Hne _].
    apply (reachable_elsewhere t t' r e); try assumption. reflexivity.
  - intros s s' Hs Hs' Hl Hl' Hkeys.
    destruct (Hnot s Hs Hl) as [_ E]. destruct (Hnot s' Hs' Hl') as [_ E'].
    rewrite E in Hl, Hkeys. rewrite E' in Hl', Hkeys. rewrite Hcap in Hs, Hs'.
    apply Huniq; assumption.
Qed.

Lemma ht_set_place_wf t k v w t' w' :
  wf_table t -> ht_set_place t k v w = (NoReturn, t', w') -> wf_table t'.
Proof.
  intros Hwf H. pose proof Hwf as (Hc & Hlen & Hsz & Htb).
  apply ht_set_place_stored in H.
  destruct H as (s & _ & _ & _ & Hent & Hcap & Hsize & Htomb).
  unfold wf_table. rewrite Hcap, Hent, length_insert, Hsize, Htomb.
  repeat split; try lia; try apply size_t_range.
  - destruct (holds _ _); [apply size_t_range | lia].
  - destruct (holds _ _); [apply size_t_range | lia].
Qed.

Lemma ht_set_place_inv t k v w t' w' :
  table_inv t -> k <> DELETED_KEY ->
  ht_set_place t k v w = (NoReturn, t', w') -> table_inv t'.
Proof.
  intros Hinv Hk H. pose proof Hinv as (Hwf & Hreach & Huniq).
  pose proof (ht_set_place_wf _ _ _ _ _ _ Hwf H) as (_ & _ & Hsz & Htb).
  apply ht_set_place_stored in H.
  destruct H as (s & _ & Hfound & _ & Hent & Hcap & _ & _).
  destruct (find_slot_insertion t k Hwf) as [Hmax | (j & Hj & Hr & Hpass & Hcase)];
    [congruence |].
  rewrite Hr in Hent.
  apply (table_inv_put t t' k j (Str (c_string s))); try assumption.
  destruct Hcase as [Hthere | (_ & e & He & Hpe & Hend)]; [left; exact Hthere |].
  right. apply (key_absent t k e); try assumption. lia.
Qed.

(** [get] after [set]: the value stored is found again. *)
Lemma ht_get_after_place t k s w t' w' :
  wf_table t -> k <> DELETED_KEY ->
  ht_set_place t k (Str s) w = (NoReturn, t', w') ->
  forall w'', ht_get t' k w'' = (Str (c_string s), kvs_clear_error w'').
Proof.
  intros Hwf Hk H w''.
  pose proof (ht_set_place_wf _ _ _ _ _ _ Hwf H) as Hwf'.
  apply ht_set_place_stored in H.
  destruct H as (s' & [= <-] & Hfound & _ & Hent & Hcap & _ & _).
  destruct (find_slot_insertion t k Hwf) as [Hmax | (j & Hj & Hr & Hpass & _)];
    [congruence |].
  rewrite Hr in Hent. pose proof (probe_range t k j Hwf) as Hrange.
  assert (Hslot : slot t' (probe t k j)
                  = {| key := k; value := Str (c_string s); occupied := true |})
    by (apply (slot_placed t t' _ _ Hwf Hrange Hent)).
  assert (Hfind : find_slot t' k false = probe t k j).
  { rewrite <- (probe_capacity t t' k j Hcap).
    apply find_slot_found; [exact Hwf' | lia | |].
    - intros i Hi. rewrite (probe_capacity t t') by exact Hcap.
      rewrite (slot_kept t t' (probe t k j) _ (probe t k i) (proj1 Hrange) Hent).
      + apply Hpass, Hi.
      + apply probe_range, Hwf.
      + intros E. apply (probe_injective t k i j Hwf) in E; lia.
    - rewrite (probe_capacity t t') by exact Hcap. rewrite Hslot.
      unfold holds, is_live. cbn. rewrite Z.eqb_refl.
      rewrite (proj2 (Z.eqb_neq _ _) Hk). reflexivity. }
  unfold ht_get. rewrite (proj2 (Z.eqb_neq _ _) Hk), Hfind.
  rewrite <- (probe_capacity t t' k j Hcap), probe_not_max by exact Hwf'.
  rewrite (probe_capacity t t' k j Hcap). fold (slot t' (probe t k j)).
  rewrite Hslot. cbn. rewrite Z.eqb_refl, (proj2 (Z.eqb_neq _ _) Hk).
  reflexivity.
Qed.

(** A stored key behind occupied slots is what [ht_get] returns. *)
Lemma ht_get_found t k d w :
  wf_table t -> 0 <= d < capacity t ->
  passed t k d -> holds k (slot t (probe t k d)) = true ->
  ht_get t k w = (value (slot t (probe t k d)), kvs_clear_error w).
Proof.
  intros Hwf Hd Hpass Hk.
  pose proof (find_slot_found t k false d Hwf Hd Hpass Hk) as Hfind.
  pose proof (holds_live _ _ Hk) as Hlive.
  pose proof (live_not_deleted _ Hlive) as Hnd.
  pose proof (holds_key _ _ Hk) as Hkey.
  unfold ht_get. rewrite Hfind, probe_not_max by exact Hwf.
  fold (slot t (probe t k d)).
  rewrite (live_occupied _ Hlive), Hkey, Z.eqb_refl.
  rewrite Hkey in Hnd. rewrite (proj2 (Z.eqb_neq _ _) Hnd). reflexivity.
Qed.

(** A key stored in no slot is reported as not found, by [ht_get] and by
    [ht_delete]. *)
Lemma ht_get_absent t k w :
  wf_table t -> k <> DELETED_KEY ->
  (forall s, 0 <= s < capacity t -> holds k (slot t s) = false) ->
  ht_get t k w = (NULL, kvs_set_error KVS_ERROR_KEY_NOT_FOUND w)
  /\ ht_delete t k w = (Return false, t, kvs_set_error KVS_ERROR_KEY_NOT_FOUND w).
Proof.
  intros Hwf Hk Habs. unfold ht_get, ht_delete.
  rewrite (proj2 (Z.eqb_neq _ _) Hk).
  destruct (find_slot t k false =? SIZE_MAX) eqn:E; [split; reflexivity |].
  apply Z.eqb_neq in E.
  destruct (find_slot_range t k false Hwf) as [Hmax | Hr]; [congruence |].
  specialize (Habs _ Hr). unfold holds, is_live, slot in Habs.
  destruct (occupied (entry_at (entries t) (find_slot t k false)));
    destruct (key (entry_at (entries t) (find_slot t k false)) =? k);
    destruct (key (entry_at (entries t) (find_slot t k false)) =? DELETED_KEY);
    try discriminate; split; reflexivity.
Qed.

(** What [ht_delete] has done when it returns [true]. *)
Lemma ht_delete_done t k w t' w' :
  ht_delete t k w = (Return true, t', w') ->
  k <> DELETED_KEY
  /\ find_slot t k false <> SIZE_MAX
  /\ holds k (slot t (find_slot t k false)) = true
  /\ entries t' =
       <[Z.to_nat (find_slot t k false) :=
           {| key := DELETED_KEY; value := NULL; occupied := true |}]>
         (entries t)
  /\ capacity t' = capacity t
  /\ size t' = size_t (size t - 1)
  /\ tombstones t' = size_t (tombstones t + 1)
  /\ w' = kvs_clear_error w.
Proof.
  unfold ht_delete. destruct (k =? DELETED_KEY) eqn:Hk; [discriminate |].
  destruct (find_slot t k false =? SIZE_MAX) eqn:E; [discriminate |].
  fold (slot t (find_slot t k false)). unfold holds, is_live.
  destruct (occupied (slot t (find_slot t k false))); [| discriminate].
  destruct (key (slot t (find_slot t k false)) =? k); [| discriminate].
  destruct (key (slot t (find_slot t k false)) =? DELETED_KEY); [discriminate |].
  cbn. apply Z.eqb_neq in Hk, E.
  destruct (value (slot t (find_slot t k false))); intros [= <- <-]; cbn; auto 10.
Qed.

Lemma ht_delete_inv t k w t' w' :
  table_inv t -> ht_delete t k w = (Return true, t', w') ->
  table_inv t'
  /\ forall s, 0 <= s < capacity t' -> holds k (slot t' s) = false.
Proof.
  intros Hinv H. pose proof Hinv as (Hwf & Hreach & Huniq).
  apply ht_delete_done in H.
  destruct H as (Hk & Hfound & Hthere & Hent & Hcap & Hsz & Htb & _).
  destruct (find_slot_range t k false Hwf) as [Hmax | Hr]; [congruence |].
  destruct (table_inv_tombstone t t' (find_slot t k false)) as [Hinv' Hlive];
    try assumption.
  - apply live_occupied, (holds_live k), Hthere.
  - rewrite Hsz. apply size_t_range.
  - rewrite Htb. apply size_t_range.
  - split; [exact Hinv' |]. intros s Hs.
    destruct (holds k (slot t' s)) eqn:Hh; [exfalso | reflexivity].
    destruct (Hlive s Hs (holds_live _ _ Hh)) as [Hne Heq].
    rewrite Heq in Hh. apply Hne. rewrite Hcap in Hs.
    apply Huniq; try assumption.
    + apply (holds_live k), Hh.
    + apply (holds_live k), Hthere.
    + rewrite (holds_key _ _ Hh), (holds_key _ _ Hthere). reflexivity.
Qed.

(** A zeroed array: what [ht_create] and [resize_table] start from. *)
Lemma empty_table_inv c sz tb :
  0 < c < 2 ^ 64 -> 0 <= sz < 2 ^ 64 -> 0 <= tb < 2 ^ 64 ->
  table_inv {| entries := replicate (Z.to_nat c) zero_entry;
               capacity := c; size := sz; tombstones := tb |}.
Proof.
  intros Hc Hsz Htb. split; [| split].
  - unfold wf_table. cbn. rewrite length_replicate. lia.
  - intros s _ Hlive. unfold slot in Hlive. cbn in Hlive.
    rewrite entry_at_replicate in Hlive. discriminate.
  - intros s s' _ _ Hlive. unfold slot in Hlive. cbn in Hlive.
    rewrite entry_at_replicate in Hlive. discriminate.
Qed.

Lemma ht_create_inv c w t w' :
  0 <= c < 2 ^ 64 -> ht_create c w = (Some t, w') ->
  table_inv t /\ size t = 0 /\ tombstones t = 0
  /\ capacity t = (if c =? 0 then DEFAULT_CAPACITY else c).
Proof.
  intros Hc. unfold ht_create.
  destruct (malloc w) as [[] w1]; cbn [negb]; [| discriminate].
  destruct (malloc w1) as [[] w2]; cbn [negb]; [| discriminate].
  intros [= <- <-]. cbn. split; [| auto].
  apply empty_table_inv; try lia.
  destruct (c =? 0) eqn:E; [unfold DEFAULT_CAPACITY; lia |].
  apply Z.eqb_neq in E. lia.
Qed.

Section Resize.
Variable fall : bool.
Variable set :
  hash_table_t -> Z -> char_ptr -> world -> ret * hash_table_t * world.
Variable good : hash_table_t -> Prop.
Hypothesis set_good :
  forall T k v w r T' w',
    good T -> k <> DELETED_KEY -> set T k v w = (r, T', w') ->
    truth fall r = Some true -> good T'.

(** A property that every re-insertion keeps holds of the table that
    [resize_table] has rebuilt. *)
Lemma resize_loop_good n :
  forall i old oc T w T' w',
    good T ->
    resize_loop fall set n i old oc T w = (Return true, T', w') ->
    good T'.
Proof.
  induction n as [| n IH]; intros i old oc T w T' w' HT H.
  - cbn in H. injection H as <- <-. exact HT.
  - cbn [resize_loop] in H.
    destruct (occupied (entry_at old i)
              && negb (key (entry_at old i) =? DELETED_KEY)) eqn:Hmove.
    + apply andb_true_iff in Hmove. destruct Hmove as [_ Hk].
      apply negb_true_iff, Z.eqb_neq in Hk.
      destruct (set T (key (entry_at old i)) (value (entry_at old i)) w)
        as [[r T1] w1] eqn:Hset.
      destruct (truth fall r) as [[] |] eqn:Hr; try discriminate.
      apply (IH _ _ _ _ _ _ _ (set_good _ _ _ _ _ _ _ HT Hk Hset Hr) H).
    + apply (IH _ _ _ _ _ _ _ HT H).
Qed.
End Resize.

Lemma resize_table_with_true fall set t c w t' w' :
  resize_table_with fall set t c w = (Return true, t', w') ->
  capacity t < c
  /\ exists w1,
       resize_loop fall set (Z.to_nat (capacity t)) 0 (entries t) (capacity t)
                   {| entries := replicate (Z.to_nat c) zero_entry;
                      capacity := c; size := 0; tombstones := 0 |} w1
       = (Return true, t', w').
Proof.
  unfold resize_table_with. destruct (c <=? capacity t) eqn:E; [discriminate |].
  apply Z.leb_gt in E. destruct (malloc w) as [[] w1]; cbn [negb]; [| discriminate].
  intros H. split; [exact E |]. exists w1. exact H.
Qed.

(** [ht_set] never executes [return true]: it has no such statement. *)
Lemma ht_set_not_true fall depth t k v w t' w' :
  ht_set fall depth t k v w <> (Return true, t', w').
Proof.
  destruct depth; cbn [ht_set]; destruct v; try discriminate;
    destruct (k =? DELETED_KEY); try discriminate;
    destruct (load_factor_reached t); try discriminate;
    try apply ht_set_place_not_true.
  - destruct (resize_table_with _ _ _ _ _) as [[[[] | |] t1] w1];
      try discriminate; apply ht_set_place_not_true.
  - destruct (resize_table_with _ _ _ _ _) as [[[[] | |] t1] w1];
      try discriminate; apply ht_set_place_not_true.
Qed.

Lemma truth_ht_set fall depth t k v w r t' w' :
  ht_set fall depth t k v w = (r, t', w') ->
  truth fall r = Some true -> r = NoReturn.
Proof.
  intros H Hr. destruct r as [[] | |]; try discriminate.
  - exfalso. apply (ht_set_not_true _ _ _ _ _ _ _ _ H).
  - reflexivity.
Qed.

(** The shape of a run of [ht_set] that stores the entry: the table is
    enlarged first when the load factor asks for it, and the entry is then
    placed. *)
Lemma ht_set_stores fall depth t k v w t' w' :
  ht_set fall depth t k v w = (NoReturn, t', w') ->
  k <> DELETED_KEY
  /\ exists t1 w1,
       ht_set_place t1 k v w1 = (NoReturn, t', w')
       /\ ((load_factor_reached t = false /\ t1 = t /\ w1 = w)
           \/ (load_factor_reached t = true
               /\ exists depth', depth = S depth'
                    /\ resize_table fall depth' t
                                    (size_t (capacity t * GROWTH_FACTOR)) w
                       = (Return true, t1, w1))).
Proof.
  intros H.
  assert (Hv : v <> NULL) by (intros ->; destruct depth; discriminate).
  assert (H' : (if k =? DELETED_KEY
                then (Return false, t, kvs_set_error KVS_ERROR_INVALID_PARAM w)
                else if load_factor_reached t then
                  match depth with
                  | O => (Stuck, t, w)
                  | S depth' =>
                    let '(r, table, w) :=
                      resize_table_with fall (ht_set fall depth') t
                        (size_t (capacity t * GROWTH_FACTOR)) w in
                    match r with
                    | Return true => ht_set_place table k v w
                    | Return false => (Return false, table, w)
                    | _ => (Stuck, table, w)
                    end
                  end
                else ht_set_place t k v w) = (NoReturn, t', w')).
  { destruct depth, v; try congruence; exact H. }
  clear H. destruct (k =? DELETED_KEY) eqn:Hk; [discriminate |].
  apply Z.eqb_neq in Hk. split; [exact Hk |].
  destruct (load_factor_reached t) eqn:Hload.
  - destruct depth as [| depth']; [discriminate |].
    destruct (resize_table_with _ _ _ _ _) as [[r t1] w1] eqn:Hres.
    destruct r as [[] | |]; try discriminate.
    exists t1, w1. split; [exact H' |]. right. split; [reflexivity |].
    exists depth'. split; [reflexivity | exact Hres].
  - exists t, w. split; [exact H' |]. left. auto.
Qed.

(** Every run of [ht_set] that stores the entry keeps the invariant. *)
Lemma ht_set_inv fall depth :
  forall t k v w t' w',
    table_inv t -> ht_set fall depth t k v w = (NoReturn, t', w') ->
    table_inv t'.
Proof.
  induction depth as [| depth IH]; intros t k v w t' w' Hinv H;
    apply ht_set_stores in H;
    destruct H as (Hk & t1 & w1 & Hplace & [(_ & -> & ->) | (_ & d & Hd & Hres)]);
    try discriminate;
    try (apply (ht_set_place_inv _ _ _ _ _ _ Hinv Hk Hplace)).
  injection Hd as <-.
  apply resize_table_with_true in Hres. destruct Hres as (Hgrow & w2 & Hloop).
  refine (ht_set_place_inv _ _ _ _ _ _ _ Hk Hplace).
  apply (resize_loop_good fall (ht_set fall depth) table_inv) in Hloop.
  - exact Hloop.
  - intros T k0 v0 w0 r T' w0' HT _ Hset Hr.
    rewrite (truth_ht_set _ _ _ _ _ _ _ _ _ Hset Hr) in Hset.
    apply (IH _ _ _ _ _ _ HT Hset).
  - destruct Hinv as ((Hc & _) & _).
    apply empty_table_inv; try lia.
    pose proof (size_t_range (capacity t * GROWTH_FACTOR)). lia.
Qed.

Lemma load_range t : 0 <= load t < 2 ^ 64.
Proof. apply size_t_range. Qed.

Lemma size_t_small z : 0 <= z < 2 ^ 64 -> size_t z = z.
Proof. intros H. apply Z.mod_small. exact H. Qed.

Lemma size_t_le z : 0 <= z -> size_t z <= z.
Proof. intros H. apply Z.mod_le; lia. Qed.

(** Placing an entry adds one to [size + tombstones], except on the slot
    that holds the key already, where the two updates cancel. *)
Lemma load_after_place t k v w t' w' :
  ht_set_place t k v w = (NoReturn, t', w') ->
  load t' = if holds k (slot t (find_slot t k true))
            then load t else size_t (load t + 1).
Proof.
  intros H. apply ht_set_place_stored in H.
  destruct H as (s & _ & _ & _ & _ & _ & Hsz & Htb).
  unfold load, size_t in *. rewrite Hsz, Htb.
  destruct (holds k (slot t (find_slot t k true))).
  - rewrite <- Z.add_mod by lia. f_equal. lia.
  - rewrite Z.add_mod_idemp_l, Z.add_mod_idemp_l by lia. f_equal. lia.
Qed.

Lemma load_after_place_le t k v w t' w' :
  ht_set_place t k v w = (NoReturn, t', w') -> load t' <= load t + 1.
Proof.
  intros H. rewrite (load_after_place _ _ _ _ _ _ H).
  pose proof (load_range t) as Hl.
  destruct (holds _ _); [lia | apply size_t_le; lia].
Qed.

Lemma load_factor_below t :
  0 < capacity t -> 4 * load t < 3 * capacity t -> load_factor_reached t = false.
Proof.
  intros Hc Hl. unfold load_factor_reached. fold (load t).
  destruct (capacity t =? 0) eqn:E; [apply Z.eqb_eq in E; lia |].
  apply Z.leb_gt. exact Hl.
Qed.

Lemma load_factor_reached_iff t :
  0 < capacity t ->
  load_factor_reached t = true <-> 3 * capacity t <= 4 * load t.
Proof.
  intros Hc. unfold load_factor_reached. fold (load t).
  destruct (capacity t =? 0) eqn:E; [apply Z.eqb_eq in E; lia |].
  apply Z.leb_le.
Qed.

(** While [resize_table] re-inserts, the new array is less than three
    quarters full, so no re-insertion enlarges it again. *)
Lemma resize_loop_load fall depth c n :
  forall i old oc T w T' w',
    wf_table T -> capacity T = c -> 0 <= i -> load T <= i ->
    4 * (i + Z.of_nat n) <= 3 * c ->
    resize_loop fall (ht_set fall depth) n i old oc T w = (Return true, T', w') ->
    wf_table T' /\ capacity T' = c /\ load T' <= i + Z.of_nat n.
Proof.
  induction n as [| n IH]; intros i old oc T w T' w' Hwf Hcap Hi Hload Hroom H.
  - cbn in H. injection H as <- <-. split; [exact Hwf | split; [exact Hcap | lia]].
  - cbn [resize_loop] in H.
    destruct (occupied (entry_at old i)
              && negb (key (entry_at old i) =? DELETED_KEY)).
    + destruct (ht_set fall depth T (key (entry_at old i))
                       (value (entry_at old i)) w) as [[r T1] w1] eqn:Hset.
      destruct (truth fall r) as [[] |] eqn:Hr; try discriminate.
      rewrite (truth_ht_set _ _ _ _ _ _ _ _ _ Hset Hr) in Hset.
      apply ht_set_stores in Hset.
      destruct Hset as (_ & t1 & w2 & Hplace & [(_ & -> & ->) | (Hreached & _)]).
      * pose proof (ht_set_place_wf _ _ _ _ _ _ Hwf Hplace) as Hwf1.
        pose proof (load_after_place_le _ _ _ _ _ _ Hplace) as Hl1.
        apply ht_set_place_stored in Hplace.
        destruct Hplace as (_ & _ & _ & _ & _ & Hcap1 & _).
        apply IH in H; try assumption; try lia.
        destruct H as (? & ? & ?). split; [assumption | split; [assumption | lia]].
      * rewrite load_factor_below in Hreached; [discriminate | |].
        -- destruct Hwf as (? & _). lia.
        -- lia.
    + apply IH in H; try assumption; try lia.
      destruct H as (? & ? & ?). split; [assumption | split; [assumption | lia]].
Qed.

Lemma doubled_capacity c :
  0 < c < 2 ^ 64 -> c < size_t (c * GROWTH_FACTOR) ->
  size_t (c * GROWTH_FACTOR) = 2 * c.
Proof.
  unfold size_t, GROWTH_FACTOR. intros Hc Hgrow.
  rewrite mod_once in * by lia.
  destruct (c * 2 <? 2 ^ 64); lia.
Qed.

Lemma resize_table_grows fall depth t w t' w' :
  wf_table t ->
  resize_table fall depth t (size_t (capacity t * GROWTH_FACTOR)) w
  = (Return true, t', w') ->
  wf_table t' /\ capacity t' = 2 * capacity t /\ load t' <= capacity t.
Proof.
  intros Hwf H. pose proof Hwf as (Hc & _).
  apply resize_table_with_true in H. destruct H as (Hgrow & w1 & Hloop).
  pose proof (size_t_range (capacity t * GROWTH_FACTOR)) as Hrange.
  rewrite (doubled_capacity _ Hc Hgrow) in Hloop, Hrange.
  apply (resize_loop_load fall depth (2 * capacity t)) in Hloop.
  - destruct Hloop as (? & ? & ?). split; [assumption | split; [assumption | lia]].
  - unfold wf_table. cbn. rewrite length_replicate. lia.
  - reflexivity.
  - lia.
  - unfold load. cbn. reflexivity.
  - lia.
Qed.

Lemma ht_create_new_table c :
  ht_create c world0
  = (Some (new_table (if c =? 0 then DEFAULT_CAPACITY else c)), world0).
Proof. reflexivity. Qed.

(** C9.  Whatever the table holds, [ht_set], [ht_get] and [ht_delete] called
    with the reserved key [DELETED_KEY] (INT_MIN, the tombstone marker) fail:
    they record [KVS_ERROR_INVALID_PARAM], hand back [false] (or [NULL]) and
    leave the table as it was. *)
Theorem sentinel_key_rejected fall depth t v w :
  ht_set fall depth t DELETED_KEY v w
    = (Return false, t, kvs_set_error KVS_ERROR_INVALID_PARAM w)
  /\ ht_get t DELETED_KEY w = (NULL, kvs_set_error KVS_ERROR_INVALID_PARAM w)
  /\ ht_delete t DELETED_KEY w
     = (Return false, t, kvs_set_error KVS_ERROR_INVALID_PARAM w).
Proof.
  split; [| split].
  - destruct depth, v; reflexivity.
  - reflexivity.
  - reflexivity.
Qed.

(** C7.  In a table that satisfies the invariant, a key that [ht_set] has
    stored and [ht_delete] has then removed is not found: [ht_get] returns
    [NULL] with [KVS_ERROR_KEY_NOT_FOUND], and a second [ht_delete] returns
    [false] with the same error and changes nothing. *)
Theorem deleted_key_not_found fall depth t k v w t1 w1 t2 w2 :
  table_inv t ->
  ht_set fall depth t k v w = (NoReturn, t1, w1) ->
  ht_delete t1 k w1 = (Return true, t2, w2) ->
  forall w3,
    ht_get t2 k w3 = (NULL, kvs_set_error KVS_ERROR_KEY_NOT_FOUND w3)
    /\ ht_delete t2 k w3
       = (Return false, t2, kvs_set_error KVS_ERROR_KEY_NOT_FOUND w3).
Proof.
  intros Hinv Hset Hdel w3.
  pose proof (ht_set_inv _ _ _ _ _ _ _ _ Hinv Hset) as Hinv1.
  destruct (ht_delete_inv _ _ _ _ _ Hinv1 Hdel) as [(Hwf2 & _) Habs].
  apply ht_delete_done in Hdel. destruct Hdel as (Hk & _).
  apply ht_get_absent; assumption.
Qed.

(** C8.  In a table that satisfies the invariant, [ht_get] of a stored key
    returns the value of the slot that holds it, whatever tombstones lie
    between the home slot of the key and that slot; and a lookup scan ends
    only on the key, on an Empty slot, or after the full cycle of [capacity]
    slots ([find_slot_post] with [for_insertion = false]). *)
Theorem lookup_skips_tombstones t s :
  table_inv t -> 0 <= s < capacity t -> is_live (slot t s) = true ->
  (forall w, ht_get t (key (slot t s)) w
             = (value (slot t s), kvs_clear_error w))
  /\ (forall k, find_slot_post t k false (find_slot t k false)).
Proof.
  intros (Hwf & Hreach & Huniq) Hs Hlive. split.
  - intros w. destruct (Hreach s Hs Hlive) as (d & Hd & Hps & Hocc).
    rewrite (ht_get_found t (key (slot t s)) d w); try assumption.
    + rewrite Hps. reflexivity.
    + intros i Hi. split; [apply Hocc, Hi |].
      destruct (holds (key (slot t s)) (slot t (probe t (key (slot t s)) i)))
        eqn:Hh; [exfalso | reflexivity].
      assert (E : probe t (key (slot t s)) i = probe t (key (slot t s)) d).
      { rewrite Hps. apply Huniq; try assumption.
        - apply probe_range, Hwf.
        - apply (holds_live _ _ Hh).
        - apply (holds_key _ _ Hh). }
      apply (probe_injective t _ i d Hwf) in E; lia.
    + rewrite Hps. apply holds_intro, Hlive.
  - intros k. apply find_slot_spec, Hwf.
Qed.

(** C3, as amended.  [ht_set] tests the load factor of the table as it is,
    [(size + tombstones) / capacity], and doubles the capacity first when it
    has reached 0.75.  After every run that stores the entry the load factor
    that was tested on the table the entry went into was below 0.75:
    [(size + tombstones - 1) / capacity < 0.75]. *)
Theorem load_factor_checked_before_placing fall depth t k v w t' w' :
  wf_table t ->
  ht_set fall depth t k v w = (NoReturn, t', w') ->
  wf_table t'
  /\ capacity t' = (if load_factor_reached t then 2 * capacity t else capacity t)
  /\ 4 * (load t' - 1) < 3 * capacity t'.
Proof.
  intros Hwf H. pose proof Hwf as (Hc & _).
  apply ht_set_stores in H.
  destruct H as (_ & t1 & w1 & Hplace & [(Hload & -> & ->) | (Hload & d & _ & Hres)]);
    rewrite Hload.
  - pose proof (ht_set_place_wf _ _ _ _ _ _ Hwf Hplace) as Hwf'.
    pose proof (load_after_place_le _ _ _ _ _ _ Hplace) as Hle.
    apply ht_set_place_stored in Hplace.
    destruct Hplace as (_ & _ & _ & _ & _ & Hcap & _).
    split; [exact Hwf' |]. split; [exact Hcap |]. rewrite Hcap.
    destruct (Z.lt_ge_cases (4 * load t) (3 * capacity t)) as [Hlt | Hge]; [lia |].
    apply (load_factor_reached_iff t) in Hge; [congruence | lia].
  - apply resize_table_grows in Hres; [| exact Hwf].
    destruct Hres as (Hwf1 & Hcap1 & Hload1).
    pose proof (ht_set_place_wf _ _ _ _ _ _ Hwf1 Hplace) as Hwf'.
    pose proof (load_after_place_le _ _ _ _ _ _ Hplace) as Hle.
    apply ht_set_place_stored in Hplace.
    destruct Hplace as (_ & _ & _ & _ & _ & Hcap & _).
    split; [exact Hwf' |]. split; [lia |]. lia.
Qed.

(** ** Bytes *)

Lemma Z_of_byte_of_Z z : Z_of_byte (byte_of_Z z) = z mod 256.
Proof.
  unfold Z_of_byte, byte_of_Z.
  pose proof (Z.mod_pos_bound z 256 ltac:(lia)) as Hr.
  destruct (Byte.of_N (Z.to_N (z mod 256))) as [b |] eqn:E.
  - cbn. apply Byte.to_of_N in E. rewrite E. lia.
  - apply Byte.of_N_None_iff in E. lia.
Qed.

Lemma uint32_of_bytes_bytes z : uint32_of_bytes (uint32_bytes z) = uint32_t z.
Proof.
  unfold uint32_bytes, uint32_of_bytes. cbn [map fold_right].
  rewrite !Z_of_byte_of_Z, !Z.shiftr_div_pow2 by lia.
  pose proof (Z.mod_pos_bound z (2 ^ 32) ltac:(lia)) as Hr.
  unfold uint32_t in *. set (n := z mod 2 ^ 32) in *. clearbody n.
  change (2 ^ (8 * 0)) with 1. change (2 ^ (8 * 1)) with 256.
  change (2 ^ (8 * 2)) with 65536. change (2 ^ (8 * 3)) with 16777216.
  change (2 ^ 32) with 4294967296 in Hr.
  rewrite Z.div_1_r.
  Z.div_mod_to_equations. lia.
Qed.

Lemma length_uint32_bytes z : length (uint32_bytes z) = 4%nat.
Proof. reflexivity. Qed.

Lemma int32_of_uint32 k : - 2 ^ 31 <= k < 2 ^ 31 -> int32_t (uint32_t k) = k.
Proof.
  intros Hk. unfold int32_t, uint32_t.
  rewrite Z.add_mod_idemp_l by lia.
  rewrite (Z.mod_small (k + 2 ^ 31)) by lia. lia.
Qed.

Lemma fread_app n a b :
  Z.of_nat (length a) = n -> fread n (a ++ b) = (Some a, b).
Proof.
  intros H. unfold fread. rewrite length_app.
  destruct (n <=? Z.of_nat (length a + length b)) eqn:E;
    [| apply Z.leb_gt in E; lia].
  rewrite take_app_length', drop_app_length' by lia. reflexivity.
Qed.

Lemma header_round_trip h :
  header_of_bytes (header_bytes h) =
  {| magic := uint32_t (magic h); version := uint32_t (version h);
     entry_count := uint32_t (entry_count h);
     reserved := uint32_t (reserved h) |}.
Proof.
  unfold header_of_bytes, header_bytes.
  rewrite <- !uint32_of_bytes_bytes. reflexivity.
Qed.

Lemma kvs_set_error_twice e e' w :
  kvs_set_error e (kvs_set_error e' w) = kvs_set_error e w.
Proof. reflexivity. Qed.

(** One pass of the loop of [kvs_load_from_file] over a record that declares
    its length. *)
Lemma load_loop_record fall n t r more w :
  Z.of_nat (length (snd r)) < 2 ^ 32 ->
  load_loop fall (S n) t (record_bytes r ++ more) w =
  if Z.of_nat (length (snd r)) >? MAX_VALUE_LEN
  then (Return false, t, kvs_set_error KVS_ERROR_CORRUPTION w)
  else
    let (got_value, w) := malloc w in
    if negb got_value
    then (Return false, t, kvs_set_error KVS_ERROR_MEMORY w)
    else
      let '(r, t, w) :=
        ht_set fall max_depth t (int32_t (uint32_t (fst r))) (Str (snd r)) w in
      match truth fall r with
      | Some true => load_loop fall n t more w
      | Some false => (Return false, t, w)
      | None => (Stuck, t, w)
      end.
Proof.
  intros Hlen. destruct r as [k v]. cbn [fst snd] in *.
  unfold record_bytes. cbn [fst snd load_loop].
  rewrite <- !app_assoc.
  rewrite (fread_app 4 (uint32_bytes k)) by reflexivity.
  rewrite (fread_app 4 (uint32_bytes _)) by reflexivity.
  rewrite !uint32_of_bytes_bytes.
  assert (E : uint32_t (Z.of_nat (length v)) = Z.of_nat (length v))
    by (apply Z.mod_small; lia).
  rewrite E.
  destruct (Z.of_nat (length v) >? MAX_VALUE_LEN); [reflexivity |].
  destruct (malloc w) as [[] w1]; cbn [negb]; [| reflexivity].
  rewrite (fread_app _ v) by reflexivity. reflexivity.
Qed.

(** The pass that meets a declared length above the bound. *)
Lemma load_loop_oversized fall n t k len rest w :
  MAX_VALUE_LEN < uint32_t len ->
  load_loop fall (S n) t (uint32_bytes k ++ uint32_bytes len ++ rest) w
  = (Return false, t, kvs_set_error KVS_ERROR_CORRUPTION w).
Proof.
  intros Hlen. cbn [load_loop].
  rewrite (fread_app 4 (uint32_bytes k)) by reflexivity.
  rewrite (fread_app 4 (uint32_bytes len)) by reflexivity.
  rewrite uint32_of_bytes_bytes.
  destruct (uint32_t len >? MAX_VALUE_LEN) eqn:E; [reflexivity |].
  rewrite Z.gtb_ltb in E. apply Z.ltb_ge in E. lia.
Qed.

Lemma records_bytes_cons r rs :
  records_bytes (r :: rs) = record_bytes r ++ records_bytes rs.
Proof. reflexivity. Qed.

Lemma load_loop_done fall t file w :
  load_loop fall 0 t file w = (Return true, t, kvs_clear_error w).
Proof. reflexivity. Qed.

(** Records that load are followed by one that declares too long a value:
    the load ends there, with what the records before it have stored. *)
Lemma load_loop_stops_at_oversized fall m k len rest :
  MAX_VALUE_LEN < uint32_t len ->
  forall rs t w t' w',
    Forall (fun r => Z.of_nat (length (snd r)) < 2 ^ 32) rs ->
    load_loop fall (length rs) t (records_bytes rs) w = (Return true, t', w') ->
    load_loop fall (length rs + S m) t
              (records_bytes rs ++ uint32_bytes k ++ uint32_bytes len ++ rest) w
    = (Return false, t', kvs_set_error KVS_ERROR_CORRUPTION w').
Proof.
  intros Hlen. induction rs as [| r rs IH]; intros t w t' w' Hrs H.
  - rewrite load_loop_done in H. injection H as <- <-.
    rewrite app_nil_l, Nat.add_0_l.
    rewrite load_loop_oversized by exact Hlen. reflexivity.
  - apply Forall_cons in Hrs. destruct Hrs as [Hr Hrs].
    rewrite length_cons, records_bytes_cons in *.
    rewrite Nat.add_succ_l, <- app_assoc.
    rewrite load_loop_record in H |- * by exact Hr.
    destruct (Z.of_nat (length (snd r)) >? MAX_VALUE_LEN); [discriminate |].
    destruct (malloc w) as [[] w1]; [| discriminate].
    destruct (ht_set fall max_depth t (int32_t (uint32_t (fst r)))
                     (Str (snd r)) w1) as [[r1 t1] w2].
    destruct (truth fall r1) as [[] |]; try discriminate.
    apply IH; assumption.
Qed.

Lemma ht_set_wf fall depth t k v w t' w' :
  wf_table t -> ht_set fall depth t k v w = (NoReturn, t', w') -> wf_table t'.
Proof.
  intros Hwf H. apply ht_set_stores in H.
  destruct H as (_ & t1 & w1 & Hplace & [(_ & -> & ->) | (_ & d & _ & Hres)]).
  - apply (ht_set_place_wf _ _ _ _ _ _ Hwf Hplace).
  - apply resize_table_grows in Hres; [| exact Hwf].
    destruct Hres as (Hwf1 & _). apply (ht_set_place_wf _ _ _ _ _ _ Hwf1 Hplace).
Qed.

(** [get] after [set], through a resize or not. *)
Lemma ht_get_after_set fall depth t k s w t' w' :
  wf_table t ->
  ht_set fall depth t k (Str s) w = (NoReturn, t', w') ->
  forall w'', ht_get t' k w'' = (Str (c_string s), kvs_clear_error w'').
Proof.
  intros Hwf H. apply ht_set_stores in H.
  destruct H as (Hk & t1 & w1 & Hplace & [(_ & -> & ->) | (_ & d & _ & Hres)]).
  - apply (ht_get_after_place _ _ _ _ _ _ Hwf Hk Hplace).
  - apply resize_table_grows in Hres; [| exact Hwf].
    destruct Hres as (Hwf1 & _).
    apply (ht_get_after_place _ _ _ _ _ _ Hwf1 Hk Hplace).
Qed.

(** A header with the right magic number and version leads to the loop over
    the records. *)
Lemma load_valid_header fall t h file w :
  uint32_t (magic h) = KVS_MAGIC_NUMBER ->
  uint32_t (version h) = KVS_FILE_VERSION ->
  kvs_load_from_file fall t (Some (header_bytes h ++ file)) w
  = load_loop fall (Z.to_nat (uint32_t (entry_count h))) t file w.
Proof.
  intros Hm Hv. unfold kvs_load_from_file.
  rewrite (fread_app 16 (header_bytes h)) by reflexivity.
  rewrite header_round_trip. unfold magic at 1, version at 1, entry_count at 1.
  rewrite Hm, Hv, !Z.eqb_refl. reflexivity.
Qed.

Lemma valid_header_fields count :
  uint32_t (magic (valid_header count)) = KVS_MAGIC_NUMBER
  /\ uint32_t (version (valid_header count)) = KVS_FILE_VERSION.
Proof. split; reflexivity. Qed.

(** C6, as amended.  The header is valid, the records [rs] before the
    offending one load successfully on their own, and the next record, still
    within [entry_count], declares a length above [MAX_VALUE_LEN]: the load
    fails with [KVS_ERROR_CORRUPTION] and the table is the one the records
    [rs] produce, whatever follows the offending record in the stream. *)
Theorem oversized_record_rejected fall t w h rs k len rest t' w' :
  uint32_t (magic h) = KVS_MAGIC_NUMBER ->
  uint32_t (version h) = KVS_FILE_VERSION ->
  Z.of_nat (length rs) < uint32_t (entry_count h) ->
  Forall (fun r => Z.of_nat (length (snd r)) < 2 ^ 32) rs ->
  MAX_VALUE_LEN < uint32_t len ->
  kvs_load_from_file fall t
    (Some (header_bytes (valid_header (Z.of_nat (length rs)))
           ++ records_bytes rs)) w
  = (Return true, t', w') ->
  kvs_load_from_file fall t
    (Some (header_bytes h ++ records_bytes rs
           ++ uint32_bytes k ++ uint32_bytes len ++ rest)) w
  = (Return false, t', kvs_set_error KVS_ERROR_CORRUPTION w').
Proof.
  intros Hm Hv Hcount Hrs Hlen Hpre.
  pose proof (Z.mod_pos_bound (entry_count h) (2 ^ 32) ltac:(lia)) as Hec.
  fold (uint32_t (entry_count h)) in Hec.
  rewrite load_valid_header in Hpre by reflexivity.
  replace (Z.to_nat (uint32_t (entry_count (valid_header (Z.of_nat (length rs))))))
    with (length rs) in Hpre.
  2:{ unfold valid_header, entry_count, uint32_t.
      rewrite Z.mod_small by lia. lia. }
  rewrite load_valid_header by assumption.
  replace (Z.to_nat (uint32_t (entry_count h)))
    with (length rs + S (Z.to_nat (uint32_t (entry_count h)) - length rs - 1))%nat
    by lia.
  apply load_loop_stops_at_oversized; assumption.
Qed.

(** C10.  A record that declares a value of exactly [MAX_VALUE_LEN] =
    100000 bytes passes the length test of [kvs_load_from_file] and is handed
    to [ht_set]; once stored it is found by [ht_get].  The test rejects a
    declared length exactly when it is 100001 or more. *)
Theorem value_length_bound_inclusive fall t k v w w1 t' w' :
  wf_table t ->
  - 2 ^ 31 <= k < 2 ^ 31 ->
  Z.of_nat (length v) = MAX_VALUE_LEN ->
  malloc w = (true, w1) ->
  ht_set fall max_depth t k (Str v) w1 = (NoReturn, t', w') ->
  kvs_load_from_file fall t
    (Some (header_bytes (valid_header 1)
           ++ uint32_bytes k ++ uint32_bytes MAX_VALUE_LEN ++ v)) w
  = (Return fall, t', if fall then kvs_clear_error w' else w')
  /\ (forall w'', ht_get t' k w'' = (Str (c_string v), kvs_clear_error w''))
  /\ (forall len, (len >? MAX_VALUE_LEN) = true <-> 100001 <= len).
Proof.
  intros Hwf Hk Hlen Hmalloc Hset. split; [| split].
  - rewrite load_valid_header by reflexivity.
    change (Z.to_nat (uint32_t (entry_count (valid_header 1)))) with 1%nat.
    rewrite <- Hlen.
    rewrite <- (app_nil_r v) at 2.
    change (uint32_bytes k ++ uint32_bytes (Z.of_nat (length v)) ++ v ++ [])
      with (record_bytes (k, v) ++ []).
    rewrite load_loop_record by (cbn [snd]; rewrite Hlen; reflexivity).
    cbn [fst snd]. rewrite Hlen, Hmalloc, (int32_of_uint32 k Hk), Hset.
    destruct fall; reflexivity.
  - apply (ht_get_after_set _ _ _ _ _ _ _ _ Hwf Hset).
  - intros len. unfold MAX_VALUE_LEN. rewrite Z.gtb_ltb, Z.ltb_lt. lia.
Qed.

(** C1, on the code.  [ht_set] of key 42 on a new table and [ht_set] of the
    same key again both store their value and [ht_get] returns the second
    one, but [ht_size] goes from 1 to 2: overwriting a key adds one to
    [size]. *)
Theorem overwrite_increments_size (fall : bool) :
  let '(r1, t1, w1) :=
    ht_set fall max_depth (new_table 16) 42 (str "hello world") world0 in
  let '(r2, t2, w2) := ht_set fall max_depth t1 42 (str "goodbye world") w1 in
  r1 = NoReturn /\ r2 = NoReturn
  /\ fst (ht_get t2 42 w2) = str "goodbye world"
  /\ ht_size t1 = 1 /\ ht_size t2 = 2.
Proof. destruct fall; vm_compute; auto. Qed.

(** C2, on the code.  After a key is set twice, [size] is 2 with one
    Occupied slot and [tombstones] has wrapped to 2^64 - 1 with no Tombstone
    slot; after set, delete and set of one key, [tombstones] is still 1 with
    no Tombstone slot left. *)
Theorem counters_drift_from_slots (fall : bool) :
  (let t := set_all fall [(42, "a"); (42, "b")]%string (new_table 16) in
   size t = 2 /\ live_slots t = 1
   /\ tombstones t = 2 ^ 64 - 1 /\ tombstone_slots t = 0)
  /\ (let t1 := set_all fall [(42, "a")]%string (new_table 16) in
      let t2 := table_of (ht_delete t1 42 world0) in
      let t3 := set_all fall [(42, "b")]%string t2 in
      (tombstones t2 = 1 /\ tombstone_slots t2 = 1)
      /\ tombstones t3 = 1 /\ tombstone_slots t3 = 0
      /\ size t3 = 1 /\ live_slots t3 = 1).
Proof. destruct fall; vm_compute; auto 10. Qed.

(** C4, on the code.  A table of 4 slots holds 3 keys and [resize_table]
    to 8 slots fails at the second re-insertion (no memory for the copy of
    the value): the array and the capacity are put back, but [size] is 1
    instead of 3 and the value of the entry already moved has been freed.
    Where a caller reads [false] from the missing [return] of [ht_set], the
    first re-insertion already counts as failed, with the same [size]. *)
Theorem failed_resize_changes_table :
  (let t := three_of_four true in
   let w := {| global_error := KVS_SUCCESS; heap := [true; true; false] |} in
   let '(r, t', w') := resize_table true max_depth t 8 w in
   r = Return false
   /\ ht_set true max_depth t 4 (str "d") w = (Return false, t', w')
   /\ capacity t' = capacity t
   /\ ht_size t = 3 /\ ht_size t' = 1
   /\ value (slot t 0) = str "a" /\ value (slot t' 0) = Freed)
  /\ (let t := three_of_four false in
      let '(r, t', w') := resize_table false max_depth t 8 world0 in
      r = Return false /\ ht_size t = 3 /\ ht_size t' = 1).
Proof. vm_compute. auto 10. Qed.

(** C5.  The round trip of the table with the entries (100, "one
    hundred"), (200, "two hundred"), (300, "three hundred"):
    [kvs_save_to_file] writes the three records, and [kvs_load_from_file]
    into a new table of the default capacity returns what it reads from the
    missing [return] of [ht_set] at the first record.  Where that is
    [false] the load has stopped there: the new table has [ht_size] 1 and
    holds neither 200 nor 300.  Where it is [true] the table has [ht_size]
    3 and returns the three strings. *)
Theorem round_trip_follows_missing_return (fall : bool) :
  let t := set_all fall [(100, "one hundred"); (200, "two hundred");
                         (300, "three hundred")]%string
                   (new_table DEFAULT_CAPACITY) in
  let '(saved, file, w) := kvs_save_to_file t world0 in
  let '(loaded, t', w') :=
    kvs_load_from_file fall (new_table DEFAULT_CAPACITY) (Some file) w in
  saved = Return true
  /\ live_slots t = 3 /\ ht_size t = 3
  /\ loaded = Return fall
  /\ ht_size t' = (if fall then 3 else 1)
  /\ fst (ht_get t' 100 w') = str "one hundred"
  /\ fst (ht_get t' 200 w') = (if fall then str "two hundred" else NULL)
  /\ fst (ht_get t' 300 w') = (if fall then str "three hundred" else NULL).
Proof. destruct fall; vm_compute; auto 10. Qed.

(** Against C3 as stated: a table of 4 slots holds 2 keys, so the load
    factor projected for the next entry is 3/4; [ht_set] of a third key does
    not enlarge the table, fills a new slot, and leaves the load factor at
    3/4, not below it. *)
Lemma load_factor_reached_after_insert :
  let t := set_all true [(1, "a"); (2, "b")]%string (new_table 4) in
  let '(r, t', _) := ht_set true max_depth t 3 (str "c") world0 in
  r = NoReturn
  /\ 3 * capacity t <= 4 * (size t + tombstones t + 1)
  /\ capacity t' = capacity t
  /\ live_slots t' = live_slots t + 1
  /\ ~ 4 * (size t' + tombstones t') < 3 * capacity t'.
Proof. vm_compute. repeat split; try reflexivity; discriminate. Qed.

Lemma new_table_wf c : 0 < c < 2 ^ 64 -> wf_table (new_table c).
Proof. intros Hc. apply (empty_table_inv c 0 0); lia. Qed.

Lemma new_table_inv c : 0 < c < 2 ^ 64 -> table_inv (new_table c).
Proof. intros Hc. apply (empty_table_inv c 0 0); lia. Qed.

Lemma load_factor_checked_before_placing_witness :
  let t := new_table 4 in
  let x := ht_set true max_depth t 1 (str "a") world0 in
  wf_table t
  /\ fst (fst x) = NoReturn
  /\ wf_table (table_of x)
  /\ capacity (table_of x)
     = (if load_factor_reached t then 2 * capacity t else capacity t)
  /\ 4 * (load (table_of x) - 1) < 3 * capacity (table_of x).
Proof.
  cbv zeta.
  split; [apply new_table_wf; lia |]. split; [reflexivity |].
  apply (load_factor_checked_before_placing true max_depth (new_table 4) 1
           (str "a") world0 _ (world_of (ht_set true max_depth (new_table 4) 1
                                                (str "a") world0))).
  - apply new_table_wf; lia.
  - vm_compute. reflexivity.
Defined.

(** Against C6 as stated: the header is valid and the second record declares
    200000 bytes, but the first record carries the reserved key; the load
    fails on that record with [KVS_ERROR_INVALID_PARAM], not with
    [KVS_ERROR_CORRUPTION]. *)
Lemma sentinel_record_before_oversized :
  kvs_load_from_file true (new_table 16)
    (Some (header_bytes (valid_header 2)
           ++ record_bytes (DELETED_KEY, [x78])
           ++ uint32_bytes 1 ++ uint32_bytes 200000)) world0
  = (Return false, new_table 16,
     kvs_set_error KVS_ERROR_INVALID_PARAM world0)
  /\ KVS_ERROR_INVALID_PARAM <> KVS_ERROR_CORRUPTION.
Proof. split; [vm_compute; reflexivity | discriminate]. Qed.

Lemma oversized_record_rejected_witness :
  let rs := [(1, [x6f; x6e; x65])] in
  let h := valid_header 3 in
  let good := kvs_load_from_file true (new_table 16)
                (Some (header_bytes (valid_header 1) ++ records_bytes rs))
                world0 in
  fst (fst good) = Return true
  /\ kvs_load_from_file true (new_table 16)
       (Some (header_bytes h ++ records_bytes rs
              ++ uint32_bytes 2 ++ uint32_bytes 200000
              ++ record_bytes (3, [x74; x68; x72; x65; x65]))) world0
     = (Return false, table_of good,
        kvs_set_error KVS_ERROR_CORRUPTION (world_of good)).
Proof.
  cbv zeta. split; [vm_compute; reflexivity |].
  apply (oversized_record_rejected true (new_table 16) world0 (valid_header 3)
           [(1, [x6f; x6e; x65])] 2 200000).
  - reflexivity.
  - reflexivity.
  - vm_compute. reflexivity.
  - repeat constructor.
  - vm_compute. reflexivity.
  - vm_compute. reflexivity.
Defined.

Lemma deleted_key_not_found_witness :
  let t1 := table_of (ht_set true max_depth (new_table 16) 42 (str "x") world0) in
  let t2 := table_of (ht_delete t1 42 world0) in
  table_inv (new_table 16)
  /\ fst (fst (ht_delete t1 42 world0)) = Return true
  /\ ht_get t2 42 world0
     = (NULL, kvs_set_error KVS_ERROR_KEY_NOT_FOUND world0)
  /\ ht_delete t2 42 world0
     = (Return false, t2, kvs_set_error KVS_ERROR_KEY_NOT_FOUND world0).
Proof.
  cbv zeta. split; [apply new_table_inv; lia |]. split; [reflexivity |].
  apply (deleted_key_not_found true max_depth (new_table 16) 42 (str "x")
           world0
           (table_of (ht_set true max_depth (new_table 16) 42 (str "x") world0))
           world0
           (table_of (ht_delete
                        (table_of (ht_set true max_depth (new_table 16) 42
                                          (str "x") world0)) 42 world0))
           world0).
  - apply new_table_inv; lia.
  - vm_compute. reflexivity.
  - vm_compute. reflexivity.
Defined.

Lemma tombstone_table_inv : table_inv tombstone_table.
Proof.
  unfold tombstone_table, set_all. cbn [fold_left fst snd].
  set (t1 := table_of (ht_set true max_depth (new_table 16) 100
                              (str "one hundred") world0)).
  set (t2 := table_of (ht_set true max_depth t1 4 (str "four") world0)).
  assert (H1 : table_inv t1).
  { apply (ht_set_inv true max_depth (new_table 16) 100 (str "one hundred")
                      world0 t1 world0).
    - apply new_table_inv; lia.
    - vm_compute. reflexivity. }
  assert (H2 : table_inv t2).
  { apply (ht_set_inv true max_depth t1 4 (str "four") world0 t2 world0).
    - exact H1.
    - vm_compute. reflexivity. }
  apply (ht_delete_inv t2 100 world0 _ world0 H2). vm_compute. reflexivity.
Qed.

Lemma lookup_skips_tombstones_witness :
  (table_inv tombstone_table
   /\ home tombstone_table 4 = 1
   /\ is_tombstone (slot tombstone_table 1) = true
   /\ is_live (slot tombstone_table 2) = true)
  /\ ht_get tombstone_table 4 world0 = (str "four", world0).
Proof.
  split.
  - split; [exact tombstone_table_inv |]. vm_compute. auto.
  - apply (proj1 (lookup_skips_tombstones tombstone_table 2 tombstone_table_inv
                    ltac:(vm_compute; split; [discriminate | reflexivity])
                    ltac:(vm_compute; reflexivity)) world0).
Defined.

Lemma ht_set_seven_stores v :
  let x := ht_set true max_depth (new_table 16) 7 (Str v) world0 in
  x = (NoReturn, table_of x, world_of x).
Proof. vm_compute. reflexivity. Qed.

Lemma value_length_bound_inclusive_witness :
  let v := replicate (Z.to_nat MAX_VALUE_LEN) x41 in
  let x := ht_set true max_depth (new_table 16) 7 (Str v) world0 in
  Z.of_nat (length v) = MAX_VALUE_LEN
  /\ fst (fst (kvs_load_from_file true (new_table 16)
                  (Some (header_bytes (valid_header 1)
                         ++ uint32_bytes 7 ++ uint32_bytes MAX_VALUE_LEN ++ v))
                  world0)) = Return true
  /\ ht_get (table_of x) 7 world0 = (Str (c_string v), world0).
Proof.
  cbv zeta.
  assert (Hlen : Z.of_nat (length (replicate (Z.to_nat MAX_VALUE_LEN) x41))
                 = MAX_VALUE_LEN)
    by (rewrite length_replicate; apply Z2Nat.id; discriminate).
  assert (Hwf : wf_table (new_table 16)) by (apply new_table_wf; lia).
  assert (Hk : - 2 ^ 31 <= 7 < 2 ^ 31) by lia.
  destruct (value_length_bound_inclusive true (new_table 16) 7 _ world0 world0
              _ _ Hwf Hk Hlen eq_refl
              (ht_set_seven_stores (replicate (Z.to_nat MAX_VALUE_LEN) x41)))
    as (Hload & Hget & _).
  split; [exact Hlen |].
  split; [rewrite Hload; reflexivity | apply Hget].
Defined.

(** ** Lookups in terms of the contents *)

Lemma stored_unique t k v v' :
  table_inv t -> stored t k v -> stored t k v' -> v = v'.
Proof.
  intros (_ & _ & Huniq) (s & Hs & Hk & <-) (s' & Hs' & Hk' & <-).
  rewrite (Huniq s s' Hs Hs' (holds_live _ _ Hk) (holds_live _ _ Hk')).
  - reflexivity.
  - rewrite (holds_key _ _ Hk), (holds_key _ _ Hk'). reflexivity.
Qed.

Lemma stored_not_absent t k v : stored t k v -> absent t k -> False.
Proof.
  intros (s & Hs & Hk & _) Habs. rewrite (Habs s Hs) in Hk. discriminate.
Qed.

(** In a table that satisfies the invariant a stored key is reached by the
    scan of [find_slot]. *)
Lemma stored_passed t s :
  table_inv t -> 0 <= s < capacity t -> is_live (slot t s) = true ->
  exists d, 0 <= d < capacity t
    /\ probe t (key (slot t s)) d = s
    /\ passed t (key (slot t s)) d.
Proof.
  intros (Hwf & Hreach & Huniq) Hs Hlive.
  destruct (Hreach s Hs Hlive) as (d & Hd & Hps & Hocc).
  exists d. split; [exact Hd |]. split; [exact Hps |].
  intros i Hi. split; [apply Hocc, Hi |].
  destruct (holds (key (slot t s)) (slot t (probe t (key (slot t s)) i)))
    eqn:Hh; [exfalso | reflexivity].
  assert (E : probe t (key (slot t s)) i = probe t (key (slot t s)) d).
  { rewrite Hps. apply Huniq; try assumption.
    - apply probe_range, Hwf.
    - apply (holds_live _ _ Hh).
    - apply (holds_key _ _ Hh). }
  apply (probe_injective t _ i d Hwf) in E; lia.
Qed.

Lemma ht_get_stored t k v w :
  table_inv t -> stored t k v -> ht_get t k w = (v, kvs_clear_error w).
Proof.
  intros Hinv (s & Hs & Hk & <-). pose proof Hinv as (Hwf & _).
  destruct (stored_passed t s Hinv Hs (holds_live _ _ Hk)) as (d & Hd & Hps & Hp).
  rewrite (holds_key _ _ Hk) in Hps, Hp.
  rewrite (ht_get_found t k d w Hwf Hd Hp); rewrite Hps; [reflexivity | exact Hk].
Qed.

(** A key is stored or it is not. *)
Lemma stored_or_absent t k :
  table_inv t -> (exists v, stored t k v) \/ absent t k.
Proof.
  intros (Hwf & Hreach & _).
  destruct (find_slot_spec t k false Hwf) as (e & He & Hpe & Hcase).
  destruct Hcase as [(Hlt & Hk & _) | (Hend & _)].
  - left. exists (value (slot t (probe t k e))), (probe t k e).
    split; [apply probe_range, Hwf |]. auto.
  - right. unfold absent. apply (key_absent t k e); assumption.
Qed.

(** [ht_get] answers the same in two tables that store the same under the
    key. *)
Lemma ht_get_same t t' k w :
  table_inv t -> table_inv t' ->
  (forall v, stored t' k v <-> stored t k v) ->
  ht_get t' k w = ht_get t k w.
Proof.
  intros Hinv Hinv' Hsame.
  destruct (Z.eq_dec k DELETED_KEY) as [-> | Hk]; [reflexivity |].
  destruct (stored_or_absent t k Hinv) as [(v & Hv) | Habs].
  - rewrite (ht_get_stored t k v w Hinv Hv).
    apply ht_get_stored; [exact Hinv' | apply Hsame, Hv].
  - assert (Habs' : absent t' k).
    { destruct (stored_or_absent t' k Hinv') as [(v & Hv) | Habs']; [| exact Habs'].
      apply Hsame in Hv. destruct (stored_not_absent _ _ _ Hv Habs). }
    rewrite (proj1 (ht_get_absent t k w (proj1 Hinv) Hk Habs)).
    apply ht_get_absent; [apply Hinv' | exact Hk | exact Habs'].
Qed.

(** What [ht_get] returns is what is stored. *)
Lemma ht_get_value_stored t k w v w' :
  wf_table t -> ht_get t k w = (v, w') -> v <> NULL -> stored t k v.
Proof.
  intros Hwf. unfold ht_get.
  destruct (k =? DELETED_KEY) eqn:Hk; [intros [= <- _]; congruence |].
  destruct (find_slot t k false =? SIZE_MAX) eqn:E; [intros [= <- _]; congruence |].
  apply Z.eqb_neq in E.
  destruct (find_slot_range t k false Hwf) as [Hmax | Hr]; [congruence |].
  fold (slot t (find_slot t k false)).
  destruct (occupied (slot t (find_slot t k false))) eqn:Ho;
    [| intros [= <- _]; congruence].
  destruct (key (slot t (find_slot t k false)) =? k) eqn:Hkey;
    [| intros [= <- _]; congruence].
  destruct (key (slot t (find_slot t k false)) =? DELETED_KEY) eqn:Hd;
    [intros [= <- _]; congruence |].
  cbn. intros [= <- _] _. exists (find_slot t k false).
  split; [exact Hr |]. split; [| reflexivity].
  unfold holds, is_live. rewrite Ho, Hd, Hkey. reflexivity.
Qed.

(** ** One slot is written *)

Lemma stored_elsewhere t t' r e k v :
  wf_table t -> 0 <= r < capacity t ->
  entries t' = <[Z.to_nat r := e]> (entries t) ->
  capacity t' = capacity t ->
  holds k (slot t r) = false -> holds k e = false ->
  stored t' k v <-> stored t k v.
Proof.
  intros Hwf Hr Hent Hcap Hold Hnew.
  assert (Hslot : slot t' r = e) by (apply (slot_placed t t' r e); assumption).
  split; intros (s & Hs & Hk & Hv); exists s; rewrite Hcap in *;
    (split; [exact Hs |]);
    destruct (Z.eq_dec s r) as [-> | Hne]; try congruence.
  - rewrite (slot_kept t t' r e s) in Hk, Hv by (assumption || lia). auto.
  - rewrite (slot_kept t t' r e s) by (assumption || lia). auto.
Qed.

Lemma c_string_idempotent s : c_string (c_string s) = c_string s.
Proof.
  induction s as [| b s IH]; [reflexivity |]. cbn.
  destruct (Byte.eqb b x00) eqn:E; [reflexivity |]. cbn. rewrite E, IH.
  reflexivity.
Qed.

Lemma holds_other k k' e : holds k e = true -> k' <> k -> holds k' e = false.
Proof.
  intros Hk Hne. unfold holds. rewrite (holds_live _ _ Hk), (holds_key _ _ Hk).
  cbn. apply Z.eqb_neq. congruence.
Qed.

Lemma not_live_holds k e : is_live e = false -> holds k e = false.
Proof. unfold holds. intros ->. reflexivity. Qed.

(** What placing an entry does to the contents: the key gets the copy of
    the value, every other key keeps what it had. *)
Lemma ht_set_place_contents t k v w t' w' :
  table_inv t -> k <> DELETED_KEY ->
  ht_set_place t k v w = (NoReturn, t', w') ->
  (forall k' v', k' <> k -> stored t' k' v' <-> stored t k' v')
  /\ exists b, v = Str b /\ stored t' k (Str (c_string b)).
Proof.
  intros (Hwf & Hreach & Huniq) Hk H. apply ht_set_place_stored in H.
  destruct H as (b & -> & Hfound & _ & Hent & Hcap & _ & _).
  destruct (find_slot_insertion t k Hwf) as [Hmax | (j & Hj & Hr & _ & Hcase)];
    [congruence |].
  rewrite Hr in Hent. pose proof (probe_range t k j Hwf) as Hrange.
  split.
  - intros k' v' Hne.
    apply (stored_elsewhere t t' (probe t k j) _ k' v' Hwf Hrange Hent Hcap).
    + destruct Hcase as [Hthere | (Hdead & _)].
      * apply (holds_other _ _ _ Hthere Hne).
      * apply not_live_holds, Hdead.
    + unfold holds, is_live. cbn. rewrite (proj2 (Z.eqb_neq k k')) by congruence.
      apply andb_false_r.
  - exists b. split; [reflexivity |]. exists (probe t k j).
    rewrite Hcap. split; [exact Hrange |].
    rewrite (slot_placed t t' _ _ Hwf Hrange Hent). split; [| reflexivity].
    unfold holds, is_live. cbn.
    rewrite Z.eqb_refl, (proj2 (Z.eqb_neq _ _) Hk). reflexivity.
Qed.

Lemma ht_set_place_string_values t k v w t' w' :
  wf_table t -> string_values t ->
  ht_set_place t k v w = (NoReturn, t', w') -> string_values t'.
Proof.
  intros Hwf Hsv H. pose proof (ht_set_place_wf _ _ _ _ _ _ Hwf H) as Hwf'.
  apply ht_set_place_stored in H.
  destruct H as (b & _ & Hfound & _ & Hent & Hcap & _ & _).
  destruct (find_slot_range t k true Hwf) as [Hmax | Hr]; [congruence |].
  intros s Hs Hlive. rewrite Hcap in Hs.
  destruct (Z.eq_dec s (find_slot t k true)) as [-> | Hne].
  - rewrite (slot_placed t t' _ _ Hwf Hr Hent). cbn.
    exists (c_string b). split; [reflexivity | apply c_string_idempotent].
  - rewrite (slot_kept t t' _ _ s (proj1 Hr) Hent) in * by lia.
    apply Hsv; assumption.
Qed.

(** What [ht_delete] does to the contents. *)
Lemma ht_delete_contents t k w t' w' :
  table_inv t -> ht_delete t k w = (Return true, t', w') ->
  (forall k' v', k' <> k -> stored t' k' v' <-> stored t k' v')
  /\ (string_values t -> string_values t').
Proof.
  intros (Hwf & _) H. apply ht_delete_done in H.
  destruct H as (Hk & Hfound & Hthere & Hent & Hcap & _).
  destruct (find_slot_range t k false Hwf) as [Hmax | Hr]; [congruence |].
  split.
  - intros k' v' Hne.
    apply (stored_elsewhere t t' _ _ k' v' Hwf Hr Hent Hcap).
    + apply (holds_other _ _ _ Hthere Hne).
    + reflexivity.
  - intros Hsv s Hs Hlive. rewrite Hcap in Hs.
    destruct (Z.eq_dec s (find_slot t k false)) as [-> | Hne].
    + rewrite (slot_placed t t' _ _ Hwf Hr Hent) in Hlive. discriminate.
    + rewrite (slot_kept t t' _ _ s (proj1 Hr) Hent) in * by lia.
      apply Hsv; assumption.
Qed.

(** The re-insertions of [resize_table] rebuild the contents of the old
    array, slot by slot.  [J] is any further property of the table being
    rebuilt that the skipped slots keep and each re-insertion, of a key the
    new table does not hold yet, carries one slot on. *)
Lemma resize_loop_invariant fall set t (J : Z -> hash_table_t -> Prop) :
  keeps_contents fall set ->
  table_inv t -> string_values t ->
  (forall i T, 0 <= i < capacity t -> is_live (slot t i) = false ->
     J i T -> J (i + 1) T) ->
  (forall i T w r T' w', 0 <= i < capacity t -> is_live (slot t i) = true ->
     table_inv T -> string_values T -> absent T (key (slot t i)) -> J i T ->
     set T (key (slot t i)) (value (slot t i)) w = (r, T', w') ->
     truth fall r = Some true -> J (i + 1) T') ->
  forall n i old T w T' w',
    0 <= i -> i + Z.of_nat n = capacity t ->
    (forall s, i <= s -> entry_at old s = slot t s) ->
    table_inv T -> string_values T ->
    (forall k v, stored T k v <->
       exists s, 0 <= s < i /\ holds k (slot t s) = true /\ value (slot t s) = v) ->
    J i T ->
    resize_loop fall set n i old (capacity t) T w = (Return true, T', w') ->
    table_inv T' /\ string_values T'
    /\ (forall k v, stored T' k v <-> stored t k v)
    /\ J (capacity t) T'.
Proof.
  intros Hset Hinv Hsv Jskip Jstep. pose proof Hinv as (Hwf & _ & Huniq).
  induction n as [| n IH]; intros i old T w T' w' Hi Hn Hold HT HTsv Hc HJ H.
  - cbn in H. injection H as <- <-. replace (capacity t) with i by lia.
    split; [exact HT |]. split; [exact HTsv |]. split; [| exact HJ].
    intros k v. rewrite Hc. unfold stored.
    replace (capacity t) with i by lia. reflexivity.
  - cbn [resize_loop] in H. rewrite (Hold i) in H by lia.
    fold (is_live (slot t i)) in H.
    assert (Hold' : forall s, i + 1 <= s ->
              entry_at (<[Z.to_nat i := free_value (slot t i)]> old) s = slot t s).
    { intros s Hs. rewrite entry_at_insert_ne by lia. apply Hold. lia. }
    destruct (is_live (slot t i)) eqn:Hlive.
    + destruct (Hsv i ltac:(lia) Hlive) as (b & Hb & Hnorm).
      destruct (set T (key (slot t i)) (value (slot t i)) w)
        as [[r T1] w1] eqn:Hcall.
      destruct (truth fall r) as [[] |] eqn:Hr; try discriminate.
      assert (Habs : absent T (key (slot t i))).
      { intros s' Hs'.
        destruct (holds (key (slot t i)) (slot T s')) eqn:Hh; [| reflexivity].
        assert (Hst : stored T (key (slot t i)) (value (slot T s')))
          by (exists s'; auto).
        apply Hc in Hst. destruct Hst as (s & Hs & Hk & _).
        assert (s = i); [| lia].
        apply Huniq; try lia.
        - apply (holds_live _ _ Hk).
        - exact Hlive.
        - apply (holds_key _ _ Hk). }
      pose proof (Jstep i T w r T1 w1 ltac:(lia) Hlive HT HTsv Habs HJ Hcall Hr)
        as HJ1.
      destruct (Hset _ _ _ _ _ _ _ HT HTsv Hcall Hr)
        as (HT1 & HT1sv & Hframe & b' & Hb' & Hnew).
      rewrite Hb in Hb'. injection Hb' as <-. rewrite Hnorm in Hnew.
      apply (IH (i + 1) _ T1 w1 T' w' ltac:(lia) ltac:(lia) Hold' HT1 HT1sv);
        [| exact HJ1 | exact H].
      intros k v. split.
      * intros Hst. destruct (Z.eq_dec k (key (slot t i))) as [-> | Hne].
        -- rewrite (stored_unique _ _ _ _ HT1 Hst Hnew). exists i.
           split; [lia |]. split; [apply holds_intro, Hlive | exact Hb].
        -- apply Hframe, Hc in Hst; [| exact Hne].
           destruct Hst as (s & Hs & Hk & Hv). exists s. split; [lia |]. auto.
      * intros (s & Hs & Hk & Hv). destruct (Z.eq_dec s i) as [-> | Hne].
        -- rewrite <- (holds_key _ _ Hk), <- Hv, Hb. exact Hnew.
        -- assert (Hkne : k <> key (slot t i)).
           { intros ->. apply Hne. apply Huniq; try lia.
             - apply (holds_live _ _ Hk).
             - exact Hlive.
             - apply (holds_key _ _ Hk). }
           apply Hframe; [exact Hkne |]. apply Hc. exists s.
           split; [lia |]. auto.
    + apply (IH (i + 1) _ T w T' w' ltac:(lia) ltac:(lia) Hold' HT HTsv);
        [| apply Jskip; [lia | exact Hlive | exact HJ] | exact H].
      intros k v. rewrite Hc. split; intros (s & Hs & Hk & Hv); exists s.
      * split; [lia |]. auto.
      * split; [| auto]. destruct (Z.eq_dec s i) as [-> | Hne]; [| lia].
        rewrite (holds_live _ _ Hk) in Hlive. discriminate.
Qed.

Lemma resize_loop_contents fall set t :
  keeps_contents fall set ->
  table_inv t -> string_values t ->
  forall n i old T w T' w',
    0 <= i -> i + Z.of_nat n = capacity t ->
    (forall s, i <= s -> entry_at old s = slot t s) ->
    table_inv T -> string_values T ->
    (forall k v, stored T k v <->
       exists s, 0 <= s < i /\ holds k (slot t s) = true /\ value (slot t s) = v) ->
    resize_loop fall set n i old (capacity t) T w = (Return true, T', w') ->
    table_inv T' /\ string_values T'
    /\ forall k v, stored T' k v <-> stored t k v.
Proof.
  intros Hset Hinv Hsv n i old T w T' w' Hi Hn Hold HT HTsv Hc H.
  destruct (resize_loop_invariant fall set t (fun _ _ => True) Hset Hinv Hsv
              ltac:(auto) ltac:(auto) n i old T w T' w' Hi Hn Hold HT HTsv Hc I H)
    as (H1 & H2 & H3 & _).
  auto.
Qed.

Lemma empty_table_stores_nothing c sz tb k v :
  ~ stored {| entries := replicate (Z.to_nat c) zero_entry;
              capacity := c; size := sz; tombstones := tb |} k v.
Proof.
  intros (s & _ & Hk & _). unfold slot in Hk. cbn in Hk.
  rewrite entry_at_replicate in Hk. discriminate.
Qed.

Lemma resize_table_with_contents fall set t c w t' w' :
  keeps_contents fall set ->
  table_inv t -> string_values t ->
  resize_table_with fall set t c w = (Return true, t', w') ->
  0 < c < 2 ^ 64 ->
  table_inv t' /\ string_values t'
  /\ forall k v, stored t' k v <-> stored t k v.
Proof.
  intros Hset Hinv Hsv H Hc. pose proof Hinv as ((Hcap & _) & _).
  apply resize_table_with_true in H. destruct H as (_ & w1 & Hloop).
  apply (resize_loop_contents fall set t Hset Hinv Hsv) in Hloop;
    try assumption; try lia.
  - intros s _. reflexivity.
  - apply empty_table_inv; lia.
  - intros s _ Hlive. unfold slot in Hlive. cbn in Hlive.
    rewrite entry_at_replicate in Hlive. discriminate.
  - intros k v. split.
    + intros Hst. destruct (empty_table_stores_nothing _ _ _ _ _ Hst).
    + intros (s & Hs & _). lia.
Qed.

(** [ht_set], through a resize or not, gives the key the copy of the value
    and leaves every other key with what it had. *)
Lemma ht_set_contents fall depth : keeps_contents fall (ht_set fall depth).
Proof.
  induction depth as [| depth IH]; intros t k v w r t' w' Hinv Hsv H Hr;
    rewrite (truth_ht_set _ _ _ _ _ _ _ _ _ H Hr) in H;
    pose proof (ht_set_inv _ _ _ _ _ _ _ _ Hinv H) as Hinv';
    apply ht_set_stores in H;
    destruct H as (Hk & t1 & w1 & Hplace & [(_ & -> & ->) | (_ & d & Hd & Hres)]);
    try discriminate.
  - split; [exact Hinv' |].
    split; [apply (ht_set_place_string_values _ _ _ _ _ _ (proj1 Hinv) Hsv Hplace) |].
    apply (ht_set_place_contents _ _ _ _ _ _ Hinv Hk Hplace).
  - split; [exact Hinv' |].
    split; [apply (ht_set_place_string_values _ _ _ _ _ _ (proj1 Hinv) Hsv Hplace) |].
    apply (ht_set_place_contents _ _ _ _ _ _ Hinv Hk Hplace).
  - injection Hd as <-. pose proof Hinv as ((Hcap & _) & _).
    assert (Hc : 0 < size_t (capacity t * GROWTH_FACTOR) < 2 ^ 64).
    { pose proof (size_t_range (capacity t * GROWTH_FACTOR)).
      apply resize_table_with_true in Hres. lia. }
    destruct (resize_table_with_contents _ _ _ _ _ _ _ IH Hinv Hsv Hres Hc)
      as (Hinv1 & Hsv1 & Hsame).
    split; [exact Hinv' |].
    split; [apply (ht_set_place_string_values _ _ _ _ _ _ (proj1 Hinv1) Hsv1 Hplace) |].
    destruct (ht_set_place_contents _ _ _ _ _ _ Hinv1 Hk Hplace) as [Hframe Hnew].
    split; [| exact Hnew].
    intros k' v' Hne. rewrite (Hframe k' v' Hne). apply Hsame.
Qed.

(** ** Counting slots *)

Lemma count_slots_range p es : 0 <= count_slots p es <= Z.of_nat (length es).
Proof.
  induction es as [| e es IH]; cbn [count_slots length]; [lia |].
  destruct (p e); lia.
Qed.

Lemma count_slots_insert p es n e x :
  es !! n = Some x ->
  count_slots p (<[n := e]> es)
  = count_slots p es - (if p x then 1 else 0) + (if p e then 1 else 0).
Proof.
  revert n. induction es as [| y es IH]; intros [| n] H; try discriminate.
  - cbn in H. injection H as ->. cbn. lia.
  - cbn in H. cbn [count_slots]. change (<[S n := e]> (y :: es)) with (y :: <[n := e]> es).
    cbn [count_slots]. rewrite (IH n H). lia.
Qed.

Lemma count_slots_entry p es r e :
  0 <= r < Z.of_nat (length es) ->
  count_slots p (<[Z.to_nat r := e]> es)
  = count_slots p es - (if p (entry_at es r) then 1 else 0)
    + (if p e then 1 else 0).
Proof.
  intros Hr. unfold entry_at.
  destruct (es !! Z.to_nat r) as [x |] eqn:E.
  - cbn. apply count_slots_insert, E.
  - apply lookup_ge_None in E. lia.
Qed.

Lemma count_slots_replicate p n e :
  p e = false -> count_slots p (replicate n e) = 0.
Proof. intros H. induction n as [| n IH]; cbn; [reflexivity |]. rewrite H, IH. reflexivity. Qed.

(** Fewer hits than slots: some slot is no hit. *)
Lemma count_slots_misses p es :
  count_slots p es < Z.of_nat (length es) ->
  exists i, 0 <= i < Z.of_nat (length es) /\ p (entry_at es i) = false.
Proof.
  induction es as [| e es IH]; cbn [count_slots length]; [lia |].
  intros H. destruct (p e) eqn:E.
  - destruct IH as (i & Hi & Hp); [lia |]. exists (i + 1). split; [lia |].
    unfold entry_at in *. replace (Z.to_nat (i + 1)) with (S (Z.to_nat i)) by lia.
    exact Hp.
  - exists 0. split; [lia |]. exact E.
Qed.

(** With a slot that is Empty, an insertion finds a slot. *)
Lemma find_slot_room t k :
  wf_table t -> occupied_slots t < capacity t ->
  find_slot t k true <> SIZE_MAX.
Proof.
  intros Hwf Hroom Hmax. pose proof Hwf as (Hc & Hlen & _).
  destruct (find_slot_spec t k true Hwf) as (e & He & Hpe & Hcase).
  rewrite Hmax in Hcase.
  assert (Hfull : e = capacity t).
  { destruct Hcase as [(_ & _ & E) | (_ & [(_ & j & _ & _ & E) | (_ & E)])].
    - pose proof (probe_not_max t k e Hwf) as Hn. apply Z.eqb_neq in Hn. congruence.
    - pose proof (probe_not_max t k j Hwf) as Hn. apply Z.eqb_neq in Hn. congruence.
    - destruct (e <? capacity t) eqn:Elt; [| apply Z.ltb_ge in Elt; lia].
      pose proof (probe_not_max t k e Hwf) as Hn. apply Z.eqb_neq in Hn. congruence. }
  subst e. unfold occupied_slots in Hroom. rewrite <- Hlen in Hroom.
  destruct (count_slots_misses _ _ Hroom) as (i & Hi & Hp).
  destruct (probe_onto (home t k) i (capacity t)) as (d & Hd & Hpd);
    [apply home_range, Hwf | lia |].
  destruct (Hpe d Hd) as [Ho _]. unfold slot, probe in Ho. rewrite Hpd in Ho.
  congruence.
Qed.

Lemma malloc_succeeds w : heap w = [] -> malloc w = (true, w).
Proof. unfold malloc. intros ->. reflexivity. Qed.

(** With room in the array and memory for the copy, the entry is placed. *)
Lemma ht_set_place_succeeds t k b w :
  wf_table t -> occupied_slots t < capacity t -> heap w = [] ->
  exists t', ht_set_place t k (Str b) w = (NoReturn, t', w).
Proof.
  intros Hwf Hroom Hheap. unfold ht_set_place.
  rewrite (proj2 (Z.eqb_neq _ _) (find_slot_room t k Hwf Hroom)).
  rewrite (malloc_succeeds w Hheap). cbn [negb]. eexists. reflexivity.
Qed.

(** Placing an entry changes the number of slots that are not Empty by one
    when it lands on an Empty slot, and not otherwise. *)
Lemma occupied_after_place t k v w t' w' :
  wf_table t -> ht_set_place t k v w = (NoReturn, t', w') ->
  occupied_slots t'
  = occupied_slots t
    + (if occupied (slot t (find_slot t k true)) then 0 else 1).
Proof.
  intros Hwf H. pose proof Hwf as (_ & Hlen & _).
  apply ht_set_place_stored in H.
  destruct H as (b & _ & Hfound & _ & Hent & _).
  destruct (find_slot_range t k true Hwf) as [Hmax | Hr]; [congruence |].
  unfold occupied_slots. rewrite Hent, count_slots_entry by lia.
  unfold slot. cbn. destruct (occupied (entry_at (entries t) (find_slot t k true))); lia.
Qed.

Lemma load_covers_after_place t k v w t' w' :
  wf_table t -> load_covers_slots t -> load t + 1 < 2 ^ 64 ->
  ht_set_place t k v w = (NoReturn, t', w') -> load_covers_slots t'.
Proof.
  intros Hwf Hcov Hsmall H. unfold load_covers_slots in *.
  rewrite (occupied_after_place _ _ _ _ _ _ Hwf H).
  rewrite (load_after_place _ _ _ _ _ _ H).
  pose proof (load_range t) as Hl.
  destruct (holds k (slot t (find_slot t k true))) eqn:Hk.
  - rewrite (live_occupied _ (holds_live _ _ Hk)). lia.
  - rewrite size_t_small by lia.
    destruct (occupied (slot t (find_slot t k true))); lia.
Qed.

Lemma load_covers_after_delete t k w t' w' :
  wf_table t -> load_covers_slots t ->
  ht_delete t k w = (Return true, t', w') -> load_covers_slots t'.
Proof.
  intros Hwf Hcov H. pose proof Hwf as (_ & Hlen & _).
  apply ht_delete_done in H.
  destruct H as (_ & Hfound & Hthere & Hent & _ & Hsz & Htb & _).
  destruct (find_slot_range t k false Hwf) as [Hmax | Hr]; [congruence |].
  unfold load_covers_slots, occupied_slots, load in *.
  rewrite Hent, count_slots_entry, Hsz, Htb by lia.
  fold (slot t (find_slot t k false)).
  rewrite (live_occupied _ (holds_live _ _ Hthere)). cbn.
  replace (size_t (size_t (size t - 1) + size_t (tombstones t + 1)))
    with (size_t (size t + tombstones t)); [lia |].
  unfold size_t. rewrite <- Z.add_mod by lia. f_equal. lia.
Qed.

(** [ht_set] on a table whose load factor is below the threshold is the
    placement alone. *)
Lemma ht_set_without_resize fall depth t k b w :
  k <> DELETED_KEY -> load_factor_reached t = false ->
  ht_set fall depth t k (Str b) w = ht_set_place t k (Str b) w.
Proof.
  intros Hk Hload. destruct depth; cbn [ht_set];
    rewrite (proj2 (Z.eqb_neq _ _) Hk), Hload; reflexivity.
Qed.

Lemma ht_set_with_resize fall depth t k b w :
  k <> DELETED_KEY -> load_factor_reached t = true ->
  ht_set fall (S depth) t k (Str b) w =
  let '(r, t1, w1) :=
    resize_table_with fall (ht_set fall depth) t
                      (size_t (capacity t * GROWTH_FACTOR)) w in
  match r with
  | Return true => ht_set_place t1 k (Str b) w1
  | Return false => (Return false, t1, w1)
  | _ => (Stuck, t1, w1)
  end.
Proof.
  intros Hk Hload. cbn [ht_set].
  rewrite (proj2 (Z.eqb_neq _ _) Hk), Hload. reflexivity.
Qed.

(** With memory available every re-insertion of [resize_table] stores its
    entry, where a stored entry reads as [true]. *)
Lemma resize_loop_succeeds depth t c :
  string_values t -> capacity t < c -> 4 * capacity t <= 3 * c ->
  forall n i old T w,
    heap w = [] -> 0 <= i -> i + Z.of_nat n = capacity t ->
    (forall s, i <= s -> entry_at old s = slot t s) ->
    wf_table T -> capacity T = c -> load T <= i -> load_covers_slots T ->
    exists T',
      resize_loop true (ht_set true depth) n i old (capacity t) T w
      = (Return true, T', w)
      /\ wf_table T' /\ capacity T' = c /\ load T' <= capacity t
      /\ load_covers_slots T'.
Proof.
  intros Hsv Hgrow Hroom.
  induction n as [| n IH]; intros i old T w Hheap Hi Hn Hold HT Hcap Hload Hcov.
  - exists T. cbn. split; [reflexivity |]. repeat split; try assumption; try lia;
      apply HT.
  - cbn [resize_loop]. rewrite (Hold i) by lia. fold (is_live (slot t i)).
    assert (Hold' : forall s, i + 1 <= s ->
              entry_at (<[Z.to_nat i := free_value (slot t i)]> old) s = slot t s).
    { intros s Hs. rewrite entry_at_insert_ne by lia. apply Hold. lia. }
    destruct (is_live (slot t i)) eqn:Hlive.
    + destruct (Hsv i ltac:(lia) Hlive) as (b & Hb & _). rewrite Hb.
      pose proof (live_not_deleted _ Hlive) as Hk.
      pose proof (load_range T) as Hl. pose proof HT as (HcT & _).
      rewrite ht_set_without_resize;
        [| exact Hk | apply load_factor_below; lia].
      destruct (ht_set_place_succeeds T (key (slot t i)) b w HT) as (T1 & Hplace);
        [unfold load_covers_slots in Hcov; lia | exact Hheap |].
      rewrite Hplace. cbn [truth].
      pose proof (ht_set_place_wf _ _ _ _ _ _ HT Hplace) as HT1.
      pose proof (load_after_place_le _ _ _ _ _ _ Hplace) as Hle.
      pose proof (load_covers_after_place _ _ _ _ _ _ HT Hcov ltac:(lia) Hplace)
        as Hcov1.
      apply ht_set_place_stored in Hplace.
      destruct Hplace as (_ & _ & _ & _ & _ & Hcap1 & _).
      apply (IH (i + 1) _ T1 w Hheap); try assumption; lia.
    + apply (IH (i + 1) _ T w Hheap); try assumption; lia.
Qed.

Lemma truth_no_return : truth true NoReturn = Some true.
Proof. reflexivity. Qed.

(** The contents after a run of [ht_set] that stores the entry, whatever a
    caller reads from it. *)
Lemma ht_set_stored_contents fall depth t k v w t' w' :
  table_inv t -> string_values t ->
  ht_set fall depth t k v w = (NoReturn, t', w') ->
  table_inv t' /\ string_values t'
  /\ (forall k' v', k' <> k -> stored t' k' v' <-> stored t k' v')
  /\ exists b, v = Str b /\ stored t' k (Str (c_string b)).
Proof.
  intros Hinv Hsv H. pose proof (ht_set_inv _ _ _ _ _ _ _ _ Hinv H) as Hinv'.
  apply ht_set_stores in H.
  destruct H as (Hk & t1 & w1 & Hplace & [(_ & -> & ->) | (_ & d & Hd & Hres)]).
  - split; [exact Hinv' |].
    split; [apply (ht_set_place_string_values _ _ _ _ _ _ (proj1 Hinv) Hsv Hplace) |].
    apply (ht_set_place_contents _ _ _ _ _ _ Hinv Hk Hplace).
  - pose proof Hinv as ((Hcap & _) & _).
    assert (Hc : 0 < size_t (capacity t * GROWTH_FACTOR) < 2 ^ 64).
    { pose proof (size_t_range (capacity t * GROWTH_FACTOR)).
      apply resize_table_with_true in Hres. lia. }
    destruct (resize_table_with_contents _ _ _ _ _ _ _ (ht_set_contents fall d)
                Hinv Hsv Hres Hc) as (Hinv1 & Hsv1 & Hsame).
    split; [exact Hinv' |].
    split; [apply (ht_set_place_string_values _ _ _ _ _ _ (proj1 Hinv1) Hsv1 Hplace) |].
    destruct (ht_set_place_contents _ _ _ _ _ _ Hinv1 Hk Hplace) as [Hframe Hnew].
    split; [| exact Hnew].
    intros k' v' Hne. rewrite (Hframe k' v' Hne). apply Hsame.
Qed.

Lemma empty_table_load_covers c :
  load_covers_slots {| entries := replicate (Z.to_nat c) zero_entry;
                       capacity := c; size := 0; tombstones := 0 |}.
Proof.
  unfold load_covers_slots, occupied_slots, load. cbn.
  rewrite count_slots_replicate by reflexivity. reflexivity.
Qed.

(** [size + tombstones] keeps covering the slots that are not Empty. *)
Lemma ht_set_load_covers fall depth :
  forall t k v w t' w',
    wf_table t -> load_covers_slots t ->
    ht_set fall depth t k v w = (NoReturn, t', w') ->
    wf_table t' /\ load_covers_slots t'.
Proof.
  induction depth as [| depth IH]; intros t k v w t' w' Hwf Hcov H;
    pose proof (ht_set_wf _ _ _ _ _ _ _ _ Hwf H) as Hwf';
    (split; [exact Hwf' |]);
    pose proof Hwf as (Hc & _); pose proof (load_range t) as Hl;
    apply ht_set_stores in H;
    destruct H as (_ & t1 & w1 & Hplace & [(Hload & -> & ->) | (_ & d & Hd & Hres)]);
    try discriminate.
  - refine (load_covers_after_place _ _ _ _ _ _ Hwf Hcov _ Hplace).
    destruct (Z.lt_ge_cases (4 * load t) (3 * capacity t)) as [Hlt | Hge]; [lia |].
    apply (load_factor_reached_iff t) in Hge; [congruence | lia].
  - refine (load_covers_after_place _ _ _ _ _ _ Hwf Hcov _ Hplace).
    destruct (Z.lt_ge_cases (4 * load t) (3 * capacity t)) as [Hlt | Hge]; [lia |].
    apply (load_factor_reached_iff t) in Hge; [congruence | lia].
  - injection Hd as <-.
    pose proof (resize_table_grows _ _ _ _ _ _ Hwf Hres) as (Hwf1 & Hcap1 & Hload1).
    apply resize_table_with_true in Hres. destruct Hres as (Hgrow & w2 & Hloop).
    apply (resize_loop_good fall (ht_set fall depth)
             (fun T => wf_table T /\ load_covers_slots T)) in Hloop.
    + refine (load_covers_after_place _ _ _ _ _ _ Hwf1 (proj2 Hloop) _ Hplace).
      destruct Hwf1 as (? & _). lia.
    + intros T k0 v0 w0 r T' w0' [HT HTc] _ Hset Hr.
      rewrite (truth_ht_set _ _ _ _ _ _ _ _ _ Hset Hr) in Hset.
      apply (IH _ _ _ _ _ _ HT HTc Hset).
    + split; [| apply empty_table_load_covers].
      pose proof (size_t_range (capacity t * GROWTH_FACTOR)).
      unfold wf_table. cbn. rewrite length_replicate. lia.
Qed.

(** With memory available and the counters covering the slots, [ht_set]
    stores the entry. *)
Lemma ht_set_runs fall depth t k b w :
  wf_table t -> string_values t -> load_covers_slots t ->
  capacity t < 2 ^ 63 -> k <> DELETED_KEY -> heap w = [] ->
  fall = true \/ load_factor_reached t = false ->
  exists t', ht_set fall (S depth) t k (Str b) w = (NoReturn, t', w).
Proof.
  intros Hwf Hsv Hcov Hsmall Hk Hheap Hfall.
  pose proof Hwf as (Hc & _). pose proof (load_range t) as Hl.
  destruct (load_factor_reached t) eqn:Hload.
  - destruct Hfall as [-> | Hf]; [| discriminate].
    rewrite ht_set_with_resize by assumption.
    assert (Hnew : size_t (capacity t * GROWTH_FACTOR) = 2 * capacity t).
    { unfold size_t, GROWTH_FACTOR. rewrite Z.mod_small; lia. }
    unfold resize_table_with. rewrite Hnew.
    rewrite (proj2 (Z.leb_gt _ _)) by lia.
    rewrite (malloc_succeeds w Hheap). cbn [negb].
    destruct (resize_loop_succeeds depth t (2 * capacity t) Hsv ltac:(lia) ltac:(lia)
                (Z.to_nat (capacity t)) 0 (entries t)
                {| entries := replicate (Z.to_nat (2 * capacity t)) zero_entry;
                   capacity := 2 * capacity t; size := 0; tombstones := 0 |} w)
      as (T & Hloop & HT & HcapT & HloadT & HcovT);
      try assumption; try lia; try reflexivity.
    + unfold wf_table. cbn. rewrite length_replicate. lia.
    + apply empty_table_load_covers.
    + rewrite Hloop.
      apply ht_set_place_succeeds; [exact HT | | exact Hheap].
      unfold load_covers_slots in HcovT. lia.
  - rewrite ht_set_without_resize by assumption.
    apply ht_set_place_succeeds; [exact Hwf | | exact Hheap].
    unfold load_covers_slots in Hcov.
    destruct (Z.lt_ge_cases (4 * load t) (3 * capacity t)) as [Hlt | Hge]; [lia |].
    apply (load_factor_reached_iff t) in Hge; [congruence | lia].
Qed.

Lemma new_table_consistent c : 0 < c < 2 ^ 64 -> consistent (new_table c).
Proof.
  intros Hc. split; [apply new_table_inv, Hc |]. split.
  - intros s _ Hlive. unfold slot, new_table in Hlive. cbn in Hlive.
    rewrite entry_at_replicate in Hlive. discriminate.
  - apply empty_table_load_covers.
Qed.

Lemma consistent_set fall depth t k v w t' w' :
  consistent t -> ht_set fall depth t k v w = (NoReturn, t', w') ->
  consistent t'.
Proof.
  intros (Hinv & Hsv & Hcov) H.
  destruct (ht_set_stored_contents _ _ _ _ _ _ _ _ Hinv Hsv H) as (Hinv' & Hsv' & _).
  destruct (ht_set_load_covers _ _ _ _ _ _ _ _ (proj1 Hinv) Hcov H) as (_ & Hcov').
  split; [exact Hinv' |]. split; assumption.
Qed.

Lemma consistent_delete t k w t' w' :
  consistent t -> ht_delete t k w = (Return true, t', w') -> consistent t'.
Proof.
  intros (Hinv & Hsv & Hcov) H.
  split; [apply (ht_delete_inv _ _ _ _ _ Hinv H) |]. split.
  - apply (ht_delete_contents _ _ _ _ _ Hinv H), Hsv.
  - apply (load_covers_after_delete _ _ _ _ _ (proj1 Hinv) Hcov H).
Qed.

(** Re-insertion never enlarges the table again: the loop of [resize_table]
    runs the same with any nesting bound. *)
Lemma ht_set_below_threshold fall depth t k v w :
  load_factor_reached t = false ->
  ht_set fall depth t k v w = ht_set fall 0 t k v w.
Proof.
  intros Hload. destruct depth, v; cbn [ht_set]; try reflexivity;
    destruct (k =? DELETED_KEY); try reflexivity; rewrite Hload; reflexivity.
Qed.

Lemma resize_loop_any_depth fall depth c oc :
  forall n i old T w,
    wf_table T -> capacity T = c -> 0 <= i -> load T <= i ->
    4 * (i + Z.of_nat n) <= 3 * c ->
    resize_loop fall (ht_set fall depth) n i old oc T w
    = resize_loop fall (ht_set fall 0) n i old oc T w.
Proof.
  induction n as [| n IH]; intros i old T w Hwf Hcap Hi Hload Hroom;
    [reflexivity |].
  cbn [resize_loop].
  destruct (occupied (entry_at old i)
            && negb (key (entry_at old i) =? DELETED_KEY)).
  - assert (Hbelow : load_factor_reached T = false).
    { apply load_factor_below; [destruct Hwf; lia | lia]. }
    rewrite (ht_set_below_threshold fall depth) by exact Hbelow.
    destruct (ht_set fall 0 T (key (entry_at old i)) (value (entry_at old i)) w)
      as [[r T1] w1] eqn:Hset.
    destruct (truth fall r) as [[] |] eqn:Hr; try reflexivity.
    rewrite (truth_ht_set _ _ _ _ _ _ _ _ _ Hset Hr) in Hset.
    apply ht_set_stores in Hset.
    destruct Hset as (_ & t1 & w2 & Hplace & [(_ & -> & ->) | (Hreached & _)]);
      [| congruence].
    pose proof (ht_set_place_wf _ _ _ _ _ _ Hwf Hplace) as Hwf1.
    pose proof (load_after_place_le _ _ _ _ _ _ Hplace) as Hl1.
    apply ht_set_place_stored in Hplace.
    destruct Hplace as (_ & _ & _ & _ & _ & Hcap1 & _).
    apply IH; try assumption; lia.
  - apply IH; try assumption; lia.
Qed.

(** ** Example tables *)

Lemma three_of_four_consistent : consistent (three_of_four true).
Proof.
  unfold three_of_four, set_all. cbn [fold_left fst snd].
  set (t1 := table_of (ht_set true max_depth (new_table 4) 1 (str "a") world0)).
  set (t2 := table_of (ht_set true max_depth t1 2 (str "b") world0)).
  assert (H1 : consistent t1).
  { apply (consistent_set true max_depth (new_table 4) 1 (str "a") world0 t1 world0).
    - apply new_table_consistent; lia.
    - vm_compute. reflexivity. }
  assert (H2 : consistent t2).
  { apply (consistent_set true max_depth t1 2 (str "b") world0 t2 world0 H1).
    vm_compute. reflexivity. }
  apply (consistent_set true max_depth t2 3 (str "c") world0 _ world0 H2).
  vm_compute. reflexivity.
Qed.

Lemma tombstone_table_consistent : consistent tombstone_table.
Proof.
  unfold tombstone_table, set_all. cbn [fold_left fst snd].
  set (t1 := table_of (ht_set true max_depth (new_table 16) 100
                              (str "one hundred") world0)).
  set (t2 := table_of (ht_set true max_depth t1 4 (str "four") world0)).
  assert (H1 : consistent t1).
  { apply (consistent_set true max_depth (new_table 16) 100 (str "one hundred")
                          world0 t1 world0).
    - apply new_table_consistent; lia.
    - vm_compute. reflexivity. }
  assert (H2 : consistent t2).
  { apply (consistent_set true max_depth t1 4 (str "four") world0 t2 world0 H1).
    vm_compute. reflexivity. }
  apply (consistent_delete t2 100 world0 _ world0 H2). vm_compute. reflexivity.
Qed.

(** ** Further properties of the table *)

(** X1.  The probing loop of [find_slot] ends within [capacity] passes, and
    the answer is [SIZE_MAX] or an index inside the array. *)
Theorem find_slot_in_bounds t k ins :
  wf_table t ->
  (exists r, find_slot_loop (Z.to_nat (capacity t)) (entries t) (capacity t)
                            k ins (home t k) (home t k) SIZE_MAX = Some r)
  /\ (find_slot t k ins = SIZE_MAX \/ 0 <= find_slot t k ins < capacity t).
Proof.
  intros Hwf. split.
  - apply find_slot_loop_terminates, Hwf.
  - apply find_slot_range, Hwf.
Qed.

Lemma find_slot_in_bounds_witness :
  wf_table tombstone_table
  /\ (exists r, find_slot_loop (Z.to_nat (capacity tombstone_table))
                  (entries tombstone_table) (capacity tombstone_table)
                  4 true (home tombstone_table 4) (home tombstone_table 4)
                  SIZE_MAX = Some r)
  /\ (find_slot tombstone_table 4 true = SIZE_MAX
      \/ 0 <= find_slot tombstone_table 4 true < capacity tombstone_table).
Proof.
  exact (conj (proj1 tombstone_table_inv)
              (find_slot_in_bounds tombstone_table 4 true
                                   (proj1 tombstone_table_inv))).
Defined.

(** X2.  A run of [ht_set] that stores its entry keeps the table
    consistent: keys unique and reachable on their probe sequences, values
    copied strings, [size + tombstones] at least the number of slots in
    use. *)
Theorem ht_set_keeps_consistent fall depth t k v w t' w' :
  consistent t -> ht_set fall depth t k v w = (NoReturn, t', w') ->
  consistent t'.
Proof. apply consistent_set. Qed.

Lemma ht_set_keeps_consistent_witness :
  consistent (three_of_four true)
  /\ fst (fst (ht_set true max_depth (three_of_four true) 4 (str "d") world0))
     = NoReturn
  /\ capacity (table_of (ht_set true max_depth (three_of_four true) 4 (str "d")
                                world0)) = 8
  /\ consistent (table_of (ht_set true max_depth (three_of_four true) 4
                                  (str "d") world0)).
Proof.
  split; [exact three_of_four_consistent |]. split; [vm_compute; reflexivity |].
  split; [vm_compute; reflexivity |].
  apply (ht_set_keeps_consistent true max_depth (three_of_four true) 4 (str "d")
           world0 _ world0 three_of_four_consistent).
  vm_compute. reflexivity.
Defined.

(** X3.  [ht_delete] that returns [true] keeps the table consistent, leaves
    the key stored nowhere, keeps the capacity, and moves one from [size]
    to [tombstones]. *)
Theorem ht_delete_keeps_consistent t k w t' w' :
  consistent t -> ht_delete t k w = (Return true, t', w') ->
  consistent t' /\ absent t' k
  /\ capacity t' = capacity t
  /\ size t' = size_t (size t - 1)
  /\ tombstones t' = size_t (tombstones t + 1)
  /\ w' = kvs_clear_error w.
Proof.
  intros Hc H. split; [apply (consistent_delete _ _ _ _ _ Hc H) |].
  split; [exact (proj2 (ht_delete_inv _ _ _ _ _ (proj1 Hc) H)) |].
  apply ht_delete_done in H. tauto.
Qed.

Lemma ht_delete_keeps_consistent_witness :
  let t := set_all true [(100, "one hundred"); (4, "four")]%string
                   (new_table 16) in
  fst (fst (ht_delete t 100 world0)) = Return true
  /\ consistent tombstone_table /\ absent tombstone_table 100
  /\ size tombstone_table = 1 /\ tombstones tombstone_table = 1.
Proof.
  cbv zeta. split; [vm_compute; reflexivity |].
  assert (Ht : consistent (set_all true [(100, "one hundred"); (4, "four")]%string
                                   (new_table 16))).
  { unfold set_all. cbn [fold_left fst snd].
    eapply (consistent_set true max_depth _ 4 (str "four") world0 _ world0).
    - eapply (consistent_set true max_depth (new_table 16) 100
                             (str "one hundred") world0 _ world0).
      + apply new_table_consistent; lia.
      + vm_compute. reflexivity.
    - vm_compute. reflexivity. }
  destruct (ht_delete_keeps_consistent _ 100 world0 tombstone_table world0 Ht)
    as (Hc & Habs & _).
  - vm_compute. reflexivity.
  - split; [exact Hc |]. split; [exact Habs |]. split; vm_compute; reflexivity.
Defined.

(** X4.  [ht_get] after a run of [ht_set] that stores its entry returns the
    stored copy of the value, the string up to its first NUL; the table may
    have been enlarged by the call. *)
Theorem set_then_get fall depth t k b w t' w' :
  wf_table t ->
  ht_set fall depth t k (Str b) w = (NoReturn, t', w') ->
  forall w'', ht_get t' k w'' = (Str (c_string b), kvs_clear_error w'').
Proof. apply ht_get_after_set. Qed.

Lemma set_then_get_witness :
  wf_table (three_of_four true)
  /\ ht_get (table_of (ht_set true max_depth (three_of_four true) 4 (Str [])
                              world0)) 4 world0
     = (Str [], world0).
Proof.
  split; [exact (proj1 (proj1 three_of_four_consistent)) |].
  refine (set_then_get true max_depth (three_of_four true) 4 [] world0
            (table_of (ht_set true max_depth (three_of_four true) 4 (Str [])
                              world0)) world0
            (proj1 (proj1 three_of_four_consistent)) _ world0).
  vm_compute. reflexivity.
Defined.

(** X5.  A run of [ht_set] that stores its entry changes no other key:
    [ht_get] of any other key answers as before, also when the call has
    enlarged the table. *)
Theorem set_leaves_other_keys fall depth t k v w t' w' k' :
  table_inv t -> string_values t ->
  ht_set fall depth t k v w = (NoReturn, t', w') ->
  k' <> k ->
  forall w0, ht_get t' k' w0 = ht_get t k' w0.
Proof.
  intros Hinv Hsv H Hne w0.
  destruct (ht_set_stored_contents _ _ _ _ _ _ _ _ Hinv Hsv H)
    as (Hinv' & _ & Hframe & _).
  apply ht_get_same; try assumption. intros v'. apply Hframe, Hne.
Qed.

Lemma set_leaves_other_keys_witness :
  let t' := table_of (ht_set true max_depth (three_of_four true) 4 (str "d")
                             world0) in
  (table_inv (three_of_four true) /\ string_values (three_of_four true))
  /\ 2 <> 4
  /\ capacity t' = 2 * capacity (three_of_four true)
  /\ ht_get t' 2 world0 = ht_get (three_of_four true) 2 world0
  /\ ht_get t' 2 world0 = (str "b", world0).
Proof.
  cbv zeta. destruct three_of_four_consistent as (Hinv & Hsv & _).
  split; [split; assumption |]. split; [lia |]. split; [vm_compute; reflexivity |].
  split; [| vm_compute; reflexivity].
  apply (set_leaves_other_keys true max_depth (three_of_four true) 4 (str "d")
           world0 _ world0 2 Hinv Hsv); [vm_compute; reflexivity | lia].
Defined.

(** X6.  [ht_delete] that returns [true] changes no other key. *)
Theorem delete_leaves_other_keys t k w t' w' k' :
  table_inv t -> ht_delete t k w = (Return true, t', w') ->
  k' <> k ->
  forall w0, ht_get t' k' w0 = ht_get t k' w0.
Proof.
  intros Hinv H Hne w0.
  destruct (ht_delete_inv _ _ _ _ _ Hinv H) as (Hinv' & _).
  destruct (ht_delete_contents _ _ _ _ _ Hinv H) as (Hframe & _).
  apply ht_get_same; try assumption. intros v'. apply Hframe, Hne.
Qed.

Lemma delete_leaves_other_keys_witness :
  let t := three_of_four true in
  let t' := table_of (ht_delete t 1 world0) in
  table_inv t /\ fst (fst (ht_delete t 1 world0)) = Return true /\ 3 <> 1
  /\ ht_get t' 3 world0 = ht_get t 3 world0.
Proof.
  cbv zeta. split; [exact (proj1 three_of_four_consistent) |].
  split; [vm_compute; reflexivity |]. split; [lia |].
  apply (delete_leaves_other_keys (three_of_four true) 1 world0 _ world0 3
           (proj1 three_of_four_consistent)); [vm_compute; reflexivity | lia].
Defined.

(** X7.  [resize_table] as [ht_set] calls it, when it returns [true]:
    the capacity has doubled and [ht_get] answers for every key as it did
    before. *)
Theorem resize_preserves_contents fall depth t w t' w' :
  table_inv t -> string_values t ->
  resize_table fall depth t (size_t (capacity t * GROWTH_FACTOR)) w
  = (Return true, t', w') ->
  capacity t' = 2 * capacity t
  /\ forall k w0, ht_get t' k w0 = ht_get t k w0.
Proof.
  intros Hinv Hsv H. pose proof Hinv as ((Hcap & _) & _).
  destruct (resize_table_grows _ _ _ _ _ _ (proj1 Hinv) H) as (_ & Hc' & _).
  split; [exact Hc' |]. intros k w0.
  assert (Hc : 0 < size_t (capacity t * GROWTH_FACTOR) < 2 ^ 64).
  { pose proof (size_t_range (capacity t * GROWTH_FACTOR)).
    apply resize_table_with_true in H. lia. }
  destruct (resize_table_with_contents _ _ _ _ _ _ _ (ht_set_contents fall depth)
              Hinv Hsv H Hc) as (Hinv' & _ & Hsame).
  apply ht_get_same; try assumption. intros v. apply Hsame.
Qed.

Lemma resize_preserves_contents_witness :
  let t := three_of_four true in
  let t' := table_of (resize_table true max_depth t 8 world0) in
  (table_inv t /\ string_values t)
  /\ fst (fst (resize_table true max_depth t 8 world0)) = Return true
  /\ capacity t' = 2 * capacity t
  /\ forall k w0, ht_get t' k w0 = ht_get t k w0.
Proof.
  cbv zeta. destruct three_of_four_consistent as (Hinv & Hsv & _).
  split; [split; assumption |]. split; [vm_compute; reflexivity |].
  apply (resize_preserves_contents true max_depth (three_of_four true) world0 _
           world0 Hinv Hsv).
  vm_compute. reflexivity.
Defined.

(** X8.  On a consistent table of fewer than 2^63 slots, with memory
    available, [ht_set] of a string under a key other than the reserved one
    stores the entry: the branch that reports a full table is not reached.
    When the call must enlarge the table this needs a stored entry to read
    as [true] to [resize_table]. *)
Theorem ht_set_succeeds fall depth t k b w :
  consistent t -> capacity t < 2 ^ 63 -> k <> DELETED_KEY -> heap w = [] ->
  fall = true \/ load_factor_reached t = false ->
  exists t',
    ht_set fall (S depth) t k (Str b) w = (NoReturn, t', w)
    /\ consistent t'
    /\ forall w0, ht_get t' k w0 = (Str (c_string b), kvs_clear_error w0).
Proof.
  intros Hc Hsmall Hk Hheap Hfall. pose proof Hc as (Hinv & Hsv & Hcov).
  destruct (ht_set_runs fall depth t k b w (proj1 Hinv) Hsv Hcov Hsmall Hk Hheap
              Hfall) as (t' & H).
  exists t'. split; [exact H |].
  split; [apply (consistent_set _ _ _ _ _ _ _ _ Hc H) |].
  apply (ht_get_after_set _ _ _ _ _ _ _ _ (proj1 Hinv) H).
Qed.

Lemma ht_set_succeeds_witness :
  (consistent (three_of_four true) /\ capacity (three_of_four true) < 2 ^ 63
   /\ 4 <> DELETED_KEY /\ heap world0 = [])
  /\ load_factor_reached (three_of_four true) = true
  /\ exists t',
       ht_set true 1 (three_of_four true) 4 (Str [x64]) world0
       = (NoReturn, t', world0)
       /\ consistent t'
       /\ forall w0, ht_get t' 4 w0 = (Str (c_string [x64]), kvs_clear_error w0).
Proof.
  split; [| split; [vm_compute; reflexivity |]].
  - split; [exact three_of_four_consistent |].
    split; [vm_compute; reflexivity |]. split; [discriminate | reflexivity].
  - apply (ht_set_succeeds true 0 (three_of_four true) 4 [x64] world0
             three_of_four_consistent).
    + vm_compute. reflexivity.
    + discriminate.
    + reflexivity.
    + left. reflexivity.
Defined.

(** An Empty slot is the answer to an insertion only when no tombstone lies
    before it on the probe sequence of the key. *)
Lemma empty_answer_no_tombstone t k e :
  wf_table t -> 0 <= e < capacity t ->
  find_slot t k true = probe t k e ->
  occupied (slot t (probe t k e)) = false ->
  forall i, 0 <= i < e -> is_tombstone (slot t (probe t k i)) = false.
Proof.
  intros Hwf He Hfind Hempty.
  destruct (find_slot_spec t k true Hwf) as (e' & He' & Hpe & Hcase).
  rewrite Hfind in Hcase.
  destruct Hcase as [(Hlt & Hk & E) | (Hend & [(_ & j & Hj & Htomb & E) | (Hnone & E)])].
  - apply (probe_injective t k e e' Hwf) in E; [| lia | lia]. subst e'.
    pose proof (live_occupied _ (holds_live _ _ Hk)). congruence.
  - apply (probe_injective t k e j Hwf) in E; [| lia | lia]. subst j.
    unfold is_tombstone in Htomb. rewrite Hempty in Htomb. discriminate.
  - destruct (e' <? capacity t) eqn:Elt.
    + apply Z.ltb_lt in Elt.
      apply (probe_injective t k e e' Hwf) in E; [| lia | lia]. subst e'.
      apply Hnone. reflexivity.
    + pose proof (probe_not_max t k e Hwf) as Hn. apply Z.eqb_neq in Hn.
      congruence.
Qed.

(** The loop of [find_slot] for an insertion, on a probe sequence whose
    first [e] slots are occupied by other keys or tombstones and that ends
    there (Empty slot, or the cycle is complete): [first_tombstone] is the
    first tombstone passed, and it is the answer when there is one. *)
Lemma find_slot_loop_insertion t k e :
  wf_table t -> 0 <= e <= capacity t -> passed t k e ->
  (e = capacity t \/ occupied (slot t (probe t k e)) = false) ->
  forall fuel d ft,
    0 <= d < capacity t -> d <= e ->
    capacity t - d <= Z.of_nat fuel ->
    ((ft = SIZE_MAX
      /\ forall i, 0 <= i < d -> is_tombstone (slot t (probe t k i)) = false)
     \/ exists j, 0 <= j < d
          /\ is_tombstone (slot t (probe t k j)) = true
          /\ (forall i, 0 <= i < j ->
                is_tombstone (slot t (probe t k i)) = false)
          /\ ft = probe t k j) ->
    exists r,
      find_slot_loop fuel (entries t) (capacity t) k true
                     (home t k) (probe t k d) ft = Some r
      /\ (((forall i, 0 <= i < e ->
              is_tombstone (slot t (probe t k i)) = false)
           /\ r = if e <? capacity t then probe t k e else SIZE_MAX)
          \/ exists j, 0 <= j < e
               /\ is_tombstone (slot t (probe t k j)) = true
               /\ (forall i, 0 <= i < j ->
                     is_tombstone (slot t (probe t k i)) = false)
               /\ r = probe t k j).
Proof.
  intros Hwf He Hpass Hend. pose proof Hwf as (Hc & Hlen & _).
  pose proof (home_range t k Hwf) as Hh.
  induction fuel as [| fuel IH]; intros d ft Hd Hde Hfuel Hft; [lia |].
  cbn [find_slot_loop]. fold (slot t (probe t k d)).
  assert (Hnext : (probe t k d + 1) mod capacity t = probe t k (d + 1))
    by (apply probe_next; lia).
  rewrite Hnext.
  assert (Hwrap : (probe t k (d + 1) =? home t k) = (d + 1 =? capacity t))
    by (apply probe_wraps; lia).
  rewrite Hwrap. cbn [andb].
  destruct (Z.eq_dec d e) as [-> | Hne].
  - (* the Empty slot that ends the sequence *)
    destruct Hend as [-> | Hempty]; [lia |]. rewrite Hempty. cbn [negb].
    rewrite (proj2 (Z.ltb_lt e (capacity t))) by lia.
    destruct Hft as [(-> & Hnone) | (j & Hj & Htj & Hfirst & ->)].
    + rewrite Z.eqb_refl. cbn [negb]. eexists. split; [reflexivity |].
      left. split; [exact Hnone | reflexivity].
    + rewrite probe_not_max by exact Hwf. cbn [negb].
      eexists. split; [reflexivity |]. right. exists j. auto.
  - destruct (Hpass d ltac:(lia)) as (Hocc & Hnk). rewrite Hocc. cbn [negb].
    (* the loop goes on at [d + 1] or ends after the full cycle *)
    assert (Hgo : forall ft',
      ((ft' = SIZE_MAX
        /\ forall i, 0 <= i < d + 1 ->
             is_tombstone (slot t (probe t k i)) = false)
       \/ exists j, 0 <= j < d + 1
            /\ is_tombstone (slot t (probe t k j)) = true
            /\ (forall i, 0 <= i < j ->
                  is_tombstone (slot t (probe t k i)) = false)
            /\ ft' = probe t k j) ->
      exists r,
        (if negb (d + 1 =? capacity t)
         then find_slot_loop fuel (entries t) (capacity t) k true
                             (home t k) (probe t k (d + 1)) ft'
         else if negb (ft' =? SIZE_MAX) then Some ft' else Some SIZE_MAX)
        = Some r
        /\ (((forall i, 0 <= i < e ->
                is_tombstone (slot t (probe t k i)) = false)
             /\ r = if e <? capacity t then probe t k e else SIZE_MAX)
            \/ exists j, 0 <= j < e
                 /\ is_tombstone (slot t (probe t k j)) = true
                 /\ (forall i, 0 <= i < j ->
                       is_tombstone (slot t (probe t k i)) = false)
                 /\ r = probe t k j)).
    { intros ft' Hft'. destruct (d + 1 =? capacity t) eqn:E; cbn [negb].
      - apply Z.eqb_eq in E. assert (e = capacity t) by lia. subst e.
        rewrite Z.ltb_irrefl.
        destruct Hft' as [(-> & Hnone) | (j & Hj & Htj & Hfirst & ->)].
        + rewrite Z.eqb_refl. cbn [negb]. eexists. split; [reflexivity |].
          left. split; [| reflexivity]. intros i Hi. apply Hnone. lia.
        + rewrite probe_not_max by exact Hwf. cbn [negb].
          eexists. split; [reflexivity |]. right. exists j.
          split; [lia |]. auto.
      - apply Z.eqb_neq in E. apply IH; [lia | lia | lia | exact Hft']. }
    destruct (key (slot t (probe t k d)) =? DELETED_KEY) eqn:Hdel.
    + (* Tombstone found *)
      assert (Htomb : is_tombstone (slot t (probe t k d)) = true)
        by (unfold is_tombstone; rewrite Hocc, Hdel; reflexivity).
      destruct Hft as [(-> & Hnone) | (j & Hj & Htj & Hfirst & ->)].
      * rewrite Z.eqb_refl. apply Hgo. right. exists d.
        split; [lia |]. auto.
      * assert (G : exists j', 0 <= j' < d + 1
                  /\ is_tombstone (slot t (probe t k j')) = true
                  /\ (forall i, 0 <= i < j' ->
                        is_tombstone (slot t (probe t k i)) = false)
                  /\ probe t k j = probe t k j')
          by (exists j; split; [lia |]; auto).
        apply (fun H => Hgo (probe t k j) (or_intror H)) in G.
        rewrite (probe_not_max t k j Hwf) in G |- *. exact G.
    + assert (Hnt : is_tombstone (slot t (probe t k d)) = false)
        by (unfold is_tombstone; rewrite Hocc, Hdel; reflexivity).
      assert (Hk : (key (slot t (probe t k d)) =? k) = false).
      { unfold holds, is_live in Hnk. rewrite Hocc, Hdel in Hnk. exact Hnk. }
      rewrite Hk. apply Hgo.
      destruct Hft as [(-> & Hnone) | (j & Hj & Htj & Hfirst & ->)].
      * left. split; [reflexivity |]. intros i Hi.
        destruct (Z.eq_dec i d) as [-> | Hnd]; [exact Hnt |]. apply Hnone. lia.
      * right. exists j. split; [lia |]. auto.
Qed.

(** X9.  [find_slot] for an insertion of a key that is not met before the
    probe sequence ends (at an Empty slot, or after the whole cycle) reuses
    the first tombstone of that sequence; it answers the Empty slot, or
    [SIZE_MAX] after the whole cycle, only when the sequence has no
    tombstone. *)
Theorem insertion_prefers_tombstone t k e :
  wf_table t -> 0 <= e <= capacity t -> passed t k e ->
  (e = capacity t \/ occupied (slot t (probe t k e)) = false) ->
  (forall j, 0 <= j < e ->
     is_tombstone (slot t (probe t k j)) = true ->
     (forall i, 0 <= i < j -> is_tombstone (slot t (probe t k i)) = false) ->
     find_slot t k true = probe t k j)
  /\ ((forall i, 0 <= i < e -> is_tombstone (slot t (probe t k i)) = false) ->
      find_slot t k true = if e <? capacity t then probe t k e else SIZE_MAX).
Proof.
  intros Hwf He Hpass Hend. pose proof Hwf as (Hc & _).
  destruct (find_slot_loop_insertion t k e Hwf He Hpass Hend
              (Z.to_nat (capacity t)) 0 SIZE_MAX)
    as (r & Hr & Hpost); [lia | lia | lia | left; split; [reflexivity | lia] |].
  assert (Hfind : find_slot t k true = r).
  { unfold find_slot. rewrite (proj2 (Z.eqb_neq _ _)) by lia.
    fold (home t k). rewrite probe_0 in Hr by exact Hwf. rewrite Hr.
    reflexivity. }
  rewrite Hfind. split.
  - intros j Hj Htj Hfirst.
    destruct Hpost as [(Hnone & _) | (j' & Hj' & Htj' & Hfirst' & ->)].
    + rewrite (Hnone j Hj) in Htj. discriminate.
    + f_equal. destruct (Z.lt_trichotomy j j') as [Hlt | [Heq | Hgt]].
      * rewrite (Hfirst' j ltac:(lia)) in Htj. discriminate.
      * congruence.
      * rewrite (Hfirst j' ltac:(lia)) in Htj'. discriminate.
  - intros Hnone.
    destruct Hpost as [(_ & ->) | (j' & Hj' & Htj' & _ & _)]; [reflexivity |].
    rewrite (Hnone j' Hj') in Htj'. discriminate.
Qed.

Lemma insertion_prefers_tombstone_witness :
  let t := two_tombstones_table in
  (wf_table t /\ passed t 52 3
   /\ occupied (slot t (probe t 52 3)) = false
   /\ is_tombstone (slot t (probe t 52 0)) = true
   /\ is_tombstone (slot t (probe t 52 1)) = true)
  /\ find_slot t 52 true = probe t 52 0
  /\ probe t 52 0 = 1.
Proof.
  cbv zeta.
  assert (Hwf : wf_table two_tombstones_table).
  { unfold wf_table. vm_compute.
    repeat split; try reflexivity; intros H; discriminate H. }
  assert (Hp : passed two_tombstones_table 52 3).
  { intros i Hi.
    assert (Hcases : i = 0 \/ i = 1 \/ i = 2) by lia.
    destruct Hcases as [-> | [-> | ->]]; vm_compute; split; reflexivity. }
  assert (He : occupied (slot two_tombstones_table
                              (probe two_tombstones_table 52 3)) = false)
    by (vm_compute; reflexivity).
  assert (H0 : is_tombstone (slot two_tombstones_table
                                  (probe two_tombstones_table 52 0)) = true)
    by (vm_compute; reflexivity).
  assert (H1 : is_tombstone (slot two_tombstones_table
                                  (probe two_tombstones_table 52 1)) = true)
    by (vm_compute; reflexivity).
  split; [auto 10 |]. split; [| vm_compute; reflexivity].
  apply (insertion_prefers_tombstone two_tombstones_table 52 3 Hwf);
    [vm_compute; split; intros H; discriminate H | exact Hp
     | right; exact He | lia | exact H0 | intros i Hi; lia].
Defined.

(** X10.  When the next allocation fails, [ht_set] returns [false] with
    [KVS_ERROR_MEMORY] and the table is as it was: whether the allocation
    was the new array of [resize_table] or the copy of the value. *)
Theorem allocation_failure_leaves_table fall depth t k b w rest :
  wf_table t -> capacity t < 2 ^ 63 -> k <> DELETED_KEY ->
  heap w = false :: rest ->
  exists w',
    ht_set fall (S depth) t k (Str b) w = (Return false, t, w')
    /\ global_error w' = KVS_ERROR_MEMORY.
Proof.
  intros Hwf Hsmall Hk Hheap. pose proof Hwf as (Hc & _).
  assert (Hm : malloc w = (false, {| global_error := global_error w;
                                     heap := rest |}))
    by (unfold malloc; rewrite Hheap; reflexivity).
  destruct (load_factor_reached t) eqn:Hload.
  - rewrite ht_set_with_resize by assumption.
    unfold resize_table_with.
    assert (Hnew : size_t (capacity t * GROWTH_FACTOR) = 2 * capacity t).
    { unfold size_t, GROWTH_FACTOR. rewrite Z.mod_small; lia. }
    rewrite Hnew, (proj2 (Z.leb_gt _ _)) by lia.
    rewrite Hm. cbn [negb]. eexists. split; reflexivity.
  - rewrite ht_set_without_resize by assumption. unfold ht_set_place.
    destruct (find_slot t k true =? SIZE_MAX).
    + eexists. split; reflexivity.
    + rewrite Hm. cbn [negb]. eexists. split; reflexivity.
Qed.

Lemma allocation_failure_leaves_table_witness :
  let w := {| global_error := KVS_SUCCESS; heap := [false] |} in
  (wf_table (three_of_four true) /\ capacity (three_of_four true) < 2 ^ 63
   /\ 4 <> DELETED_KEY /\ heap w = false :: [])
  /\ exists w',
       ht_set true max_depth (three_of_four true) 4 (str "d") w
       = (Return false, three_of_four true, w')
       /\ global_error w' = KVS_ERROR_MEMORY.
Proof.
  cbv zeta.
  assert (Hwf : wf_table (three_of_four true))
    by exact (proj1 (proj1 three_of_four_consistent)).
  assert (Hs : capacity (three_of_four true) < 2 ^ 63) by (vm_compute; reflexivity).
  assert (Hk : 4 <> DELETED_KEY) by discriminate.
  split; [auto |].
  exact (allocation_failure_leaves_table true 63 (three_of_four true) 4 _
           {| global_error := KVS_SUCCESS; heap := [false] |} [] Hwf Hs Hk eq_refl).
Defined.

(** X11.  [ht_create] fails exactly when one of its two allocations fails,
    and then records [KVS_ERROR_MEMORY].  Otherwise the error is cleared and
    the table is consistent and empty, with the capacity asked for, 16 when
    0 was asked for. *)
Theorem ht_create_result c w :
  0 <= c < 2 ^ 64 ->
  match ht_create c w with
  | (Some t, w') =>
    consistent t
    /\ capacity t = (if c =? 0 then DEFAULT_CAPACITY else c)
    /\ size t = 0 /\ tombstones t = 0
    /\ (forall k, absent t k)
    /\ global_error w' = KVS_SUCCESS
    /\ fst (malloc w) = true /\ fst (malloc (snd (malloc w))) = true
  | (None, w') =>
    global_error w' = KVS_ERROR_MEMORY
    /\ (fst (malloc w) = false \/ fst (malloc (snd (malloc w))) = false)
  end.
Proof.
  intros Hc. unfold ht_create.
  destruct (malloc w) as [[] w1]; cbn [negb fst snd]; [| auto].
  destruct (malloc w1) as [[] w2]; cbn [negb fst snd]; [| auto].
  assert (Hcap : 0 < (if c =? 0 then DEFAULT_CAPACITY else c) < 2 ^ 64).
  { destruct (c =? 0) eqn:E; [unfold DEFAULT_CAPACITY; lia |].
    apply Z.eqb_neq in E. lia. }
  split; [apply (new_table_consistent _ Hcap) |].
  repeat split; try reflexivity.
  intros k s _. unfold slot. cbn. rewrite entry_at_replicate. reflexivity.
Qed.

Lemma ht_create_result_witness :
  0 <= 0 < 2 ^ 64
  /\ match ht_create 0 world0 with
     | (Some t, w') =>
       consistent t
       /\ capacity t = (if 0 =? 0 then DEFAULT_CAPACITY else 0)
       /\ size t = 0 /\ tombstones t = 0
       /\ (forall k, absent t k)
       /\ global_error w' = KVS_SUCCESS
       /\ fst (malloc world0) = true
       /\ fst (malloc (snd (malloc world0))) = true
     | (None, w') =>
       global_error w' = KVS_ERROR_MEMORY
       /\ (fst (malloc world0) = false
           \/ fst (malloc (snd (malloc world0))) = false)
     end.
Proof.
  assert (H : 0 <= 0 < 2 ^ 64) by lia.
  exact (conj H (ht_create_result 0 world0 H)).
Defined.

(** X12.  The four bytes written for a [uint32_t] read back as the same
    value, and those written for an [int] key read back as the same key. *)
Theorem uint32_round_trip z k :
  - 2 ^ 31 <= k < 2 ^ 31 ->
  uint32_of_bytes (uint32_bytes z) = uint32_t z
  /\ int32_t (uint32_of_bytes (uint32_bytes k)) = k.
Proof.
  intros Hk. split; [apply uint32_of_bytes_bytes |].
  rewrite uint32_of_bytes_bytes. apply int32_of_uint32, Hk.
Qed.

Lemma uint32_round_trip_witness :
  - 2 ^ 31 <= -100 < 2 ^ 31
  /\ uint32_of_bytes (uint32_bytes 4294967295) = uint32_t 4294967295
  /\ int32_t (uint32_of_bytes (uint32_bytes (-100))) = -100.
Proof.
  assert (H : - 2 ^ 31 <= -100 < 2 ^ 31) by lia.
  exact (conj H (uint32_round_trip 4294967295 (-100) H)).
Defined.

(** X13.  [kvs_load_from_file] leaves the table alone and fails with
    [KVS_ERROR_FILE_IO] when the file cannot be opened or holds fewer than
    the 16 bytes of a header, and with [KVS_ERROR_CORRUPTION] when the magic
    number or the version of the header is not the expected one, whatever
    follows the header. *)
Theorem load_rejects_bad_header fall t w :
  kvs_load_from_file fall t None w
  = (Return false, t, kvs_set_error KVS_ERROR_FILE_IO w)
  /\ (forall file, Z.of_nat (length file) < 16 ->
        kvs_load_from_file fall t (Some file) w
        = (Return false, t, kvs_set_error KVS_ERROR_FILE_IO w))
  /\ (forall h rest,
        uint32_t (magic h) <> KVS_MAGIC_NUMBER
        \/ uint32_t (version h) <> KVS_FILE_VERSION ->
        kvs_load_from_file fall t (Some (header_bytes h ++ rest)) w
        = (Return false, t, kvs_set_error KVS_ERROR_CORRUPTION w)).
Proof.
  split; [reflexivity |]. split.
  - intros file Hlen. unfold kvs_load_from_file, fread.
    rewrite (proj2 (Z.leb_gt _ _)) by lia. reflexivity.
  - intros h rest Hbad. unfold kvs_load_from_file.
    rewrite (fread_app 16 (header_bytes h)) by reflexivity.
    rewrite header_round_trip. unfold magic at 1, version at 1.
    destruct (uint32_t (magic h) =? KVS_MAGIC_NUMBER) eqn:Em; [| reflexivity].
    destruct (uint32_t (version h) =? KVS_FILE_VERSION) eqn:Ev; [| reflexivity].
    apply Z.eqb_eq in Em, Ev. tauto.
Qed.

(** X14.  A record that declares more value bytes than the file still
    holds, within the bound, ends the load with [KVS_ERROR_FILE_IO]; so does
    a file that ends before the key of a record that the header counts.
    The table is left as it was. *)
Theorem truncated_record_is_io_error fall t w w1 count k len v :
  0 < uint32_t count ->
  uint32_t len <= MAX_VALUE_LEN ->
  Z.of_nat (length v) < uint32_t len ->
  malloc w = (true, w1) ->
  kvs_load_from_file fall t
    (Some (header_bytes (valid_header count)
           ++ uint32_bytes k ++ uint32_bytes len ++ v)) w
  = (Return false, t, kvs_set_error KVS_ERROR_FILE_IO w1)
  /\ kvs_load_from_file fall t (Some (header_bytes (valid_header count))) w
     = (Return false, t, kvs_set_error KVS_ERROR_FILE_IO w).
Proof.
  intros Hcount Hlen Hshort Hm.
  assert (Hn : exists n, Z.to_nat (uint32_t (entry_count (valid_header count)))
                         = S n).
  { exists (Z.to_nat (uint32_t count) - 1)%nat. unfold valid_header, entry_count.
    lia. }
  destruct Hn as (n & Hn). split.
  - rewrite load_valid_header by reflexivity. rewrite Hn. cbn [load_loop].
    rewrite (fread_app 4 (uint32_bytes k)) by reflexivity.
    rewrite (fread_app 4 (uint32_bytes len)) by reflexivity.
    rewrite uint32_of_bytes_bytes.
    destruct (uint32_t len >? MAX_VALUE_LEN) eqn:E.
    { rewrite Z.gtb_ltb in E. apply Z.ltb_lt in E. lia. }
    rewrite Hm. cbn [negb]. unfold fread at 1.
    rewrite (proj2 (Z.leb_gt _ _)) by lia. reflexivity.
  - rewrite <- (app_nil_r (header_bytes (valid_header count))).
    rewrite load_valid_header by reflexivity. rewrite Hn. reflexivity.
Qed.

Lemma truncated_record_is_io_error_witness :
  (0 < uint32_t 1 /\ uint32_t 5 <= MAX_VALUE_LEN
   /\ Z.of_nat (length [x61; x62]) < uint32_t 5
   /\ malloc world0 = (true, world0))
  /\ kvs_load_from_file true (new_table 16)
       (Some (header_bytes (valid_header 1)
              ++ uint32_bytes 9 ++ uint32_bytes 5 ++ [x61; x62])) world0
     = (Return false, new_table 16, kvs_set_error KVS_ERROR_FILE_IO world0)
  /\ kvs_load_from_file true (new_table 16)
       (Some (header_bytes (valid_header 1))) world0
     = (Return false, new_table 16, kvs_set_error KVS_ERROR_FILE_IO world0).
Proof.
  assert (H1 : 0 < uint32_t 1) by (vm_compute; reflexivity).
  assert (H2 : uint32_t 5 <= MAX_VALUE_LEN) by (vm_compute; discriminate).
  assert (H3 : Z.of_nat (length [x61; x62]) < uint32_t 5)
    by (vm_compute; reflexivity).
  assert (H4 : malloc world0 = (true, world0)) by reflexivity.
  split; [auto |].
  exact (truncated_record_is_io_error true (new_table 16) world0 world0 1 9 5
           [x61; x62] H1 H2 H3 H4).
Defined.

(** X15.  The re-insertions of [resize_table] never enlarge the table
    again: on a well-formed table [ht_set] runs the same with any bound of
    at least 1 on the nesting of [ht_set] and [resize_table]. *)
Theorem nested_resize_never_happens fall depth t k v w :
  wf_table t ->
  ht_set fall (S depth) t k v w = ht_set fall 1 t k v w.
Proof.
  intros Hwf. pose proof Hwf as (Hc & _).
  destruct v; cbn [ht_set]; try reflexivity;
    destruct (k =? DELETED_KEY); try reflexivity;
    destruct (load_factor_reached t); try reflexivity;
    unfold resize_table_with;
    destruct (size_t (capacity t * GROWTH_FACTOR) <=? capacity t) eqn:E;
    try reflexivity;
    apply Z.leb_gt in E;
    pose proof (size_t_range (capacity t * GROWTH_FACTOR)) as Hr;
    rewrite (doubled_capacity _ Hc E) in *;
    destruct (malloc w) as [[] w1]; cbn [negb]; try reflexivity;
    rewrite (resize_loop_any_depth fall depth (2 * capacity t)); try reflexivity;
    try lia;
    try (unfold wf_table; cbn; rewrite length_replicate; lia).
Qed.

Lemma nested_resize_never_happens_witness :
  wf_table (three_of_four true)
  /\ ht_set true max_depth (three_of_four true) 4 (str "d") world0
     = ht_set true 1 (three_of_four true) 4 (str "d") world0.
Proof.
  exact (conj (proj1 (proj1 three_of_four_consistent))
              (nested_resize_never_happens true 63 (three_of_four true) 4
                 (str "d") world0 (proj1 (proj1 three_of_four_consistent)))).
Defined.

(** ** The iterator *)

Lemma drop_entry es i :
  0 <= i < Z.of_nat (length es) ->
  drop (Z.to_nat i) es = entry_at es i :: drop (Z.to_nat (i + 1)) es.
Proof.
  intros Hi. unfold entry_at.
  destruct (es !! Z.to_nat i) as [e |] eqn:E.
  - cbn. replace (Z.to_nat (i + 1)) with (S (Z.to_nat i)) by lia.
    apply drop_S, E.
  - apply lookup_ge_None in E. lia.
Qed.

(** One scan of [ht_iterator_next] from index [i]: it stops behind the next
    stored entry, or at the end of the array when there is none. *)
Lemma iterator_scan_spec t :
  wf_table t ->
  forall n i,
    0 <= i -> i + Z.of_nat n = capacity t ->
    match live_pairs (drop (Z.to_nat i) (entries t)) with
    | [] => iterator_scan n t i = (None, capacity t)
    | p :: ps =>
      exists i', iterator_scan n t i = (Some p, i')
        /\ i < i' <= capacity t
        /\ live_pairs (drop (Z.to_nat i') (entries t)) = ps
    end.
Proof.
  intros Hwf. pose proof Hwf as (Hc & Hlen & _).
  induction n as [| n IH]; intros i Hi Hn.
  - rewrite drop_ge by lia. cbn. f_equal. lia.
  - rewrite drop_entry by lia. cbn [live_pairs iterator_scan].
    rewrite (proj2 (Z.ltb_lt _ _)) by lia.
    fold (is_live (entry_at (entries t) i)).
    destruct (is_live (entry_at (entries t) i)).
    + exists (i + 1). split; [reflexivity |]. split; [lia | reflexivity].
    + specialize (IH (i + 1) ltac:(lia) ltac:(lia)).
      destruct (live_pairs (drop (Z.to_nat (i + 1)) (entries t))) as [| p ps].
      * exact IH.
      * destruct IH as (i' & Hs & Hr & Hd). exists i'.
        split; [exact Hs |]. split; [lia | exact Hd].
Qed.

Lemma ht_iterator_next_spec t i :
  wf_table t -> 0 <= i <= capacity t ->
  match live_pairs (drop (Z.to_nat i) (entries t)) with
  | [] =>
    ht_iterator_next {| iter_table := t; index := i |}
    = (None, {| iter_table := t; index := capacity t |})
  | p :: ps =>
    exists i',
      ht_iterator_next {| iter_table := t; index := i |}
      = (Some p, {| iter_table := t; index := i' |})
      /\ i < i' <= capacity t
      /\ live_pairs (drop (Z.to_nat i') (entries t)) = ps
  end.
Proof.
  intros Hwf Hi. unfold ht_iterator_next. cbn [iter_table index].
  pose proof (iterator_scan_spec t Hwf (Z.to_nat (capacity t - i)) i
                ltac:(lia) ltac:(lia)) as H.
  destruct (live_pairs (drop (Z.to_nat i) (entries t))) as [| p ps].
  - rewrite H. reflexivity.
  - destruct H as (i' & Hs & Hr & Hd). exists i'. rewrite Hs. auto.
Qed.

(** Calling [ht_iterator_next] until it returns [false] hands out the
    stored entries from the position of the iterator on, in slot order. *)
Lemma iterate_from t :
  wf_table t ->
  forall n i,
    0 <= i <= capacity t -> capacity t - i < Z.of_nat n ->
    iterate n {| iter_table := t; index := i |}
    = live_pairs (drop (Z.to_nat i) (entries t)).
Proof.
  intros Hwf. induction n as [| n IH]; intros i Hi Hn; [lia |].
  cbn [iterate]. pose proof (ht_iterator_next_spec t i Hwf Hi) as H.
  destruct (live_pairs (drop (Z.to_nat i) (entries t))) as [| p ps].
  - rewrite H. reflexivity.
  - destruct H as (i' & -> & Hr & <-). f_equal. apply IH; lia.
Qed.

Lemma live_pairs_length es :
  Z.of_nat (length (live_pairs es)) = count_slots is_live es.
Proof.
  induction es as [| e es IH]; [reflexivity |].
  cbn [live_pairs count_slots]. destruct (is_live e); cbn [length]; lia.
Qed.

(** X16.  An iterator started by [ht_iterator_init] hands out, call after
    call, exactly the stored entries of the table in slot order (no Empty
    slot, no tombstone); after at most [capacity] + 1 calls it has returned
    [false], and it keeps returning [false] from then on. *)
Theorem iterator_yields_stored_entries t :
  wf_table t ->
  iterate (S (Z.to_nat (capacity t))) (ht_iterator_init t)
  = live_pairs (entries t)
  /\ Z.of_nat (length (live_pairs (entries t))) = live_slots t
  /\ ht_iterator_next {| iter_table := t; index := capacity t |}
     = (None, {| iter_table := t; index := capacity t |}).
Proof.
  intros Hwf. pose proof Hwf as (Hc & Hlen & _). split; [| split].
  - unfold ht_iterator_init. rewrite (iterate_from t Hwf) by lia. reflexivity.
  - apply live_pairs_length.
  - pose proof (ht_iterator_next_spec t (capacity t) Hwf ltac:(lia)) as H.
    rewrite drop_ge in H by lia. exact H.
Qed.

Lemma iterator_yields_stored_entries_witness :
  wf_table tombstone_table
  /\ iterate (S (Z.to_nat (capacity tombstone_table)))
             (ht_iterator_init tombstone_table)
     = [(4, str "four")]
  /\ live_slots tombstone_table = 1.
Proof.
  assert (Hwf : wf_table tombstone_table)
    by exact (proj1 (proj1 tombstone_table_consistent)).
  destruct (iterator_yields_stored_entries tombstone_table Hwf) as (H1 & H2 & _).
  split; [exact Hwf |]. split; [rewrite H1 | rewrite <- H2];
    vm_compute; reflexivity.
Defined.

(** ** What [kvs_save_to_file] writes *)

(** The pairs of [live_pairs] are the stored entries of the array. *)
Lemma live_pairs_elem es p :
  In p (live_pairs es)
  <-> exists j e, es !! j = Some e /\ is_live e = true
                  /\ p = (key e, value e).
Proof.
  induction es as [| e es IH]; cbn [live_pairs].
  - split; [intros [] | intros (j & e & H & _); inversion H].
  - destruct (is_live e) eqn:L.
    + cbn [In]. rewrite IH. split.
      * intros [<- | (j & e' & H)].
        -- exists 0%nat, e. auto.
        -- exists (S j), e'. exact H.
      * intros (j & e' & Hj & Hl & Hp). destruct j as [| j].
        -- injection Hj as <-. left. symmetry. exact Hp.
        -- right. exists j, e'. auto.
    + rewrite IH. split.
      * intros (j & e' & H). exists (S j), e'. exact H.
      * intros (j & e' & Hj & Hl & Hp). destruct j as [| j].
        -- injection Hj as <-. congruence.
        -- exists j, e'. auto.
Qed.

Lemma live_pairs_slot t p :
  wf_table t ->
  In p (live_pairs (entries t))
  <-> exists s, 0 <= s < capacity t /\ is_live (slot t s) = true
                /\ p = (key (slot t s), value (slot t s)).
Proof.
  intros (Hc & Hlen & _). rewrite live_pairs_elem. split.
  - intros (j & e & Hj & Hl & Hp). exists (Z.of_nat j).
    pose proof (lookup_lt_Some _ _ _ Hj).
    unfold slot, entry_at. rewrite Nat2Z.id, Hj. split; [lia | auto].
  - intros (s & Hs & Hl & Hp). exists (Z.to_nat s), (slot t s).
    split; [| auto]. unfold slot, entry_at.
    destruct (entries t !! Z.to_nat s) eqn:E; [reflexivity |].
    apply lookup_ge_None in E. lia.
Qed.

Lemma live_pairs_drop es n p :
  In p (live_pairs (drop n es)) -> In p (live_pairs es).
Proof.
  rewrite !live_pairs_elem. intros (j & e & Hj & H).
  rewrite lookup_drop in Hj. eauto.
Qed.

Lemma save_loop_records t :
  wf_table t ->
  (forall p, In p (live_pairs (entries t)) -> writable p) ->
  forall n i file,
    0 <= i <= capacity t -> capacity t - i < Z.of_nat n ->
    save_loop n {| iter_table := t; index := i |} file
    = Some (file ++ records_bytes
                      (map pair_record
                           (live_pairs (drop (Z.to_nat i) (entries t))))).
Proof.
  intros Hwf Hval. induction n as [| n IH]; intros i file Hi Hn; [lia |].
  cbn [save_loop]. pose proof (ht_iterator_next_spec t i Hwf Hi) as H.
  pose proof (fun p => live_pairs_drop (entries t) (Z.to_nat i) p) as Hin.
  destruct (live_pairs (drop (Z.to_nat i) (entries t))) as [| p ps].
  - rewrite H. cbn. rewrite app_nil_r. reflexivity.
  - destruct H as (i' & -> & Hr & <-).
    destruct (Hval p (Hin p (or_introl eq_refl))) as (b & Hb & Hc & Hl).
    destruct p as [k v]. cbn [snd] in Hb. subst v. rewrite Hc.
    assert (Hu : uint32_t (Z.of_nat (length b)) = Z.of_nat (length b))
      by (unfold uint32_t; apply Z.mod_small; lia).
    cbv zeta. rewrite !Hu, Nat2Z.id, firstn_all.
    rewrite IH by lia. f_equal.
    cbn [map records_bytes pair_record fst snd].
    unfold record_bytes. cbn [fst snd].
    rewrite <- !app_assoc. reflexivity.
Qed.

(** The bound on the lengths, checked entry by entry. *)
Lemma values_short_by_check t :
  forallb (fun e => match value e with
                    | Str b => Z.of_nat (length b) <? 2 ^ 32
                    | _ => true
                    end) (entries t) = true ->
  forall s b, 0 <= s < capacity t -> value (slot t s) = Str b ->
              Z.of_nat (length b) < 2 ^ 32.
Proof.
  intros Hall s b _ Hv. unfold slot, entry_at in Hv.
  destruct (entries t !! Z.to_nat s) as [e |] eqn:E; [| discriminate].
  cbn in Hv. rewrite forallb_forall in Hall.
  apply list_elem_of_lookup_2, list_elem_of_In in E.
  specialize (Hall e E). rewrite Hv in Hall. apply Z.ltb_lt, Hall.
Qed.

(** Strings that are short enough can be written. *)
Lemma live_pairs_writable t :
  wf_table t -> string_values t ->
  (forall s b, 0 <= s < capacity t -> value (slot t s) = Str b ->
               Z.of_nat (length b) < 2 ^ 32) ->
  forall p, In p (live_pairs (entries t)) -> writable p.
Proof.
  intros Hwf Hstr Hlen p Hp. apply (live_pairs_slot t p Hwf) in Hp.
  destruct Hp as (s & Hs & Hlive & ->).
  destruct (Hstr s Hs Hlive) as (b & Hb & Hcs).
  exists b. cbn [snd]. split; [exact Hb |]. split; [exact Hcs |].
  exact (Hlen s b Hs Hb).
Qed.

(** X17.  [kvs_save_to_file] returns [true] and writes the header followed
    by one record per stored entry, in slot order, each with its key, the
    length of its value and the bytes of the value without the NUL.  The
    [entry_count] of the header is the [size] counter of the table, not the
    number of records written. *)
Theorem save_writes_stored_entries t w :
  wf_table t -> string_values t ->
  (forall s b, 0 <= s < capacity t -> value (slot t s) = Str b ->
               Z.of_nat (length b) < 2 ^ 32) ->
  kvs_save_to_file t w
  = (Return true,
     header_bytes (valid_header (uint32_t (size t)))
     ++ records_bytes (map pair_record (live_pairs (entries t))),
     kvs_clear_error w).
Proof.
  intros Hwf Hstr Hlen. pose proof Hwf as (Hc & Hl & _).
  pose proof (live_pairs_writable t Hwf Hstr Hlen) as Hval.
  unfold kvs_save_to_file, ht_iterator_init.
  rewrite (save_loop_records t Hwf Hval) by lia. reflexivity.
Qed.

Lemma save_writes_stored_entries_witness :
  kvs_save_to_file tombstone_table world0
  = (Return true,
     header_bytes (valid_header 1)
     ++ records_bytes [(4, list_byte_of_string "four")],
     world0).
Proof.
  rewrite (save_writes_stored_entries tombstone_table world0).
  - vm_compute. reflexivity.
  - exact (proj1 (proj1 tombstone_table_consistent)).
  - exact (proj1 (proj2 tombstone_table_consistent)).
  - apply values_short_by_check. vm_compute. reflexivity.
Defined.

(** ** The [size] counter and the keys stored *)

Lemma count_slots_app p es es' :
  count_slots p (es ++ es') = count_slots p es + count_slots p es'.
Proof.
  induction es as [| e es IH]; cbn [app count_slots]; [lia |].
  rewrite IH. lia.
Qed.

Lemma count_slots_take p es i :
  0 <= i < Z.of_nat (length es) ->
  count_slots p (take (Z.to_nat (i + 1)) es)
  = count_slots p (take (Z.to_nat i) es)
    + (if p (entry_at es i) then 1 else 0).
Proof.
  intros Hi. unfold entry_at.
  destruct (es !! Z.to_nat i) as [e |] eqn:E.
  - replace (Z.to_nat (i + 1)) with (S (Z.to_nat i)) by lia.
    rewrite (take_S_r _ _ _ E), count_slots_app. cbn. lia.
  - apply lookup_ge_None in E. lia.
Qed.

(** Placing a key counts one more stored key, unless the slot found already
    held a stored key. *)
Lemma live_after_place t k v w t' w' :
  wf_table t -> k <> DELETED_KEY ->
  ht_set_place t k v w = (NoReturn, t', w') ->
  live_slots t'
  = live_slots t + (if is_live (slot t (find_slot t k true)) then 0 else 1).
Proof.
  intros Hwf Hk H. pose proof Hwf as (_ & Hlen & _).
  apply ht_set_place_stored in H.
  destruct H as (b & _ & Hfound & _ & Hent & _).
  destruct (find_slot_range t k true Hwf) as [Hmax | Hr]; [congruence |].
  unfold live_slots. rewrite Hent, count_slots_entry by lia.
  fold (slot t (find_slot t k true)).
  unfold is_live at 3. cbn [occupied key].
  rewrite (proj2 (Z.eqb_neq _ _) Hk). cbn [negb andb].
  destruct (is_live (slot t (find_slot t k true))); lia.
Qed.

(** A key that is not stored lands on a slot that holds no key. *)
Lemma absent_slot_free t k :
  wf_table t -> absent t k -> find_slot t k true <> SIZE_MAX ->
  is_live (slot t (find_slot t k true)) = false.
Proof.
  intros Hwf Habs Hfound.
  destruct (find_slot_insertion t k Hwf) as [Hmax | (j & Hj & Hr & _ & Hcase)];
    [congruence |].
  rewrite Hr. destruct Hcase as [Hthere | (Hfree & _)]; [| exact Hfree].
  rewrite (Habs _ (probe_range t k j Hwf)) in Hthere. discriminate.
Qed.

Lemma place_counts t k v w t' w' :
  wf_table t -> size_counts t -> absent t k -> k <> DELETED_KEY ->
  ht_set_place t k v w = (NoReturn, t', w') ->
  size t' = size t + 1 /\ live_slots t' = live_slots t + 1
  /\ tombstones t' = tombstones t
  /\ tombstone_slots t' <= tombstone_slots t.
Proof.
  intros Hwf Hsz Habs Hk H. pose proof Hwf as (Hc & Hlen & _).
  rewrite (live_after_place _ _ _ _ _ _ Hwf Hk H).
  apply ht_set_place_stored in H.
  destruct H as (b & _ & Hfound & _ & Hent & _ & Hsize & Htomb).
  pose proof (absent_slot_free t k Hwf Habs Hfound) as Hfree.
  rewrite Hfree. split; [| split; [reflexivity |]].
  2: { destruct (find_slot_range t k true Hwf) as [Hmax | Hr]; [congruence |].
       split.
       - rewrite Htomb, (Habs _ Hr). reflexivity.
       - unfold tombstone_slots. rewrite Hent, count_slots_entry by lia.
         unfold is_tombstone at 3. cbn [occupied key].
         rewrite (proj2 (Z.eqb_neq _ _) Hk). cbn [andb].
         destruct (is_tombstone (entry_at (entries t) (find_slot t k true)));
           lia. }
  rewrite Hsize. apply size_t_small.
  destruct (find_slot_range t k true Hwf) as [Hmax | Hr]; [congruence |].
  assert (Hroom : live_slots t < capacity t).
  { unfold live_slots. rewrite <- Hlen.
    pose proof (count_slots_range is_live (entries t)) as Hrange.
    destruct (Z.eq_dec (count_slots is_live (entries t))
                       (Z.of_nat (length (entries t)))) as [Hfull |]; [| lia].
    exfalso. clear Hrange.
    assert (Hall : forall es, count_slots is_live es = Z.of_nat (length es) ->
              forall i, 0 <= i < Z.of_nat (length es) ->
                is_live (entry_at es i) = true).
    { induction es as [| e es IH]; cbn [count_slots length]; [lia |].
      intros Hcount i Hi. pose proof (count_slots_range is_live es).
      destruct (is_live e) eqn:E; [| lia].
      destruct (Z.eq_dec i 0) as [-> | Hne]; [exact E |].
      unfold entry_at. replace (Z.to_nat i) with (S (Z.to_nat (i - 1))) by lia.
      apply (IH ltac:(lia) (i - 1)). lia. }
    pose proof (Hall _ Hfull (find_slot t k true) ltac:(lia)) as Hl.
    unfold slot in Hfree. congruence. }
  unfold size_counts in Hsz. pose proof (count_slots_range is_live (entries t)).
  unfold live_slots in *. lia.
Qed.

(** The table [resize_table] builds: the keys stored are those of the old
    table, [size] counts them, and nothing is left of the tombstones. *)
Lemma resize_table_with_counts fall set t c w t1 w1 :
  keeps_contents fall set -> counts_new_keys fall set ->
  table_inv t -> string_values t -> 0 < c < 2 ^ 64 ->
  resize_table_with fall set t c w = (Return true, t1, w1) ->
  table_inv t1 /\ string_values t1
  /\ (forall k v, stored t1 k v <-> stored t k v)
  /\ size t1 = live_slots t /\ size_counts t1
  /\ tombstones t1 = 0 /\ tombstone_slots t1 = 0.
Proof.
  intros Hkeep Hcounts Hinv Hsv Hc Hres. pose proof Hinv as (Hwf & _).
  pose proof Hwf as (Hcap & Hlen & _).
  apply resize_table_with_true in Hres. destruct Hres as (Hgrow & w0 & Hloop).
  apply (resize_loop_invariant fall set t
           (fun i T => size T = count_slots is_live (take (Z.to_nat i) (entries t))
                       /\ size_counts T /\ tombstones T = 0
                       /\ tombstone_slots T = 0)
           Hkeep Hinv Hsv) in Hloop;
    try lia.
  - destruct Hloop as (Hinv1 & Hsv1 & Hsame & Hcount & Hsz1 & Htb1 & Hts1).
    rewrite firstn_all2 in Hcount by lia. auto 10.
  - intros i T Hi Hdead (Hcount & HszT). split; [| exact HszT].
    rewrite count_slots_take by lia. fold (slot t i). rewrite Hdead. lia.
  - intros i T w2 r2 T2 w3 Hi Hlive HT HTsv HabsT (Hcount & HszT & HtbT & HtsT)
      Hcall Hr2.
    destruct (Hcounts _ _ _ _ _ _ _ HT HTsv HszT HabsT Hcall Hr2)
      as (Hs & Hl & Ht & Hts).
    pose proof (count_slots_range is_tombstone (entries T2)).
    rewrite count_slots_take by lia. fold (slot t i). rewrite Hlive.
    unfold size_counts, tombstone_slots in *. lia.
  - intros s _. reflexivity.
  - apply empty_table_inv; lia.
  - intros s _ Hlive. unfold slot in Hlive. cbn in Hlive.
    rewrite entry_at_replicate in Hlive. discriminate.
  - intros k0 v0. split.
    + intros Hst. destruct (empty_table_stores_nothing _ _ _ _ _ Hst).
    + intros (s & Hs & _). lia.
  - unfold size_counts, live_slots, tombstone_slots. cbn.
    rewrite !count_slots_replicate by reflexivity. auto.
Qed.

(** [ht_set] of a key that is not stored, through a resize or not, counts
    it, and the tombstones do not grow. *)
Lemma ht_set_counts fall depth : counts_new_keys fall (ht_set fall depth).
Proof.
  induction depth as [| depth IH]; intros t k v w r t' w' Hinv Hsv Hsz Habs H Hr;
    rewrite (truth_ht_set _ _ _ _ _ _ _ _ _ H Hr) in H;
    apply ht_set_stores in H;
    destruct H as (Hk & t1 & w1 & Hplace & [(_ & -> & ->) | (_ & d & Hd & Hres)]);
    try discriminate.
  - destruct (place_counts _ _ _ _ _ _ (proj1 Hinv) Hsz Habs Hk Hplace)
      as (Hs & Hl & Ht & Hts).
    destruct Hinv as ((_ & _ & _ & Htb) & _). repeat split; lia.
  - destruct (place_counts _ _ _ _ _ _ (proj1 Hinv) Hsz Habs Hk Hplace)
      as (Hs & Hl & Ht & Hts).
    destruct Hinv as ((_ & _ & _ & Htb) & _). repeat split; lia.
  - injection Hd as <-. pose proof Hinv as (Hwf & _).
    pose proof Hwf as (Hcap & Hlen & _ & Htb).
    assert (Hc : 0 < size_t (capacity t * GROWTH_FACTOR) < 2 ^ 64).
    { pose proof (size_t_range (capacity t * GROWTH_FACTOR)).
      apply resize_table_with_true in Hres. lia. }
    destruct (resize_table_with_counts _ _ _ _ _ _ _ (ht_set_contents fall depth)
                IH Hinv Hsv Hc Hres)
      as (Hinv1 & Hsv1 & Hsame & Hcount & Hsz1 & Htb1 & Hts1).
    assert (Habs1 : absent t1 k).
    { destruct (stored_or_absent t1 k Hinv1) as [(v' & Hst) | Ha]; [| exact Ha].
      apply Hsame in Hst. destruct (stored_not_absent _ _ _ Hst Habs). }
    destruct (place_counts _ _ _ _ _ _ (proj1 Hinv1) Hsz1 Habs1 Hk Hplace)
      as (Hs & Hl & Ht & Hts).
    pose proof (count_slots_range is_tombstone (entries t)).
    unfold size_counts, tombstone_slots in *. repeat split; lia.
Qed.

(** Absence of a key, checked entry by entry. *)
Lemma absent_by_check t k :
  forallb (fun e => negb (holds k e)) (entries t) = true -> absent t k.
Proof.
  intros Hall s _. unfold slot, entry_at.
  destruct (entries t !! Z.to_nat s) as [e |] eqn:E; [| reflexivity].
  cbn. rewrite forallb_forall in Hall.
  apply list_elem_of_lookup_2, list_elem_of_In in E.
  apply negb_true_iff, Hall, E.
Qed.

(** X18.  Storing a key that the table does not hold adds one to what
    [ht_size] returns, whether or not the call resizes the table, and the
    count stays the number of keys stored. *)
Theorem set_new_key_counts_one fall depth t k v w r t' w' :
  table_inv t -> string_values t -> size_counts t -> absent t k ->
  ht_set fall depth t k v w = (r, t', w') -> truth fall r = Some true ->
  ht_size t' = ht_size t + 1 /\ size_counts t'.
Proof.
  intros Hinv Hsv Hsz Habs H Hr.
  destruct (ht_set_counts fall depth _ _ _ _ _ _ _ Hinv Hsv Hsz Habs H Hr)
    as (Hs & Hl & _).
  unfold ht_size, size_counts in *. split; [exact Hs | lia].
Qed.

Lemma set_new_key_counts_one_witness :
  let t := three_of_four true in
  let t' := table_of (ht_set true max_depth t 4 (str "d") world0) in
  (table_inv t /\ string_values t) /\ size_counts t /\ absent t 4
  /\ capacity t' = 2 * capacity t
  /\ ht_size t' = ht_size t + 1 /\ size_counts t'.
Proof.
  cbv zeta. destruct three_of_four_consistent as (Hinv & Hsv & _).
  assert (Hsz : size_counts (three_of_four true)) by (vm_compute; reflexivity).
  assert (Habs : absent (three_of_four true) 4)
    by (apply absent_by_check; vm_compute; reflexivity).
  split; [split; assumption |]. split; [exact Hsz |]. split; [exact Habs |].
  split; [vm_compute; reflexivity |].
  apply (set_new_key_counts_one true max_depth (three_of_four true) 4 (str "d")
           world0 NoReturn _ world0 Hinv Hsv Hsz Habs);
    vm_compute; reflexivity.
Defined.


(** X19.  A successful [ht_delete] takes one from what [ht_size] returns,
    and the count stays the number of keys stored. *)
Theorem delete_counts_one t k w t' w' :
  wf_table t -> size_counts t ->
  ht_delete t k w = (Return true, t', w') ->
  ht_size t' = ht_size t - 1 /\ size_counts t'.
Proof.
  intros Hwf Hsz H. pose proof Hwf as (_ & Hlen & Hsize & _).
  apply ht_delete_done in H.
  destruct H as (_ & Hfound & Hthere & Hent & _ & Hs & _).
  destruct (find_slot_range t k false Hwf) as [Hmax | Hr]; [congruence |].
  assert (Hlive : live_slots t' = live_slots t - 1).
  { unfold live_slots. rewrite Hent, count_slots_entry by lia.
    fold (slot t (find_slot t k false)).
    rewrite (holds_live _ _ Hthere). cbn. lia. }
  assert (Hpos : 1 <= live_slots t).
  { pose proof (count_slots_range is_live (entries t')) as Hrange.
    unfold live_slots in *. lia. }
  unfold ht_size, size_counts in *. rewrite Hs, Hlive.
  rewrite size_t_small by lia. lia.
Qed.

Lemma delete_counts_one_witness :
  let t := three_of_four true in
  let t' := table_of (ht_delete t 2 world0) in
  wf_table t /\ size_counts t
  /\ ht_size t' = ht_size t - 1 /\ size_counts t'.
Proof.
  cbv zeta. destruct three_of_four_consistent as ((Hwf & _) & _).
  assert (Hsz : size_counts (three_of_four true)) by (vm_compute; reflexivity).
  split; [exact Hwf |]. split; [exact Hsz |].
  apply (delete_counts_one (three_of_four true) 2 world0 _ world0 Hwf Hsz).
  vm_compute. reflexivity.
Defined.

Lemma overwritten_table_consistent : consistent overwritten_table.
Proof.
  unfold overwritten_table, set_all. cbn [fold_left fst snd].
  set (t1 := table_of (ht_set true max_depth (new_table 16) 42
                              (str "hello world") world0)).
  assert (H1 : consistent t1).
  { apply (consistent_set true max_depth (new_table 16) 42 (str "hello world")
                          world0 t1 world0).
    - apply new_table_consistent; lia.
    - vm_compute. reflexivity. }
  apply (consistent_set true max_depth t1 42 (str "goodbye world") world0 _
                        world0 H1).
  vm_compute. reflexivity.
Qed.

(** X20.  [resize_table], when it returns [true], recounts the table: the
    keys stored are as many as before, [size] is their number whatever it
    was before the call, the [tombstones] counter is 0 and no slot of the
    new array is a tombstone. *)
Theorem resize_recounts fall depth t w t' w' :
  table_inv t -> string_values t ->
  resize_table fall depth t (size_t (capacity t * GROWTH_FACTOR)) w
  = (Return true, t', w') ->
  ht_size t' = live_slots t' /\ live_slots t' = live_slots t
  /\ tombstones t' = 0 /\ tombstone_slots t' = 0.
Proof.
  intros Hinv Hsv H.
  assert (Hc : 0 < size_t (capacity t * GROWTH_FACTOR) < 2 ^ 64).
  { pose proof (size_t_range (capacity t * GROWTH_FACTOR)).
    pose proof Hinv as ((Hcap & _) & _).
    apply resize_table_with_true in H. lia. }
  destruct (resize_table_with_counts _ _ _ _ _ _ _ (ht_set_contents fall depth)
              (ht_set_counts fall depth) Hinv Hsv Hc H)
    as (_ & _ & _ & Hcount & Hsz & Htb & Hts).
  unfold ht_size, size_counts in *. repeat split; lia.
Qed.

Lemma resize_recounts_witness :
  let t := overwritten_table in
  let t' := table_of (resize_table true max_depth t 32 world0) in
  (table_inv t /\ string_values t)
  /\ (ht_size t = 2 /\ live_slots t = 1)
  /\ ht_size t' = live_slots t' /\ live_slots t' = live_slots t
  /\ tombstones t' = 0 /\ tombstone_slots t' = 0.
Proof.
  cbv zeta. destruct overwritten_table_consistent as (Hinv & Hsv & _).
  split; [split; assumption |].
  split; [split; vm_compute; reflexivity |].
  apply (resize_recounts true max_depth overwritten_table world0 _ world0
           Hinv Hsv).
  vm_compute. reflexivity.
Defined.

(** ** Loading what was saved *)

(** [ht_set] keeps the capacity or, at the load factor, doubles it. *)
Lemma ht_set_capacity fall depth t k v w t' w' :
  wf_table t -> ht_set fall depth t k v w = (NoReturn, t', w') ->
  capacity t' = capacity t
  \/ (load_factor_reached t = true /\ capacity t' = 2 * capacity t).
Proof.
  intros Hwf H. apply ht_set_stores in H.
  destruct H as (_ & t1 & w1 & Hplace & [(_ & -> & ->) | (Hl & d & _ & Hres)]);
    apply ht_set_place_stored in Hplace;
    destruct Hplace as (_ & _ & _ & _ & _ & Hcap & _).
  - left. exact Hcap.
  - right. split; [exact Hl |].
    apply resize_table_grows in Hres; [| exact Hwf].
    destruct Hres as (_ & Hc & _). lia.
Qed.

(** One pass of the loop of [kvs_load_from_file] over a record that
    [ht_set] stores. *)
Lemma load_loop_stores_record n t r more w t1 :
  heap w = [] -> loadable r ->
  ht_set true max_depth t (fst r) (Str (snd r)) w = (NoReturn, t1, w) ->
  load_loop true (S n) t (record_bytes r ++ more) w
  = load_loop true n t1 more w.
Proof.
  intros Hheap (Hint & _ & Hlen) Hset.
  assert (Hmax : MAX_VALUE_LEN = 100000) by reflexivity.
  rewrite load_loop_record by lia.
  destruct (Z.of_nat (length (snd r)) >? MAX_VALUE_LEN) eqn:E.
  { rewrite Z.gtb_ltb in E. apply Z.ltb_lt in E. lia. }
  rewrite (malloc_succeeds w Hheap), int32_of_uint32 by exact Hint.
  cbn [negb]. rewrite Hset, truth_no_return. reflexivity.
Qed.

(** The loop of [kvs_load_from_file] over records with distinct keys, none
    of them in the table: each is stored and counted, and the loop goes on
    with what follows them. *)
Lemma load_loop_stores_records c0 m more w :
  heap w = [] -> c0 < 2 ^ 63 ->
  forall rs t,
    consistent t -> size_counts t -> tombstones t = 0 ->
    capacity t <= Z.max c0 (4 * size t) ->
    size t + Z.of_nat (length rs) < 2 ^ 32 ->
    List.NoDup (map fst rs) ->
    (forall r, In r rs -> loadable r /\ absent t (fst r)) ->
    exists t',
      load_loop true (length rs + m) t (records_bytes rs ++ more) w
      = load_loop true m t' more w
      /\ consistent t' /\ size_counts t'
      /\ size t' = size t + Z.of_nat (length rs)
      /\ forall k v, stored t' k v <->
           stored t k v \/ exists b, In (k, b) rs /\ v = Str (c_string b).
Proof.
  intros Hheap Hc0. induction rs as [| r rs IH];
    intros t Hcons Hsz Htb Hcap Hlen Hnodup Hrs.
  - exists t. cbn [length records_bytes app Nat.add].
    split; [reflexivity |]. split; [exact Hcons |]. split; [exact Hsz |].
    split; [cbn; lia |]. intros k v. split; [auto |].
    intros [H | (b & [] & _)]. exact H.
  - destruct (Hrs r (or_introl eq_refl)) as (Hload & Habs).
    pose proof Hload as (Hint & Hk & Hv).
    pose proof Hcons as (Hinv & Hsv & Hcov). pose proof Hinv as (Hwf & _).
    pose proof Hwf as (_ & _ & Hsize & _).
    assert (Hrun : exists t1, ht_set true max_depth t (fst r) (Str (snd r)) w
                              = (NoReturn, t1, w)).
    { apply (ht_set_runs true 63 t (fst r) (snd r) w Hwf Hsv Hcov);
        [lia | exact Hk | exact Hheap | left; reflexivity]. }
    destruct Hrun as (t1 & Hset).
    pose proof (consistent_set _ _ _ _ _ _ _ _ Hcons Hset) as Hcons1.
    destruct (ht_set_counts true max_depth _ _ _ _ _ _ _ Hinv Hsv Hsz Habs Hset
                truth_no_return) as (Hs1 & Hl1 & Htb1).
    destruct (ht_set_stored_contents _ _ _ _ _ _ _ _ Hinv Hsv Hset)
      as (Hinv1 & _ & Hframe & b & Hb & Hnew).
    injection Hb as <-.
    assert (Hsz1 : size_counts t1) by (unfold size_counts in *; lia).
    assert (Hcap1 : capacity t1 <= Z.max c0 (4 * size t1)).
    { destruct (ht_set_capacity _ _ _ _ _ _ _ _ Hwf Hset) as [-> | (Hl & ->)];
        [lia |].
      unfold load_factor_reached in Hl. rewrite Htb, Z.add_0_r in Hl.
      rewrite size_t_small in Hl by lia.
      destruct (capacity t =? 0) eqn:E; [apply Z.eqb_eq in E; destruct Hwf; lia |].
      apply Z.leb_le in Hl. lia. }
    inversion Hnodup as [| ? ? Hnotin Hnodup']. subst.
    destruct (IH t1 Hcons1 Hsz1 ltac:(lia) Hcap1) as (t' & Hloop & Hc' & Hsz' & Hs' & Hst').
    + cbn [length] in Hlen. lia.
    + exact Hnodup'.
    + intros r' Hr'. destruct (Hrs r' (or_intror Hr')) as (Hload' & Habs').
      split; [exact Hload' |].
      assert (Hne : fst r' <> fst r).
      { intros E. apply Hnotin. rewrite <- E. apply in_map, Hr'. }
      destruct (stored_or_absent t1 (fst r') Hinv1) as [(v' & Hst) | Ha];
        [| exact Ha].
      apply (Hframe _ _ Hne) in Hst.
      destruct (stored_not_absent _ _ _ Hst Habs').
    + exists t'. rewrite length_cons, Nat.add_succ_l, records_bytes_cons.
      rewrite <- app_assoc.
      rewrite (load_loop_stores_record _ _ _ _ _ _ Hheap Hload Hset).
      split; [exact Hloop |]. split; [exact Hc' |]. split; [exact Hsz' |].
      split; [cbn [length]; lia |].
      intros k v. rewrite Hst'. split.
      * intros [Hst | (b & Hin & ->)].
        -- destruct (Z.eq_dec k (fst r)) as [-> | Hne].
           ++ right. exists (snd r). split; [left; destruct r; reflexivity |].
              apply (stored_unique _ _ _ _ Hinv1 Hst Hnew).
           ++ left. apply (Hframe _ _ Hne), Hst.
        -- right. exists b. split; [right; exact Hin | reflexivity].
      * intros [Hst | (b & [E | Hin] & ->)].
        -- left. apply Hframe; [| exact Hst].
           intros ->. destruct (stored_not_absent _ _ _ Hst Habs).
        -- left. rewrite E in Hnew. exact Hnew.
        -- right. exists b. auto.
Qed.

(** The keys of the stored entries are distinct. *)
Lemma live_pairs_keys_distinct es :
  (forall i j e e', es !! i = Some e -> es !! j = Some e' ->
     is_live e = true -> is_live e' = true -> key e = key e' -> i = j) ->
  List.NoDup (map fst (live_pairs es)).
Proof.
  induction es as [| e es IH]; intros H; cbn [live_pairs map].
  - apply List.NoDup_nil.
  - assert (Hrest : List.NoDup (map fst (live_pairs es))).
    { apply IH. intros i j x y Hi Hj Hx Hy Hk.
      assert (E : S i = S j) by exact (H (S i) (S j) x y Hi Hj Hx Hy Hk).
      lia. }
    destruct (is_live e) eqn:L; [| exact Hrest].
    cbn [map fst]. apply List.NoDup_cons; [| exact Hrest].
    intros Hin. apply in_map_iff in Hin. destruct Hin as (p & Hp & Hin).
    apply live_pairs_elem in Hin. destruct Hin as (j & e' & Hj & Hl & ->).
    cbn [fst] in Hp.
    assert (E : 0%nat = S j) by (apply (H 0%nat (S j) e e'); auto).
    discriminate.
Qed.

Lemma table_keys_distinct t :
  table_inv t -> List.NoDup (map fst (live_pairs (entries t))).
Proof.
  intros ((Hc & Hlen & _) & _ & Huniq). apply live_pairs_keys_distinct.
  intros i j e e' Hi Hj He He' Hk.
  pose proof (lookup_lt_Some _ _ _ Hi). pose proof (lookup_lt_Some _ _ _ Hj).
  assert (Hsi : slot t (Z.of_nat i) = e)
    by (unfold slot, entry_at; rewrite Nat2Z.id, Hi; reflexivity).
  assert (Hsj : slot t (Z.of_nat j) = e')
    by (unfold slot, entry_at; rewrite Nat2Z.id, Hj; reflexivity).
  apply Nat2Z.inj, Huniq; try lia; congruence.
Qed.

(** The records of the file are the contents of the table. *)
Lemma stored_record t k v :
  wf_table t -> string_values t ->
  stored t k v
  <-> exists b, In (k, b) (map pair_record (live_pairs (entries t)))
                /\ v = Str (c_string b).
Proof.
  intros Hwf Hsv. split.
  - intros (s & Hs & Hk & Hv).
    destruct (Hsv s Hs (holds_live _ _ Hk)) as (b & Hb & Hnorm).
    assert (E : v = Str b) by congruence. rewrite E in Hv |- *. clear E.
    exists b. split; [| congruence].
    apply in_map_iff. exists (k, Str b). split; [reflexivity |].
    apply (live_pairs_slot t _ Hwf). exists s. split; [exact Hs |].
    split; [apply (holds_live _ _ Hk) |].
    rewrite (holds_key _ _ Hk), Hv. reflexivity.
  - intros (b & Hin & ->). apply in_map_iff in Hin.
    destruct Hin as (p & Hp & Hin). apply (live_pairs_slot t _ Hwf) in Hin.
    destruct Hin as (s & Hs & Hlive & ->).
    destruct (Hsv s Hs Hlive) as (b' & Hb' & Hnorm).
    unfold pair_record in Hp. cbn [fst snd] in Hp. rewrite Hb' in Hp.
    injection Hp as <- <-. exists s. split; [exact Hs |].
    split; [apply holds_intro, Hlive | congruence].
Qed.

(** The records of a table with [int] keys and bounded values can be
    loaded. *)
Lemma saved_records_loadable t :
  wf_table t -> string_values t -> int_keys t -> bounded_values t ->
  forall r, In r (map pair_record (live_pairs (entries t))) -> loadable r.
Proof.
  intros Hwf Hsv Hint Hbound r Hr.
  apply in_map_iff in Hr. destruct Hr as (p & <- & Hp).
  apply (live_pairs_slot t _ Hwf) in Hp.
  destruct Hp as (s & Hs & Hlive & ->). unfold pair_record. cbn [fst snd].
  split; [apply (Hint s Hs Hlive) |].
  split; [apply (live_not_deleted _ Hlive) |].
  destruct (Hsv s Hs Hlive) as (b & Hb & _). rewrite Hb.
  apply (Hbound s b Hs Hb).
Qed.

(** Saving a table and loading the file into a new table: the records are
    all stored, and the loop goes on for as many passes as the [size]
    counter is ahead of the number of keys stored. *)
Lemma load_saved_file t w c w' :
  table_inv t -> string_values t -> int_keys t -> bounded_values t ->
  live_slots t <= size t < 2 ^ 32 -> 0 < c < 2 ^ 63 -> heap w' = [] ->
  exists file t',
    file = header_bytes (valid_header (uint32_t (size t)))
           ++ records_bytes (map pair_record (live_pairs (entries t)))
    /\ kvs_save_to_file t w = (Return true, file, kvs_clear_error w)
    /\ kvs_load_from_file true (new_table c) (Some file) w'
       = load_loop true (Z.to_nat (size t - live_slots t)) t' [] w'
    /\ table_inv t' /\ size t' = live_slots t
    /\ forall k w0, ht_get t' k w0 = ht_get t k w0.
Proof.
  intros Hinv Hsv Hint Hbound Hsize Hc Hheap. pose proof Hinv as (Hwf & _).
  assert (Hmax : MAX_VALUE_LEN = 100000) by reflexivity.
  set (rs := map pair_record (live_pairs (entries t))).
  assert (Hlen : Z.of_nat (length rs) = live_slots t).
  { unfold rs. rewrite length_map. apply live_pairs_length. }
  destruct (load_loop_stores_records c (Z.to_nat (size t - live_slots t)) [] w'
              Hheap ltac:(lia) rs (new_table c))
    as (t' & Hloop & (Hinv' & _) & _ & Hs' & Hst').
  - apply new_table_consistent. lia.
  - unfold size_counts, live_slots. cbn.
    rewrite count_slots_replicate by reflexivity. reflexivity.
  - reflexivity.
  - cbn. lia.
  - cbn. lia.
  - unfold rs. rewrite map_map.
    rewrite (map_ext _ fst) by (intros []; reflexivity).
    apply table_keys_distinct, Hinv.
  - intros r Hr. split.
    + apply (saved_records_loadable t Hwf Hsv Hint Hbound r Hr).
    + intros s Hs. unfold slot. cbn. rewrite entry_at_replicate. reflexivity.
  - exists (header_bytes (valid_header (uint32_t (size t))) ++ records_bytes rs), t'.
    split; [reflexivity |]. split.
    { assert (Hval : forall p, In p (live_pairs (entries t)) -> writable p).
      { apply (live_pairs_writable t Hwf Hsv). intros s b Hs Hb.
        pose proof (Hbound s b Hs Hb). lia. }
      unfold kvs_save_to_file, ht_iterator_init.
      rewrite (save_loop_records t Hwf Hval) by (destruct Hwf; lia).
      reflexivity. }
    split.
    { rewrite load_valid_header by reflexivity. cbn [entry_count valid_header].
      assert (Hu : uint32_t (uint32_t (size t)) = size t).
      { unfold uint32_t. rewrite Z.mod_mod by lia. apply Z.mod_small.
        pose proof (count_slots_range is_live (entries t)).
        unfold live_slots in *. lia. }
      rewrite Hu.
      replace (Z.to_nat (size t))
        with (length rs + Z.to_nat (size t - live_slots t))%nat by lia.
      rewrite <- (app_nil_r (records_bytes rs)). exact Hloop. }
    split; [exact Hinv' |]. split; [cbn in Hs'; lia |].
    intros k w0. apply ht_get_same; [exact Hinv | exact Hinv' |].
    intros v. rewrite Hst', (stored_record t k v Hwf Hsv). split.
    + intros [Hst | H]; [| exact H].
      destruct (empty_table_stores_nothing _ _ _ _ _ Hst).
    + auto.
Qed.

(** A property of the entries, checked entry by entry. *)
Lemma slots_by_check (P : ht_entry_t -> bool) t :
  wf_table t -> forallb P (entries t) = true ->
  forall s, 0 <= s < capacity t -> P (slot t s) = true.
Proof.
  intros (_ & Hlen & _) Hall s Hs. unfold slot, entry_at.
  destruct (entries t !! Z.to_nat s) as [e |] eqn:E.
  - cbn. rewrite forallb_forall in Hall.
    apply list_elem_of_lookup_2, list_elem_of_In in E. apply Hall, E.
  - apply lookup_ge_None in E. lia.
Qed.

Lemma int_keys_by_check t :
  wf_table t ->
  forallb (fun e => negb (is_live e)
                    || ((- 2 ^ 31 <=? key e) && (key e <? 2 ^ 31)))
          (entries t) = true ->
  int_keys t.
Proof.
  intros Hwf Hall s Hs Hlive.
  pose proof (slots_by_check _ t Hwf Hall s Hs) as H. cbn beta in H.
  rewrite Hlive in H. cbn [negb orb] in H.
  apply andb_true_iff in H. destruct H as [H1 H2].
  apply Z.leb_le in H1. apply Z.ltb_lt in H2. lia.
Qed.

Lemma bounded_values_by_check t :
  wf_table t ->
  forallb (fun e => match value e with
                    | Str b => Z.of_nat (length b) <=? MAX_VALUE_LEN
                    | _ => true
                    end) (entries t) = true ->
  bounded_values t.
Proof.
  intros Hwf Hall s b Hs Hv.
  pose proof (slots_by_check _ t Hwf Hall s Hs) as H. cbn beta in H.
  rewrite Hv in H. apply Z.leb_le, H.
Qed.

(** X21.  Save then load restores the table: a table whose [size] counter
    is the number of keys stored, with fewer than 2^32 of them, [int] keys
    and values of at most 100000 bytes, is saved by [kvs_save_to_file] to a
    file that [kvs_load_from_file] loads into a new table with [true], after
    which [ht_get] answers for every key as in the saved table and
    [ht_size] is the same.  (The value read from the missing [return] of
    [ht_set] is taken to be [true].) *)
Theorem save_then_load_restores t w c w' :
  table_inv t -> string_values t -> int_keys t -> bounded_values t ->
  size_counts t -> size t < 2 ^ 32 -> 0 < c < 2 ^ 63 -> heap w' = [] ->
  exists file t',
    kvs_save_to_file t w = (Return true, file, kvs_clear_error w)
    /\ kvs_load_from_file true (new_table c) (Some file) w'
       = (Return true, t', kvs_clear_error w')
    /\ (forall k w0, ht_get t' k w0 = ht_get t k w0)
    /\ ht_size t' = ht_size t.
Proof.
  intros Hinv Hsv Hint Hbound Hsz Hsize Hc Hheap. unfold size_counts in Hsz.
  destruct (load_saved_file t w c w' Hinv Hsv Hint Hbound ltac:(lia) Hc Hheap)
    as (file & t' & _ & Hsave & Hload & _ & Hs' & Hget).
  exists file, t'. split; [exact Hsave |].
  split; [| split; [exact Hget | unfold ht_size; lia]].
  rewrite Hload. replace (size t - live_slots t) with 0 by lia.
  apply load_loop_done.
Qed.

Lemma save_then_load_restores_witness :
  let t := three_of_four true in
  (table_inv t /\ string_values t /\ int_keys t /\ bounded_values t
   /\ size_counts t /\ size t < 2 ^ 32)
  /\ exists file t',
       kvs_save_to_file t world0 = (Return true, file, kvs_clear_error world0)
       /\ kvs_load_from_file true (new_table 16) (Some file) world0
          = (Return true, t', kvs_clear_error world0)
       /\ (forall k w0, ht_get t' k w0 = ht_get t k w0)
       /\ ht_size t' = ht_size t.
Proof.
  cbv zeta. destruct three_of_four_consistent as (Hinv & Hsv & _).
  assert (Hint : int_keys (three_of_four true))
    by (apply int_keys_by_check; [apply Hinv | vm_compute; reflexivity]).
  assert (Hbound : bounded_values (three_of_four true))
    by (apply bounded_values_by_check; [apply Hinv | vm_compute; reflexivity]).
  assert (Hsz : size_counts (three_of_four true)) by (vm_compute; reflexivity).
  assert (Hsize : size (three_of_four true) < 2 ^ 32)
    by (vm_compute; reflexivity).
  split; [auto 10 |].
  apply (save_then_load_restores (three_of_four true) world0 16 world0
           Hinv Hsv Hint Hbound Hsz Hsize); [lia | reflexivity].
Defined.

(** Where [ht_set] yields [false], the load of a file with a record ends
    at its first record. *)
Lemma load_loop_first_record_false n c r more w :
  0 < c < 2 ^ 63 -> heap w = [] -> loadable r ->
  exists t1,
    load_loop false (S n) (new_table c) (record_bytes r ++ more) w
    = (Return false, t1, w).
Proof.
  intros Hc Hheap (Hint & Hk & Hlen).
  assert (Hmax : MAX_VALUE_LEN = 100000) by reflexivity.
  destruct (new_table_consistent c ltac:(lia)) as ((Hwf & _) & Hsv & Hcov).
  assert (Hload : load_factor_reached (new_table c) = false).
  { unfold load_factor_reached. cbn [capacity size tombstones new_table].
    rewrite (proj2 (Z.eqb_neq c 0)) by lia. apply Z.leb_gt.
    replace (size_t (0 + 0)) with 0 by reflexivity. lia. }
  assert (Hrun : exists t1,
            ht_set false max_depth (new_table c) (fst r) (Str (snd r)) w
            = (NoReturn, t1, w)).
  { apply (ht_set_runs false 63 _ (fst r) (snd r) w Hwf Hsv Hcov);
      [cbn; lia | exact Hk | exact Hheap | right; exact Hload]. }
  destruct Hrun as (t1 & Hset). exists t1.
  rewrite load_loop_record by lia.
  destruct (Z.of_nat (length (snd r)) >? MAX_VALUE_LEN) eqn:E.
  { rewrite Z.gtb_ltb in E. apply Z.ltb_lt in E. lia. }
  rewrite (malloc_succeeds w Hheap), int32_of_uint32 by exact Hint.
  cbn [negb]. rewrite Hset. reflexivity.
Qed.

(** X22.  When the [size] counter is ahead of the number of keys stored (as
    after [ht_set] has overwritten a key), the file that [kvs_save_to_file]
    writes counts more records than it holds, and [kvs_load_from_file]
    returns [false] on it, whichever value is read from the missing
    [return] of [ht_set].  Where that value is [true], every record is
    stored, and the load then meets the end of the file:
    [KVS_ERROR_FILE_IO]. *)
Theorem stale_size_breaks_reload fall t w c w' :
  table_inv t -> string_values t -> int_keys t -> bounded_values t ->
  live_slots t < size t < 2 ^ 32 -> 0 < c < 2 ^ 63 -> heap w' = [] ->
  exists file,
    kvs_save_to_file t w = (Return true, file, kvs_clear_error w)
    /\ (exists t' w'',
          kvs_load_from_file fall (new_table c) (Some file) w'
          = (Return false, t', w''))
    /\ (fall = true ->
        exists t',
          kvs_load_from_file fall (new_table c) (Some file) w'
          = (Return false, t', kvs_set_error KVS_ERROR_FILE_IO w')
          /\ forall k w0, ht_get t' k w0 = ht_get t k w0).
Proof.
  intros Hinv Hsv Hint Hbound Hsize Hc Hheap. pose proof Hinv as (Hwf & _).
  destruct (load_saved_file t w c w' Hinv Hsv Hint Hbound ltac:(lia) Hc Hheap)
    as (file & t' & Hfile & Hsave & Hload & _ & _ & Hget).
  assert (Hstop : load_loop true (Z.to_nat (size t - live_slots t)) t' [] w'
                  = (Return false, t', kvs_set_error KVS_ERROR_FILE_IO w')).
  { replace (Z.to_nat (size t - live_slots t))
      with (S (Z.to_nat (size t - live_slots t - 1))) by lia.
    reflexivity. }
  exists file. split; [exact Hsave |]. split.
  - destruct fall.
    + exists t', (kvs_set_error KVS_ERROR_FILE_IO w').
      rewrite Hload. exact Hstop.
    + rewrite Hfile, load_valid_header by reflexivity.
      cbn [entry_count valid_header].
      assert (Hu : uint32_t (uint32_t (size t)) = size t).
      { unfold uint32_t. rewrite Z.mod_mod by lia. apply Z.mod_small.
        pose proof (count_slots_range is_live (entries t)).
        unfold live_slots in *. lia. }
      rewrite Hu.
      replace (Z.to_nat (size t)) with (S (Z.to_nat (size t - 1)))
        by (pose proof (count_slots_range is_live (entries t));
            unfold live_slots in *; lia).
      pose proof (saved_records_loadable t Hwf Hsv Hint Hbound) as Hrs.
      destruct (map pair_record (live_pairs (entries t))) as [| r rs].
      * exists (new_table c), (kvs_set_error KVS_ERROR_FILE_IO w').
        reflexivity.
      * destruct (load_loop_first_record_false (Z.to_nat (size t - 1)) c r
                    (records_bytes rs) w' Hc Hheap (Hrs r (or_introl eq_refl)))
          as (t1 & Hfirst).
        exists t1, w'. rewrite records_bytes_cons. exact Hfirst.
  - intros ->. exists t'. rewrite Hload. split; [exact Hstop | exact Hget].
Qed.

Lemma stale_size_breaks_reload_witness :
  let t := overwritten_table in
  (table_inv t /\ string_values t /\ int_keys t /\ bounded_values t
   /\ live_slots t = 1 /\ size t = 2)
  /\ forall fall,
       exists file,
         kvs_save_to_file t world0 = (Return true, file, kvs_clear_error world0)
         /\ (exists t' w'',
               kvs_load_from_file fall (new_table 16) (Some file) world0
               = (Return false, t', w''))
         /\ (fall = true ->
             exists t',
               kvs_load_from_file fall (new_table 16) (Some file) world0
               = (Return false, t', kvs_set_error KVS_ERROR_FILE_IO world0)
               /\ forall k w0, ht_get t' k w0 = ht_get t k w0).
Proof.
  cbv zeta. destruct overwritten_table_consistent as (Hinv & Hsv & _).
  assert (Hint : int_keys overwritten_table)
    by (apply int_keys_by_check; [apply Hinv | vm_compute; reflexivity]).
  assert (Hbound : bounded_values overwritten_table)
    by (apply bounded_values_by_check; [apply Hinv | vm_compute; reflexivity]).
  assert (Hlive : live_slots overwritten_table = 1) by (vm_compute; reflexivity).
  assert (Hsize : size overwritten_table = 2) by (vm_compute; reflexivity).
  split; [auto 10 |]. intros fall.
  apply (stale_size_breaks_reload fall overwritten_table world0 16 world0
           Hinv Hsv Hint Hbound); [lia | lia | reflexivity].
Defined.

(** ** The table as a finite map *)

Lemma record_stored t k b :
  wf_table t -> string_values t ->
  In (k, b) (map pair_record (live_pairs (entries t))) <-> stored t k (Str b).
Proof.
  intros Hwf Hsv. split.
  - intros Hin. apply in_map_iff in Hin. destruct Hin as (p & Hp & Hin).
    apply (live_pairs_slot t _ Hwf) in Hin.
    destruct Hin as (s & Hs & Hlive & ->).
    destruct (Hsv s Hs Hlive) as (b' & Hb' & _).
    unfold pair_record in Hp. cbn [fst snd] in Hp. rewrite Hb' in Hp.
    injection Hp as <- <-. exists s. split; [exact Hs |].
    split; [apply holds_intro, Hlive | exact Hb'].
  - intros (s & Hs & Hk & Hv). apply in_map_iff. exists (k, Str b).
    split; [reflexivity |]. apply (live_pairs_slot t _ Hwf). exists s.
    split; [exact Hs |]. split; [apply (holds_live _ _ Hk) |].
    rewrite (holds_key _ _ Hk), Hv. reflexivity.
Qed.

Lemma fmap_fst_map {A B} (l : list (A * B)) : l.*1 = map fst l.
Proof. induction l as [| x l IH]; [reflexivity |]. cbn. rewrite IH. reflexivity. Qed.

Lemma records_distinct t :
  table_inv t -> NoDup (map pair_record (live_pairs (entries t))).*1.
Proof.
  intros Hinv. rewrite fmap_fst_map, map_map.
  rewrite (map_ext _ fst) by (intros []; reflexivity).
  apply NoDup_ListNoDup, table_keys_distinct, Hinv.
Qed.

(** The map holds what the table stores. *)
Lemma contents_lookup t k b :
  table_inv t -> string_values t ->
  contents t !! k = Some b <-> stored t k (Str b).
Proof.
  intros Hinv Hsv. unfold contents.
  rewrite <- (elem_of_list_to_map _ _ _ (records_distinct t Hinv)).
  rewrite list_elem_of_In. apply record_stored; [apply Hinv | exact Hsv].
Qed.

Lemma contents_none t k :
  table_inv t -> string_values t -> contents t !! k = None <-> absent t k.
Proof.
  intros Hinv Hsv. split.
  - intros Hnone. destruct (stored_or_absent t k Hinv) as [(v & Hst) | Ha];
      [| exact Ha].
    pose proof Hst as (s & Hs & Hk & Hv).
    destruct (Hsv s Hs (holds_live _ _ Hk)) as (b & Hb & _).
    assert (E : v = Str b) by congruence. rewrite E in Hst.
    apply (contents_lookup t k b Hinv Hsv) in Hst. congruence.
  - intros Ha. destruct (contents t !! k) as [b |] eqn:E; [| reflexivity].
    apply (contents_lookup t k b Hinv Hsv) in E.
    destruct (stored_not_absent _ _ _ E Ha).
Qed.

(** Tables that store the same have the same map. *)
Lemma contents_eq t' (m : gmap Z (list byte)) :
  table_inv t' -> string_values t' ->
  (forall k b, stored t' k (Str b) <-> m !! k = Some b) ->
  contents t' = m.
Proof.
  intros Hinv Hsv H. apply map_eq. intros k. apply option_eq. intros b.
  rewrite (contents_lookup t' k b Hinv Hsv). apply H.
Qed.

(** [ht_delete] of a key that is stored. *)
Lemma ht_delete_stored t k b w :
  table_inv t -> stored t k (Str b) ->
  exists t', ht_delete t k w = (Return true, t', kvs_clear_error w).
Proof.
  intros Hinv (s & Hs & Hk & Hv). pose proof Hinv as (Hwf & _).
  destruct (stored_passed t s Hinv Hs (holds_live _ _ Hk)) as (d & Hd & Hps & Hp).
  rewrite (holds_key _ _ Hk) in Hps, Hp.
  assert (Hkd : holds k (slot t (probe t k d)) = true) by (rewrite Hps; exact Hk).
  pose proof (find_slot_found t k false d Hwf Hd Hp Hkd) as Hfind.
  pose proof (holds_live _ _ Hk) as Hlive.
  pose proof (live_not_deleted _ Hlive) as Hnd.
  pose proof (holds_key _ _ Hk) as Hkey. rewrite Hkey in Hnd.
  unfold ht_delete. rewrite (proj2 (Z.eqb_neq _ _) Hnd).
  rewrite Hfind, probe_not_max by exact Hwf.
  fold (slot t (probe t k d)). rewrite Hps.
  rewrite (live_occupied _ Hlive), Hkey, Z.eqb_refl.
  rewrite (proj2 (Z.eqb_neq _ _) Hnd), Hv. cbn [negb orb].
  eexists. reflexivity.
Qed.

(** X23.  [ht_get] is the lookup in the map of the table: the value stored
    under the key, with the error cleared, or [NULL] with
    [KVS_ERROR_KEY_NOT_FOUND] when the key is not stored. *)
Theorem get_is_lookup t k w :
  table_inv t -> string_values t -> k <> DELETED_KEY ->
  ht_get t k w
  = match contents t !! k with
    | Some b => (Str b, kvs_clear_error w)
    | None => (NULL, kvs_set_error KVS_ERROR_KEY_NOT_FOUND w)
    end.
Proof.
  intros Hinv Hsv Hk. destruct (contents t !! k) as [b |] eqn:E.
  - apply (contents_lookup t k b Hinv Hsv) in E.
    apply (ht_get_stored _ _ _ _ Hinv E).
  - apply (contents_none t k Hinv Hsv) in E.
    apply (ht_get_absent t k w (proj1 Hinv) Hk E).
Qed.

Lemma get_is_lookup_witness :
  (table_inv tombstone_table /\ string_values tombstone_table)
  /\ contents tombstone_table !! 4 = Some (list_byte_of_string "four")
  /\ contents tombstone_table !! 100 = None
  /\ ht_get tombstone_table 4 world0 = (str "four", world0)
  /\ ht_get tombstone_table 100 world0
     = (NULL, kvs_set_error KVS_ERROR_KEY_NOT_FOUND world0).
Proof.
  destruct tombstone_table_consistent as (Hinv & Hsv & _).
  assert (H4 : contents tombstone_table !! 4 = Some (list_byte_of_string "four"))
    by (vm_compute; reflexivity).
  assert (H100 : contents tombstone_table !! 100 = None)
    by (vm_compute; reflexivity).
  split; [split; assumption |]. split; [exact H4 |]. split; [exact H100 |].
  split.
  - rewrite (get_is_lookup tombstone_table 4 world0 Hinv Hsv), H4;
      [reflexivity | discriminate].
  - rewrite (get_is_lookup tombstone_table 100 world0 Hinv Hsv), H100;
      [reflexivity | discriminate].
Defined.

(** X24.  A run of [ht_set] that stores its entry is the insertion into the
    map of the table, of the value up to its first NUL, whether or not the
    table is resized. *)
Theorem set_is_insert fall depth t k b w t' w' :
  table_inv t -> string_values t ->
  ht_set fall depth t k (Str b) w = (NoReturn, t', w') ->
  contents t' = <[k := c_string b]> (contents t).
Proof.
  intros Hinv Hsv H.
  destruct (ht_set_stored_contents _ _ _ _ _ _ _ _ Hinv Hsv H)
    as (Hinv' & Hsv' & Hframe & b0 & Hb & Hnew).
  injection Hb as <-.
  apply (contents_eq t' _ Hinv' Hsv'). intros k' x.
  destruct (Z.eq_dec k' k) as [-> | Hne].
  - rewrite lookup_insert_eq. split.
    + intros Hst. pose proof (stored_unique _ _ _ _ Hinv' Hst Hnew). congruence.
    + intros E. injection E as <-. exact Hnew.
  - rewrite lookup_insert_ne by congruence.
    rewrite (Hframe _ _ Hne). symmetry. apply (contents_lookup t k' x Hinv Hsv).
Qed.

Lemma set_is_insert_witness :
  let t := three_of_four true in
  let t' := table_of (ht_set true max_depth t 4 (str "d") world0) in
  (table_inv t /\ string_values t)
  /\ capacity t' = 2 * capacity t
  /\ contents t' = <[4 := list_byte_of_string "d"]> (contents t).
Proof.
  cbv zeta. destruct three_of_four_consistent as (Hinv & Hsv & _).
  split; [split; assumption |]. split; [vm_compute; reflexivity |].
  apply (set_is_insert true max_depth (three_of_four true) 4
           (list_byte_of_string "d") world0 _ world0 Hinv Hsv).
  vm_compute. reflexivity.
Defined.

(** X25.  [ht_delete] is the deletion from the map of the table: it returns
    [true] exactly when the key is stored, and then removes that key and no
    other; otherwise it returns [false] with [KVS_ERROR_KEY_NOT_FOUND] and
    leaves the table as it is. *)
Theorem delete_is_delete t k w :
  table_inv t -> string_values t -> k <> DELETED_KEY ->
  match contents t !! k with
  | Some _ =>
    exists t', ht_delete t k w = (Return true, t', kvs_clear_error w)
               /\ contents t' = delete k (contents t)
  | None =>
    ht_delete t k w = (Return false, t, kvs_set_error KVS_ERROR_KEY_NOT_FOUND w)
  end.
Proof.
  intros Hinv Hsv Hk. destruct (contents t !! k) as [b |] eqn:E.
  - apply (contents_lookup t k b Hinv Hsv) in E.
    destruct (ht_delete_stored t k b w Hinv E) as (t' & Hdel).
    exists t'. split; [exact Hdel |].
    destruct (ht_delete_inv _ _ _ _ _ Hinv Hdel) as (Hinv' & Hgone).
    destruct (ht_delete_contents _ _ _ _ _ Hinv Hdel) as (Hframe & Hsv').
    apply (contents_eq t' _ Hinv' (Hsv' Hsv)). intros k' x.
    destruct (Z.eq_dec k' k) as [-> | Hne].
    + rewrite lookup_delete_eq. split; [| discriminate].
      intros Hst. destruct (stored_not_absent _ _ _ Hst Hgone).
    + rewrite lookup_delete_ne by congruence.
      rewrite (Hframe _ _ Hne). symmetry. apply (contents_lookup t k' x Hinv Hsv).
  - apply (contents_none t k Hinv Hsv) in E.
    apply (ht_get_absent t k w (proj1 Hinv) Hk E).
Qed.

Lemma delete_is_delete_witness :
  let t := three_of_four true in
  (table_inv t /\ string_values t)
  /\ contents t !! 2 = Some (list_byte_of_string "b")
  /\ exists t', ht_delete t 2 world0 = (Return true, t', world0)
                /\ contents t' = delete 2 (contents t).
Proof.
  cbv zeta. destruct three_of_four_consistent as (Hinv & Hsv & _).
  assert (H2 : contents (three_of_four true) !! 2
               = Some (list_byte_of_string "b")) by (vm_compute; reflexivity).
  split; [split; assumption |]. split; [exact H2 |].
  pose proof (delete_is_delete (three_of_four true) 2 world0 Hinv Hsv
                ltac:(discriminate)) as H.
  rewrite H2 in H. exact H.
Defined.

(** X26.  When [size] counts the keys stored, [ht_size] is the number of
    keys of the map of the table, and a new table has the empty map. *)
Theorem size_is_map_size t :
  table_inv t -> size_counts t ->
  ht_size t = Z.of_nat (stdpp.base.size (contents t)).
Proof.
  intros Hinv Hsz. unfold ht_size, contents.
  rewrite (map_size_list_to_map _ (records_distinct t Hinv)).
  rewrite length_map, live_pairs_length. exact Hsz.
Qed.

Lemma size_is_map_size_witness :
  table_inv (three_of_four true) /\ size_counts (three_of_four true)
  /\ ht_size (three_of_four true) = 3
  /\ stdpp.base.size (contents (three_of_four true)) = 3%nat.
Proof.
  destruct three_of_four_consistent as (Hinv & _).
  assert (Hsz : size_counts (three_of_four true)) by (vm_compute; reflexivity).
  pose proof (size_is_map_size (three_of_four true) Hinv Hsz) as H.
  split; [exact Hinv |]. split; [exact Hsz |].
  assert (H3 : ht_size (three_of_four true) = 3) by (vm_compute; reflexivity).
  split; [exact H3 |]. lia.
Defined.

(** ** [trim_whitespaces] *)

Lemma skip_spaces_split s :
  exists l, s = l ++ skip_spaces s /\ forallb isspace l = true.
Proof.
  induction s as [| b s (l & Hs & Hl)]; [exists []; auto |].
  cbn [skip_spaces]. destruct (isspace b) eqn:E.
  - exists (b :: l). cbn. rewrite E, Hl. split; [congruence | reflexivity].
  - exists []. auto.
Qed.

Lemma skip_spaces_head s b str :
  skip_spaces s = b :: str -> isspace b = false.
Proof.
  induction s as [| c s IH]; [discriminate |]. cbn [skip_spaces].
  destruct (isspace c) eqn:E; [exact IH |]. intros H. congruence.
Qed.

Lemma skip_spaces_fixed b str :
  isspace b = false -> skip_spaces (b :: str) = b :: str.
Proof. intros H. cbn. rewrite H. reflexivity. Qed.

Lemma take_nth (str : list byte) e :
  (e < length str)%nat -> take (S e) str = take e str ++ [nth e str x00].
Proof.
  intros He. destruct (str !! e) as [b |] eqn:E.
  - rewrite (take_S_r _ _ _ E), nth_lookup, E. reflexivity.
  - apply lookup_ge_None in E. lia.
Qed.

(** The loop from the end stops on the first byte or on a byte that is no
    space, and has gone back over spaces only. *)
Lemma trailing_spaces_spec str e :
  (e < length str)%nat ->
  (trailing_spaces str e <= e)%nat
  /\ (trailing_spaces str e = 0%nat
      \/ isspace (nth (trailing_spaces str e) str x00) = false)
  /\ exists r, take (S e) str = take (S (trailing_spaces str e)) str ++ r
               /\ forallb isspace r = true.
Proof.
  induction e as [| e IH]; intros He.
  - cbn [trailing_spaces]. split; [lia |]. split; [left; reflexivity |].
    exists []. rewrite app_nil_r. auto.
  - cbn [trailing_spaces]. destruct (isspace (nth (S e) str x00)) eqn:E.
    + destruct (IH ltac:(lia)) as (Hle & Hstop & r & Hr & Hsp).
      split; [lia |]. split; [exact Hstop |].
      exists (r ++ [nth (S e) str x00]).
      rewrite (take_nth str (S e) He), Hr, <- app_assoc.
      split; [reflexivity |]. rewrite forallb_app, Hsp. cbn. rewrite E. reflexivity.
    + split; [lia |]. split; [right; exact E |].
      exists []. rewrite app_nil_r. auto.
Qed.

Lemma trailing_spaces_fixed str e :
  isspace (nth e str x00) = false -> trailing_spaces str e = e.
Proof. destruct e as [| e]; [reflexivity |]. cbn. intros ->. reflexivity. Qed.

Lemma c_string_fixed s : Forall (fun b => b <> x00) s -> c_string s = s.
Proof.
  induction 1 as [| b s Hb _ IH]; [reflexivity |]. cbn [c_string].
  destruct (Byte.eqb b x00) eqn:E; [apply Byte.byte_dec_bl in E; contradiction |].
  rewrite IH. reflexivity.
Qed.

Lemma c_string_no_nul s : Forall (fun b => b <> x00) (c_string s).
Proof.
  induction s as [| b s IH]; [constructor |]. cbn [c_string].
  destruct (Byte.eqb b x00) eqn:E; [constructor |].
  constructor; [| exact IH]. intros ->. discriminate.
Qed.

(** The string returned, inside the string given. *)
Lemma trim_whitespaces_inside s :
  exists l r, c_string s = l ++ trim_whitespaces s ++ r
    /\ forallb isspace l = true /\ forallb isspace r = true
    /\ (forall b, head (trim_whitespaces s) = Some b -> isspace b = false)
    /\ (forall b, last (trim_whitespaces s) = Some b -> isspace b = false).
Proof.
  unfold trim_whitespaces.
  destruct (skip_spaces_split (c_string s)) as (l & Hl & Hsp).
  destruct (skip_spaces (c_string s)) as [| b0 str] eqn:Hskip.
  - exists l, []. rewrite Hl. split; [reflexivity |]. split; [exact Hsp |].
    split; [reflexivity |]. split; discriminate.
  - pose proof (skip_spaces_head _ _ _ Hskip) as Hb0.
    set (e := trailing_spaces (b0 :: str) (length (b0 :: str) - 1)).
    assert (He : (length (b0 :: str) - 1 < length (b0 :: str))%nat)
      by (cbn [length]; lia).
    destruct (trailing_spaces_spec (b0 :: str) _ He) as (Hle & Hstop & r & Hr & Hrs).
    fold e in Hle, Hstop, Hr.
    replace (S (length (b0 :: str) - 1)) with (length (b0 :: str)) in Hr
      by (cbn [length]; lia).
    rewrite firstn_all in Hr.
    exists l, r. rewrite Hl. split; [rewrite <- Hr; reflexivity |].
    split; [exact Hsp |]. split; [exact Hrs |]. split.
    + cbn. intros b [= <-]. exact Hb0.
    + intros b Hlast. rewrite last_lookup, length_take in Hlast.
      cbn [length] in Hle.
      replace (Nat.pred (S e `min` length (b0 :: str))) with e in Hlast
        by (cbn [length]; lia).
      rewrite lookup_take_lt in Hlast by lia.
      destruct Hstop as [H0 | Hns].
      * rewrite H0 in Hlast. cbn in Hlast. congruence.
      * rewrite nth_lookup, Hlast in Hns. exact Hns.
Qed.

(** X27.  [trim_whitespaces] returns the part of the string between its
    leading and its trailing white space: what it cuts off at either end is
    white space only, and what it returns neither begins nor ends with white
    space (it is empty when the string holds nothing else).  Trimming twice
    is trimming once. *)
Theorem trim_whitespaces_spec s :
  (exists l r, c_string s = l ++ trim_whitespaces s ++ r
     /\ forallb isspace l = true /\ forallb isspace r = true
     /\ (forall b, head (trim_whitespaces s) = Some b -> isspace b = false)
     /\ (forall b, last (trim_whitespaces s) = Some b -> isspace b = false))
  /\ trim_whitespaces (trim_whitespaces s) = trim_whitespaces s.
Proof.
  split; [apply trim_whitespaces_inside |].
  destruct (trim_whitespaces_inside s) as (l & r & Hs & _ & _ & Hhead & Hlast).
  assert (Hnul : Forall (fun b => b <> x00) (trim_whitespaces s)).
  { pose proof (c_string_no_nul s) as H. rewrite Hs in H.
    apply Forall_app in H. destruct H as [_ H].
    apply Forall_app in H. apply H. }
  destruct (trim_whitespaces s) as [| b0 str] eqn:E; [reflexivity |].
  unfold trim_whitespaces. rewrite (c_string_fixed _ Hnul).
  rewrite (skip_spaces_fixed b0 str (Hhead b0 eq_refl)).
  rewrite trailing_spaces_fixed.
  - replace (S (length (b0 :: str) - 1)) with (length (b0 :: str))
      by (cbn [length]; lia).
    apply firstn_all.
  - rewrite nth_lookup. rewrite last_lookup in Hlast.
    replace (length (b0 :: str) - 1)%nat with (Nat.pred (length (b0 :: str)))
      by lia.
    destruct ((b0 :: str) !! Nat.pred (length (b0 :: str))) as [b |] eqn:El.
    + apply (Hlast b eq_refl).
    + apply lookup_ge_None in El. cbn [length] in El. lia.
Qed.

(** ** The missing [return] of [ht_set], seen from [kvs_load_from_file] *)

(** X28.  [kvs_load_from_file] tests the result of [ht_set] for every
    record.  Where the value read from the missing [return] of [ht_set] is
    [false], the load of a well-formed file stops at its first record and
    returns [false], although [ht_set] has stored that record, and no error
    is recorded. *)
Theorem load_stops_where_set_yields_false t count r more w :
  consistent t -> capacity t < 2 ^ 63 -> load_factor_reached t = false ->
  loadable r -> 0 < count < 2 ^ 32 -> heap w = [] ->
  exists t1,
    kvs_load_from_file false t
      (Some (header_bytes (valid_header count) ++ record_bytes r ++ more)) w
    = (Return false, t1, w)
    /\ forall w0, ht_get t1 (fst r) w0
                  = (Str (c_string (snd r)), kvs_clear_error w0).
Proof.
  intros (Hinv & Hsv & Hcov) Hcap Hload (Hint & Hk & Hlen) Hcount Hheap.
  pose proof Hinv as (Hwf & _).
  assert (Hmax : MAX_VALUE_LEN = 100000) by reflexivity.
  assert (Hrun : exists t1, ht_set false max_depth t (fst r) (Str (snd r)) w
                            = (NoReturn, t1, w)).
  { apply (ht_set_runs false 63 t (fst r) (snd r) w Hwf Hsv Hcov Hcap Hk Hheap).
    right. exact Hload. }
  destruct Hrun as (t1 & Hset). exists t1. split.
  - rewrite load_valid_header by reflexivity. cbn [entry_count valid_header].
    replace (Z.to_nat (uint32_t count))
      with (S (Z.to_nat (uint32_t count) - 1))
      by (unfold uint32_t; rewrite Z.mod_small by lia; lia).
    rewrite load_loop_record by lia.
    destruct (Z.of_nat (length (snd r)) >? MAX_VALUE_LEN) eqn:E.
    { rewrite Z.gtb_ltb in E. apply Z.ltb_lt in E. lia. }
    rewrite (malloc_succeeds w Hheap), int32_of_uint32 by exact Hint.
    cbn [negb]. rewrite Hset. reflexivity.
  - intros w0. apply (ht_get_after_set _ _ _ _ _ _ _ _ Hwf Hset).
Qed.

Lemma load_stops_where_set_yields_false_witness :
  let r := (7, list_byte_of_string "seven") in
  (consistent (new_table 16) /\ load_factor_reached (new_table 16) = false
   /\ loadable r)
  /\ exists t1,
       kvs_load_from_file false (new_table 16)
         (Some (header_bytes (valid_header 1) ++ record_bytes r ++ [])) world0
       = (Return false, t1, world0)
       /\ forall w0, ht_get t1 7 w0 = (str "seven", kvs_clear_error w0).
Proof.
  cbv zeta.
  assert (Hc : consistent (new_table 16)) by (apply new_table_consistent; lia).
  assert (Hl : loadable (7, list_byte_of_string "seven")).
  { split; [cbn; lia |]. split; [discriminate |]. vm_compute. discriminate. }
  split; [split; [exact Hc |]; split; [reflexivity | exact Hl] |].
  apply (load_stops_where_set_yields_false (new_table 16) 1
           (7, list_byte_of_string "seven") [] world0 Hc);
    [cbn; lia | reflexivity | exact Hl | lia | reflexivity].
Defined.

(** ** The files [kvs_load_from_file] accepts *)

(** X29.  A file made of a header with the magic number, the version and
    the number of its records, followed by records with distinct [int] keys
    other than the reserved one and values of at most 100000 bytes, is
    loaded by [kvs_load_from_file] into a new table with result [true]:
    the map of the table is then the map of the records, each value up to
    its first NUL, and [ht_size] is their number.  (The value read from the
    missing [return] of [ht_set] is taken to be [true].) *)
Theorem load_well_formed_file c rs w :
  0 < c < 2 ^ 63 -> heap w = [] ->
  Z.of_nat (length rs) < 2 ^ 32 ->
  List.NoDup (map fst rs) -> (forall r, In r rs -> loadable r) ->
  exists t',
    kvs_load_from_file true (new_table c)
      (Some (header_bytes (valid_header (Z.of_nat (length rs)))
             ++ records_bytes rs)) w
    = (Return true, t', kvs_clear_error w)
    /\ contents t'
       = list_to_map (map (fun r => (fst r, c_string (snd r))) rs)
    /\ ht_size t' = Z.of_nat (length rs).
Proof.
  intros Hc Hheap Hlen Hnodup Hrs.
  destruct (load_loop_stores_records c 0 [] w Hheap ltac:(lia) rs (new_table c))
    as (t' & Hloop & (Hinv' & Hsv' & _) & _ & Hs' & Hst').
  - apply new_table_consistent. lia.
  - unfold size_counts, live_slots. cbn.
    rewrite count_slots_replicate by reflexivity. reflexivity.
  - reflexivity.
  - cbn. lia.
  - cbn. lia.
  - exact Hnodup.
  - intros r Hr. split; [apply Hrs, Hr |].
    intros s Hs. unfold slot. cbn. rewrite entry_at_replicate. reflexivity.
  - exists t'. split; [| split; [| exact Hs']].
    + rewrite load_valid_header by reflexivity. cbn [entry_count valid_header].
      unfold uint32_t. rewrite Z.mod_small, Nat2Z.id by lia.
      rewrite app_nil_r, Nat.add_0_r, load_loop_done in Hloop. exact Hloop.
    + apply (contents_eq t' _ Hinv' Hsv'). intros k x.
      assert (Hd : NoDup (map (fun r : Z * list byte => (fst r, c_string (snd r)))
                              rs).*1).
      { rewrite fmap_fst_map, map_map. cbn [fst].
        apply NoDup_ListNoDup, Hnodup. }
      rewrite <- (elem_of_list_to_map _ _ _ Hd), list_elem_of_In, in_map_iff.
      rewrite Hst'. split.
      * intros [Hst | (b & Hin & E)].
        -- destruct (empty_table_stores_nothing _ _ _ _ _ Hst).
        -- injection E as ->. exists (k, b). auto.
      * intros ([k0 b] & E & Hin). cbn [fst snd] in E. injection E as -> <-.
        right. exists b. auto.
Qed.

Lemma load_well_formed_file_witness :
  let rs := [(1, list_byte_of_string "one"); (-2, list_byte_of_string "")] in
  (List.NoDup (map fst rs) /\ forall r, In r rs -> loadable r)
  /\ exists t',
       kvs_load_from_file true (new_table 16)
         (Some (header_bytes (valid_header 2) ++ records_bytes rs)) world0
       = (Return true, t', world0)
       /\ contents t'
          = list_to_map (map (fun r => (fst r, c_string (snd r))) rs)
       /\ ht_size t' = 2.
Proof.
  cbv zeta.
  assert (Hd : List.NoDup (map fst [(1, list_byte_of_string "one");
                                    (-2, list_byte_of_string "")])).
  { cbn. apply List.NoDup_cons; [intros [H | []]; discriminate |].
    apply List.NoDup_cons; [intros [] | apply List.NoDup_nil]. }
  assert (Hl : forall r, In r [(1, list_byte_of_string "one");
                               (-2, list_byte_of_string "")] -> loadable r).
  { intros r [<- | [<- | []]]; (split; [cbn; lia |]);
      (split; [discriminate | vm_compute; discriminate]). }
  split; [split; assumption |].
  apply (load_well_formed_file 16 [(1, list_byte_of_string "one");
                                   (-2, list_byte_of_string "")] world0);
    [lia | reflexivity | cbn; lia | exact Hd | exact Hl].
Defined.

(** ** Runs that store, and the value read from the missing [return] *)

(** A resize that returns [true] where the re-insertions read as [false]
    has re-inserted nothing: it is the same resize where they read as
    [true]. *)
Lemma resize_loop_reads_nothing set set' :
  (forall T k v w T' w', set T k v w <> (Return true, T', w')) ->
  forall n i old oc T w T' w',
    resize_loop false set n i old oc T w = (Return true, T', w') ->
    resize_loop true set' n i old oc T w = (Return true, T', w').
Proof.
  intros Hset. induction n as [| n IH]; intros i old oc T w T' w' H;
    [exact H |].
  cbn [resize_loop] in H |- *.
  destruct (occupied (entry_at old i)
            && negb (key (entry_at old i) =? DELETED_KEY)).
  - destruct (set T (key (entry_at old i)) (value (entry_at old i)) w)
      as [[r T1] w1] eqn:Hcall.
    destruct r as [[] | |]; cbn [truth] in H; try discriminate.
    destruct (Hset _ _ _ _ _ _ Hcall).
  - apply IH, H.
Qed.

(** X30.  A run of [ht_set] that stores its entry where the value read from
    the missing [return] is [false] is the same run where that value is
    [true]: it has read no such value (its resize, if there was one, met no
    stored entry). *)
Theorem storing_run_reads_nothing depth t k v w t' w' :
  ht_set false depth t k v w = (NoReturn, t', w') ->
  ht_set true depth t k v w = (NoReturn, t', w').
Proof.
  intros H. apply ht_set_stores in H.
  destruct H as (Hk & t1 & w1 & Hplace & [(Hl & -> & ->) | (Hl & d & -> & Hres)]);
    pose proof (ht_set_place_stored _ _ _ _ _ _ Hplace) as (b & -> & _).
  - rewrite (ht_set_without_resize true depth t k b w Hk Hl). exact Hplace.
  - rewrite (ht_set_with_resize true d t k b w Hk Hl).
    assert (Hres' : resize_table_with true (ht_set true d) t
                      (size_t (capacity t * GROWTH_FACTOR)) w
                    = (Return true, t1, w1)).
    { unfold resize_table, resize_table_with in Hres |- *.
      destruct (size_t (capacity t * GROWTH_FACTOR) <=? capacity t);
        [discriminate |].
      destruct (malloc w) as [[] w0]; cbn [negb] in Hres |- *;
        [| discriminate].
      apply (resize_loop_reads_nothing (ht_set false d) (ht_set true d));
        [| exact Hres].
      intros T k0 v0 w2 T' w3. apply ht_set_not_true. }
    rewrite Hres'. exact Hplace.
Qed.

Lemma storing_run_reads_nothing_witness :
  ht_set false max_depth (new_table 16) 42 (str "x") world0
  = (NoReturn,
     table_of (ht_set false max_depth (new_table 16) 42 (str "x") world0),
     world0)
  /\ ht_set true max_depth (new_table 16) 42 (str "x") world0
     = (NoReturn,
        table_of (ht_set false max_depth (new_table 16) 42 (str "x") world0),
        world0).
Proof.
  assert (H : ht_set false max_depth (new_table 16) 42 (str "x") world0
              = (NoReturn,
                 table_of (ht_set false max_depth (new_table 16) 42 (str "x")
                                  world0),
                 world0)) by (vm_compute; reflexivity).
  split; [exact H |].
  exact (storing_run_reads_nothing max_depth (new_table 16) 42 (str "x") world0
           _ world0 H).
Defined.

